(** * Verification of the parity IDA codec (parity.hpp, utility.hpp)

    The development embeds [ida_properties], [encode_1] and [decode] of
    namespace [parity], together with the byte casts of namespace [ut],
    as executable functions over an explicit byte-addressed memory, and
    proves the properties of the dispersal and of the single-slice
    recovery.  The experiment of test_1.cpp that drives the codec
    ([generate_data], [mbs], [run_experiment]) is embedded as well, up to
    its clock readings and its output.

    Conventions.
    - Memory is a list of blocks (one per allocated array); a pointer is
      [None] (nullptr) or a block together with an offset.  Two pointers
      into the same block alias.
    - Undefined behaviour of the C++ program (division by zero, access
      through nullptr, access outside an array) is an explicit outcome.
    - [size_t] arithmetic that can wrap is computed in [N] modulo 2^64. *)

From Stdlib Require Import ZArith NArith Lia.
From Stdlib Require Import Strings.Byte.
From stdpp Require Import list.

(** ** Undefined behaviour as an outcome *)

Inductive fault : Type :=
  | DivisionByZero
  | NullPointer
  | OutOfBounds
  | UnrelatedPointers.

Inductive outcome (A : Type) : Type :=
  | Done (a : A)
  | Undefined (f : fault).
Arguments Done {A} a.
Arguments Undefined {A} f.

#[global] Instance outcome_ret : MRet outcome := @Done.
#[global] Instance outcome_bind : MBind outcome := fun A B k c =>
  match c with
  | Done a => k a
  | Undefined f => Undefined f
  end.

(** ** Bytes *)

Definition byte_unsigned (b : byte) : Z := Z.of_N (Byte.to_N b).

Definition byte_of_Z (z : Z) : byte :=
  default x00 (Byte.of_N (Z.to_N (z mod 256))).

Definition byte_xor (a b : byte) : byte :=
  byte_of_Z (Z.lxor (byte_unsigned a) (byte_unsigned b)).

(** Bytewise exclusive or of two object representations. *)
Definition bytes_xor (a b : list byte) : list byte := zip_with byte_xor a b.

(** ** The chunk type [UIntT]

    [encode_1] and [decode] are templates over a trivially copyable type
    with value initialisation, [operator^=] and a fixed [sizeof].  *)

Class UIntT (T : Type) : Type := {
  sizeof : nat;
  zero : T;                        (* UIntT parity = {} *)
  xor : T → T → T;                 (* a ^ b *)
  from_bytes : list byte → T;      (* memcpy(&value, source, sizeof(T)) *)
  to_bytes : T → list byte;        (* memcpy(target, &source, sizeof(T)) *)
}.

(** What the codec relies on: the object representation has [sizeof]
    bytes, copying bytes in and out is the identity, a value-initialised
    chunk is all zero bytes, and [^] acts bit by bit. *)
Class UIntTLaws (T : Type) `{UIntT T} : Prop := {
  length_to_bytes : ∀ v : T, length (to_bytes v) = sizeof;
  to_from_bytes : ∀ bs, length bs = sizeof → to_bytes (from_bytes bs) = bs;
  to_bytes_zero : to_bytes zero = replicate sizeof x00;
  to_bytes_xor : ∀ a b : T, to_bytes (xor a b) = bytes_xor (to_bytes a) (to_bytes b);
}.

(** Unsigned integers of [w] bytes, stored little-endian. *)
Definition uint (w : nat) : Type := Z.

Fixpoint le_decode (bs : list byte) : Z :=
  match bs with
  | [] => 0
  | b :: bs => byte_unsigned b + 256 * le_decode bs
  end%Z.

Fixpoint le_encode (w : nat) (v : Z) : list byte :=
  match w with
  | O => []
  | S w => byte_of_Z v :: le_encode w (v / 256)
  end.

#[global] Instance uint_UIntT (w : nat) : UIntT (uint w) := {|
  sizeof := w;
  zero := 0%Z;
  xor := Z.lxor;
  from_bytes := le_decode;
  to_bytes := le_encode w;
|}.

Definition uint8_t := uint 1.
Definition uint16_t := uint 2.
Definition uint32_t := uint 4.
Definition uint64_t := uint 8.

(** ** Memory and pointers *)

Record address : Type := Addr { blk : nat; off : nat }.

Abbreviation pointer := (option address).
Abbreviation nullptr := (@None address).

Abbreviation memory := (list (list byte)).

Definition deref (p : pointer) : outcome address :=
  match p with
  | Some a => Done a
  | None => Undefined NullPointer
  end.

(** The [k] bytes a [memcpy] reads starting at [p]. *)
Definition load (m : memory) (p : pointer) (k : nat) : outcome (list byte) :=
  a ← deref p;
  match m !! blk a with
  | Some bytes =>
      if decide (off a + k ≤ length bytes)
      then Done (take k (drop (off a) bytes))
      else Undefined OutOfBounds
  | None => Undefined OutOfBounds
  end.

(** The memory after a [memcpy] of [bs] to [p]. *)
Definition store (m : memory) (p : pointer) (bs : list byte) : outcome memory :=
  a ← deref p;
  match m !! blk a with
  | Some bytes =>
      if decide (off a + length bs ≤ length bytes)
      then Done (<[blk a := list_inserts (off a) bs bytes]> m)
      else Undefined OutOfBounds
  | None => Undefined OutOfBounds
  end.

(** [p += k] *)
Definition ptr_add (p : pointer) (k : nat) : pointer :=
  match p with
  | Some a => Some (Addr (blk a) (off a + k))
  | None => None
  end.

(** [std::distance(first, last)] on byte pointers, a [ptrdiff_t]. *)
Definition distance (first last : pointer) : outcome Z :=
  match first, last with
  | None, None => Done 0%Z
  | Some a, Some b =>
      if decide (blk a = blk b)
      then Done (Z.of_nat (off b) - Z.of_nat (off a))%Z
      else Undefined UnrelatedPointers
  | _, _ => Undefined UnrelatedPointers
  end.

(** [slices[i]] on an array of pointers. *)
Definition index (slices : list pointer) (i : nat) : outcome pointer :=
  match slices !! i with
  | Some p => Done p
  | None => Undefined OutOfBounds
  end.

(** ** [size_t] *)

Definition size_t_wrap (x : N) : N := (x mod 2 ^ 64)%N.

Definition size_t_of_Z (z : Z) : N := Z.to_N (z mod 2 ^ 64).

(** [for (size_t i = first; i < first + count; ++i) body] *)
Fixpoint for_loop {St : Type} (first count : nat)
    (body : nat → St → outcome St) (s : St) : outcome St :=
  match count with
  | O => Done s
  | S count => s' ← body first s; for_loop (S first) count body s'
  end.

(** ** utility.hpp *)

Section Casts.
Context {T : Type} `{UIntT T}.

Definition from_bytes_cast (m : memory) (source : pointer) : outcome T :=
  bs ← load m source sizeof;
  Done (from_bytes bs).

Definition from_bytes_cast_padded (m : memory) (from : pointer) (size : nat)
    : outcome T :=
  let bytes := replicate sizeof x00 in
  bs ← load m from size;
  if decide (size ≤ sizeof)
  then Done (from_bytes (list_inserts 0 bs bytes))
  else Undefined OutOfBounds.

Definition to_bytes_cast (m : memory) (source : T) (target : pointer)
    : outcome memory :=
  store m target (to_bytes source).
End Casts.

(** ** parity.hpp *)

Record ida_properties_t : Type := {
  full_rounds : N;
  partial_round : bool;
}.

Definition num_chunks (p : ida_properties_t) : N :=
  size_t_wrap (full_rounds p + (if partial_round p then 1 else 0)).

Section Parity.
Context {T : Type} `{UIntT T}.

Definition ida_properties (in_begin in_end : pointer) (n : nat)
    : outcome ida_properties_t :=
  d ← distance in_begin in_end;
  let s := size_t_of_Z d in
  let chunk_size := N.of_nat sizeof in
  let round_size := size_t_wrap (N.of_nat n * chunk_size) in
  if decide (round_size = 0%N)
  then Undefined DivisionByZero
  else Done {| full_rounds := s / round_size;
               partial_round := negb (s mod round_size =? 0)%N |}.

(** State of the encoder inside a round: the memory, the input cursor,
    the parity accumulator and the caller's array of slice pointers. *)
Definition encode_state : Type := memory * pointer * T * list pointer.

(** Body of the inner loop of a full round. *)
Definition encode_full_chunk (i : nat) (st : encode_state)
    : outcome encode_state :=
  let '(m, in_begin, parity, slices) := st in
  chunk ← from_bytes_cast m in_begin;
  target ← index slices i;
  m ← to_bytes_cast m chunk target;
  let parity := xor parity chunk in
  let in_begin := ptr_add in_begin sizeof in
  let slices := <[i := ptr_add target sizeof]> slices in
  Done (m, in_begin, parity, slices).

(** Body of the inner loop of the partial round. *)
Definition encode_partial_chunk (in_end : pointer) (i : nat)
    (st : encode_state) : outcome encode_state :=
  let '(m, in_begin, parity, slices) := st in
  size ← distance in_begin in_end;
  let size_chunk := N.to_nat (N.min (size_t_of_Z size) (N.of_nat sizeof)) in
  chunk ← from_bytes_cast_padded m in_begin size_chunk;
  target ← index slices i;
  m ← to_bytes_cast m chunk target;
  let parity := xor parity chunk in
  let in_begin := ptr_add in_begin size_chunk in
  let slices := <[i := ptr_add target sizeof]> slices in
  Done (m, in_begin, parity, slices).

(** One round: the inner loop, then the parity chunk to [slices[n]]. *)
Definition encode_round
    (chunk_body : nat → encode_state → outcome encode_state) (n : nat)
    (st : memory * pointer * list pointer)
    : outcome (memory * pointer * list pointer) :=
  let '(m, in_begin, slices) := st in
  '(m, in_begin, parity, slices) ←
    for_loop 0 n chunk_body (m, in_begin, zero, slices);
  target ← index slices n;
  m ← to_bytes_cast m parity target;
  Done (m, in_begin, <[n := ptr_add target sizeof]> slices).

Definition encode_1 (m : memory) (in_begin in_end : pointer)
    (slices : list pointer) (n : nat)
    : outcome (ida_properties_t * memory * list pointer) :=
  p ← ida_properties in_begin in_end n;
  '(m, in_begin, slices) ←
    for_loop 0 (N.to_nat (full_rounds p))
      (λ _, encode_round encode_full_chunk n) (m, in_begin, slices);
  if partial_round p then
    '(m, _, slices) ←
      encode_round (encode_partial_chunk in_end) n (m, in_begin, slices);
    Done (p, m, slices)
  else Done (p, m, slices).

(** [std::find(slices + i, slices + i + count, nullptr)], as an index. *)
Fixpoint find_null (slices : list pointer) (i count : nat) : outcome nat :=
  match count with
  | O => Done i
  | S count =>
      p ← index slices i;
      match p with
      | None => Done i
      | Some _ => find_null slices (S i) count
      end
  end.

(** State of the decoder: the memory, the slice pointers, the output
    cursor [to]. *)
Definition decode_state : Type := memory * list pointer * pointer.

(** Body of the inner loop when no data slice is missing. *)
Definition decode_copy_chunk (i : nat) (st : decode_state)
    : outcome decode_state :=
  let '(m, slices, to) := st in
  source ← index slices i;
  bs ← load m source sizeof;
  m ← store m to bs;
  Done (m, <[i := ptr_add source sizeof]> slices, ptr_add to sizeof).

(** Body of the two inner loops of the recovery case. *)
Definition decode_recover_chunk (i : nat) (st : decode_state * T)
    : outcome (decode_state * T) :=
  let '(m, slices, to, recovery) := st in
  source ← index slices i;
  chunk ← from_bytes_cast m source;
  m ← to_bytes_cast m chunk to;
  let recovery := xor recovery chunk in
  Done (m, <[i := ptr_add source sizeof]> slices, ptr_add to sizeof, recovery).

(** One round of the recovery case. *)
Definition decode_recover_round (n missing_idx : nat) (st : decode_state)
    : outcome decode_state :=
  let '(m, slices, to) := st in
  source ← index slices n;
  recovery ← from_bytes_cast m source;
  let slices := <[n := ptr_add source sizeof]> slices in
  '(m, slices, to, recovery) ←
    for_loop 0 missing_idx decode_recover_chunk (m, slices, to, recovery);
  let recovery_to := to in
  let to := ptr_add to sizeof in
  '(m, slices, to, recovery) ←
    for_loop (missing_idx + 1) (n - (missing_idx + 1))
      decode_recover_chunk (m, slices, to, recovery);
  m ← to_bytes_cast m recovery recovery_to;
  Done (m, slices, to).

Definition decode (m : memory) (slices : list pointer) (n : nat)
    (to : pointer) (chunks : nat) : outcome decode_state :=
  missing_idx ← find_null slices 0 (N.to_nat (size_t_wrap (N.of_nat n + 1)));
  if decide (n ≤ missing_idx) then
    for_loop 0 chunks (λ _, for_loop 0 n decode_copy_chunk) (m, slices, to)
  else
    for_loop 0 chunks (λ _, decode_recover_round n missing_idx)
      (m, slices, to).
End Parity.


(** ** Vocabulary of the specification *)

Definition addr_add (a : address) (k : nat) : address :=
  Addr (blk a) (off a + k).

(** The byte stored at an address, if the address is inside its block. *)
Definition byte_at (m : memory) (a : address) : option byte :=
  bytes ← m !! blk a; bytes !! off a.

(** The sizes of the allocated blocks. *)
Definition shape (m : memory) : list nat := length <$> m.

(** [c] lies among the [len] bytes starting at [a]. *)
Definition in_range (a : address) (len : nat) (c : address) : Prop :=
  blk c = blk a ∧ off a ≤ off c < off a + len.

(** The [len] bytes starting at [a] lie inside an allocated block. *)
Definition valid_range (sh : list nat) (a : address) (len : nat) : bool :=
  match sh !! blk a with
  | Some size => bool_decide (off a + len ≤ size)
  | None => false
  end.

(** Two byte ranges have no address in common. *)
Definition disjoint (a : address) (la : nat) (b : address) (lb : nat) : bool :=
  bool_decide (la = 0 ∨ lb = 0 ∨ blk a ≠ blk b
               ∨ off a + la ≤ off b ∨ off b + lb ≤ off a).

(** Ranges of one length starting at the given addresses are pairwise
    disjoint. *)
Fixpoint separated (len : nat) (addrs : list address) : bool :=
  match addrs with
  | [] => true
  | a :: addrs =>
      forallb (λ b, disjoint a len b len) addrs && separated len addrs
  end.

(** The input followed by zero bytes up to [total] bytes. *)
Definition padded (data : list byte) (total : nat) : list byte :=
  data ++ replicate (total - length data) x00.

(** Number of rounds needed for [len] input bytes. *)
Definition rounds (len n w : nat) : nat :=
  len / (n * w) + (if len mod (n * w) =? 0 then 0 else 1).

(** The [k]-th chunk of [w] bytes of a byte sequence. *)
Definition chunk (w : nat) (d : list byte) (k : nat) : list byte :=
  take w (drop (k * w) d).

(** Exclusive or of a list of chunks of [w] bytes. *)
Definition xor_all (w : nat) (cs : list (list byte)) : list byte :=
  foldl bytes_xor (replicate w x00) cs.

(** The [n] chunks of round [r], chunk [k] of the sequence being [val k]. *)
Definition round_vals (val : nat → list byte) (n r : nat)
    : list (list byte) :=
  (λ i, val (r * n + i)) <$> seq 0 n.

(** The [n] data chunks of round [r] of a byte sequence. *)
Definition round_chunks (w n : nat) (d : list byte) (r : nat)
    : list (list byte) :=
  round_vals (chunk w d) n r.

#[global] Instance address_inhabited : Inhabited address := populate (Addr 0 0).

#[global] Instance address_eq_dec : EqDecision address.
Proof. solve_decision. Defined.

(** A family of [w]-byte slots of memory, [tgt s] holding [val s] once
    slot [s] is [done]; memory outside the slots is as in [m0]. *)
Definition written {Slot : Type} (ok : Slot → Prop) (tgt : Slot → address)
    (val : Slot → list byte) (w : nat) (m0 : memory)
    (done : Slot → Prop) (m : memory) : Prop :=
  shape m = shape m0
  ∧ (∀ s j, done s → j < w → byte_at m (addr_add (tgt s) j) = val s !! j)
  ∧ (∀ c, (∀ s, ok s → ¬ in_range (tgt s) w c) → byte_at m c = byte_at m0 c).

(** The caller's pointer array after slice [i] has been advanced past
    [prog i] chunks of [w] bytes. *)
Definition advanced (slices : list pointer) (w : nat) (prog : nat → nat)
    (sl : list pointer) : Prop :=
  length sl = length slices
  ∧ ∀ i p, slices !! i = Some p → sl !! i = Some (ptr_add p (prog i * w)).

(** Slots written by the encoder: slot [(i, r)] is where the chunk of
    round [r] goes in slice [i]; slice [n] is the parity slice. *)
Definition enc_ok (n R : nat) (s : nat * nat) : Prop := s.1 ≤ n ∧ s.2 < R.

Definition enc_tgt (addrs : list address) (w : nat) (s : nat * nat) : address :=
  addr_add (addrs !!! s.1) (s.2 * w).

Definition enc_val (w n : nat) (d : list byte) (s : nat * nat) : list byte :=
  if decide (s.1 < n) then chunk w d (s.2 * n + s.1)
  else xor_all w (round_chunks w n d s.2).

(** Chunks per slice once [i] slices have been served in round [r]. *)
Definition enc_prog (r i : nat) (i' : nat) : nat :=
  if decide (i' < i) then r + 1 else r.

Definition enc_done (n R r i : nat) (s : nat * nat) : Prop :=
  enc_ok n R s ∧ s.2 < enc_prog r i s.1.

(** What [encode_1] needs from its caller: [n + 1] slice pointers, each
    with room for all chunks, pairwise disjoint and disjoint from the
    input. *)
Definition encode_layout (sh : list nat) (ib : address) (len : nat)
    (addrs : list address) (n w : nat) : bool :=
  let cap := rounds len n w * w in
  bool_decide (length addrs = n + 1)
  && forallb (λ a, valid_range sh a cap) addrs
  && separated cap addrs
  && forallb (λ a, disjoint ib len a cap) addrs.

(** Slots written by the decoder: slot [k] is where chunk [k] of the
    output goes. *)
Definition dec_ok (n R : nat) (k : nat) : Prop := k < R * n.

Definition dec_tgt (out : address) (w : nat) (k : nat) : address :=
  addr_add out (k * w).

(** The first [K] output chunks are written, except the reserved one. *)
Definition dec_done (K : nat) (hole : option nat) (k : nat) : Prop :=
  k < K ∧ hole ≠ Some k.

(** Chunks read per slice by the pass-through decoder: the parity slice
    is never read. *)
Definition copy_prog (n r i : nat) (i' : nat) : nat :=
  if decide (i' < n) then enc_prog r i i' else 0.

(** Chunks read per slice inside round [r] of the recovering decoder:
    the parity chunk is read first. *)
Definition recover_prog (n r i : nat) (i' : nat) : nat :=
  if decide (i' < n) then enc_prog r i i' else r + 1.

(** A natural number that is the value of a [size_t]. *)
Definition fits_size_t (x : nat) : Prop := (N.of_nat x < 2 ^ 64)%N.

(** What [decode] needs from its caller about the output: room for all
    chunks, and no overlap with the slices it reads. *)
Definition output_layout (sh : list nat) (addrs : list address)
    (out : address) (n w chunks : nat) : bool :=
  valid_range sh out (chunks * n * w)
  && forallb (λ a, disjoint a (chunks * w) out (chunks * n * w)) addrs.

(** Every chunk read or written so far through the pointers of the
    array lies inside an allocated block: [prog i] chunks of [w] bytes
    starting where [slices !! i] pointed at the call. *)
Definition slots_valid (sh : list nat) (slices : list pointer) (w : nat)
    (prog : nat → nat) : Prop :=
  ∀ i r, r < prog i →
    ∃ a, slices !! i = Some (Some a)
         ∧ valid_range sh (addr_add a (r * w)) w = true.

(** Every output chunk written so far lies inside an allocated block. *)
Definition output_valid (sh : list nat) (to : pointer) (w : nat)
    (K : nat) (hole : option nat) : Prop :=
  ∀ k, k < K → hole ≠ Some k →
    ∃ o, to = Some o ∧ valid_range sh (addr_add o (k * w)) w = true.

(** Chunks served per slice by round [r] of the encoder, [i] slices
    into the round. *)
Definition enc_served (n r i : nat) (i' : nat) : nat :=
  if decide (i' ≤ n) then enc_prog r i i' else 0.

(** Chunks read per slice by round [r] of the recovering decoder. *)
Definition rec_served (n mi r i : nat) (parity_read : bool) (i' : nat) : nat :=
  if decide (i' = mi ∨ n < i') then 0
  else if decide (i' = n) then (if parity_read then r + 1 else r)
  else enc_prog r i i'.


(** ** A concrete scenario

    Two data slices and a parity slice, chunks of one byte, five input
    bytes [01 02 03 04 05]: block 0 is the input, blocks 1 to 3 are the
    three slices of three bytes each, block 4 is the output. *)

Definition ex_data : list byte := [x01; x02; x03; x04; x05].

Definition ex_memory : memory :=
  [ex_data; replicate 3 xff; replicate 3 xff; replicate 3 xff;
   replicate 6 xff].

Definition ex_input : address := Addr 0 0.
Definition ex_slices : list address := [Addr 1 0; Addr 2 0; Addr 3 0].
Definition ex_output : address := Addr 4 0.

(** The memory once the scenario is encoded. *)
Definition ex_encoded : memory :=
  [ex_data; [x01; x03; x05]; [x02; x04; x00]; [x03; x07; x05];
   replicate 6 xff].

(** The scenario with a first slice of two bytes, one byte short. *)
Definition ex_short_memory : memory :=
  [ex_data; replicate 2 xff; replicate 3 xff; replicate 3 xff;
   replicate 6 xff].

(** The encoded scenario with an output of five bytes, one byte short. *)
Definition ex_short_output : memory :=
  [ex_data; [x01; x03; x05]; [x02; x04; x00]; [x03; x07; x05];
   replicate 5 xff].

(** A pointer array in which both data slices are absent. *)
Definition ex_two_absent : list pointer :=
  [nullptr; nullptr; Some (Addr 3 0)].

(** ** Slices as [decode] reads them *)

(** The [w] bytes of chunk [r] of the slice that entry [i] of a pointer
    array points to, as far as they can be read. *)
Definition slice_chunk (m : memory) (slices : list pointer) (w i r : nat)
    : list byte :=
  match slices !! i with
  | Some p =>
      match load m (ptr_add p (r * w)) w with
      | Done bs => bs
      | Undefined _ => []
      end
  | None => []
  end.

(** Chunk [k] of the sequence that interleaves [n] slices: chunk [k / n]
    of slice [k mod n]. *)
Definition interleaved (m : memory) (slices : list pointer) (w n k : nat)
    : list byte :=
  slice_chunk m slices w (k mod n) (k / n).

(** What [decode] needs from the slices it reads: each holds [chunks]
    chunks and none overlaps the output. *)
Definition readable_slices (sh : list nat) (addrs : list address)
    (out : address) (n w chunks : nat) : bool :=
  forallb (λ a, valid_range sh a (chunks * w)
                && disjoint a (chunks * w) out (chunks * n * w)) addrs.

(** The data slices of a round other than slice [mi], in the order in
    which the recovering decoder reads them. *)
Definition other_slices (n mi : nat) : list nat :=
  seq 0 mi ++ seq (mi + 1) (n - (mi + 1)).

(** ** test_1.cpp *)

(** The wrappers of the SIMD registers of 128, 256 and 512 bits, whose
    [^] and [^=] are the bitwise exclusive or of the register. *)
Definition my_int128 := uint 16.
Definition my_int256 := uint 32.
Definition my_int512 := uint 64.

(** The scenario of the five input bytes for chunks of 16 bytes: three
    slices of 16 bytes each and an output of 32 bytes. *)
Definition ex_wide_memory : memory :=
  [ex_data; replicate 16 xff; replicate 16 xff; replicate 16 xff;
   replicate 32 xff].

(** The loop of [generate_data]: one byte is appended until the vector
    holds [size] of them; [fuel] bounds the number of iterations. *)
Fixpoint generate_data_loop (fuel size : nat) (data : list byte)
    : option (list byte) :=
  if decide (length data = size) then Some data
  else
    match fuel with
    | O => None
    | S fuel =>
        generate_data_loop fuel size
          (data ++ [byte_of_Z (Z.of_nat (length data mod 256))])
    end.

Definition generate_data (size : nat) : option (list byte) :=
  generate_data_loop size size [].

(** [mbs(size, ms)] as [run_experiment] calls it: [size] is a [size_t],
    [ms] the [count()] of a duration in milliseconds, a signed integer
    of 64 bits that the division converts to [size_t]. *)
Definition mbs (size : N) (ms : Z) : outcome N :=
  if decide (ms = 0%Z) then Done 0%N
  else
    let divisor := size_t_of_Z ms in
    if decide (divisor = 0%N) then Undefined DivisionByZero
    else Done (size_t_wrap (1000 * size) / divisor / (1024 * 1024))%N.

(** [v.data()] of a vector stored in block [b]: a vector that holds no
    element has allocated nothing. *)
Definition vector_data (b : nat) (v : list byte) : pointer :=
  match v with
  | [] => nullptr
  | _ => Some (Addr b 0)
  end.

#[global] Instance byte_eq_decision : EqDecision byte := Byte.byte_eq_dec.

(** [std::equal(first.cbegin(), first.cend(), second)] *)
Definition std_equal (m : memory) (first : list byte) (second : pointer)
    : outcome bool :=
  bs ← load m second (length first);
  Done (bool_decide (first = bs)).

(** [std::size_t max_size = 1024 * 1024 * 64] and
    [std::size_t step_size = max_size / 16] of [run_experiment]. *)
Definition max_size : N := 1024 * 1024 * 64.
Definition step_size : N := max_size / 16.

(** [&encode_buffer[0 + k * slice_size]], [encode_buffer] being block 0;
    the index is computed in [size_t]. *)
Definition slice_pointer (slice_size k : N) : pointer :=
  Some (Addr 0 (N.to_nat (size_t_wrap (0 + size_t_wrap (k * slice_size))))).

Section Experiment.
Context {T : Type} `{UIntT T}.

(** One round of the loop of [run_experiment] on a memory whose
    block 0 is [encode_buffer] and whose block 1 is [decode_buffer];
    the vector [data] is a block of its own while the round lasts.
    The result is the pair of [correct] and [correctp] of the line
    that is printed together with the memory at the end of the round;
    the clock readings and the throughput are left out.  The result is
    [None] when [generate_data] does not return. *)
Definition run_experiment_round (slice_size : N) (m : memory)
    : option (outcome (bool * bool * memory)) :=
  let n := 5 in
  data ← generate_data (N.to_nat (size_t_wrap (slice_size * N.of_nat n)));
  Some (
    let data_block := length m in
    let m := m ++ [data] in
    let decode_buffer := Some (Addr 1 0) in
    let write_to :=
      [slice_pointer slice_size 0; slice_pointer slice_size 1;
       slice_pointer slice_size 2; slice_pointer slice_size 3;
       slice_pointer slice_size 4; slice_pointer slice_size 5] in
    '(z, m, _) ←
      encode_1 m (vector_data data_block data)
        (ptr_add (vector_data data_block data) (length data)) write_to n;
    let read_from :=
      [slice_pointer slice_size 0; slice_pointer slice_size 1;
       slice_pointer slice_size 2; slice_pointer slice_size 3;
       slice_pointer slice_size 4; nullptr] in
    '(m, _, _) ←
      decode m read_from n decode_buffer (N.to_nat (num_chunks z));
    correct ← std_equal m data decode_buffer;
    let read_fromp :=
      [slice_pointer slice_size 0; slice_pointer slice_size 1;
       slice_pointer slice_size 2; slice_pointer slice_size 3;
       nullptr; slice_pointer slice_size 5] in
    '(m, _, _) ←
      decode m read_fromp n decode_buffer (N.to_nat (num_chunks z));
    correctp ← std_equal m data decode_buffer;
    Done (correct, correctp, take data_block m)).

(** The loop of [run_experiment]: the lines printed, each with the
    slice size, sizeof(UIntT) and the two flags; [fuel] bounds the
    number of rounds. *)
Fixpoint run_experiment_loop (fuel : nat) (slice_size : N) (m : memory)
    : option (outcome (list (N * nat * bool * bool))) :=
  if decide (slice_size < max_size)%N then
    match fuel with
    | O => None
    | S fuel =>
        round ← run_experiment_round slice_size m;
        match round with
        | Done (correct, correctp, m) =>
            rest ← run_experiment_loop fuel
                      (size_t_wrap (slice_size + step_size)) m;
            Some (lines ← rest;
                  Done ((slice_size, sizeof, correct, correctp) :: lines))
        | Undefined f => Some (Undefined f)
        end
    end
  else Some (Done []).

(** [run_experiment<UIntT>()]: both buffers are value-initialised
    arrays of max_size·(n + 1) bytes. *)
Definition run_experiment (fuel : nat)
    : option (outcome (list (N * nat * bool * bool))) :=
  let n := 5%N in
  let encode_buffer :=
    replicate (N.to_nat (size_t_wrap (max_size * (n + 1)))) x00 in
  let decode_buffer :=
    replicate (N.to_nat (size_t_wrap (max_size * (n + 1)))) x00 in
  run_experiment_loop fuel 0 [encode_buffer; decode_buffer].
End Experiment.


(** * Properties *)

(** ** Bytes *)

Lemma byte_unsigned_range (b : byte) : (0 ≤ byte_unsigned b < 256)%Z.
Proof.
  unfold byte_unsigned. pose proof (Byte.to_N_bounded b). lia.
Qed.

Lemma byte_of_Z_unsigned (b : byte) : byte_of_Z (byte_unsigned b) = b.
Proof.
  unfold byte_of_Z. pose proof (byte_unsigned_range b).
  rewrite Z.mod_small by lia. unfold byte_unsigned.
  by rewrite N2Z.id, Byte.of_to_N.
Qed.

Lemma byte_unsigned_of_Z (z : Z) : byte_unsigned (byte_of_Z z) = (z mod 256)%Z.
Proof.
  unfold byte_of_Z, byte_unsigned.
  pose proof (Z.mod_pos_bound z 256 eq_refl) as Hz.
  destruct (Byte.of_N (Z.to_N (z mod 256))) as [c|] eqn:E; simpl.
  - apply Byte.to_of_N in E. rewrite E. lia.
  - apply Byte.of_N_None_iff in E. lia.
Qed.

Lemma byte_of_Z_mod (z : Z) : byte_of_Z (z mod 256) = byte_of_Z z.
Proof. unfold byte_of_Z. by rewrite Z.mod_mod. Qed.

Lemma lxor_mod_pow2 (a b k : Z) :
  (0 ≤ k)%Z → (Z.lxor a b mod 2 ^ k = Z.lxor (a mod 2 ^ k) (b mod 2 ^ k))%Z.
Proof.
  intros Hk. apply Z.bits_inj'. intros i Hi.
  rewrite Z.lxor_spec, !Z.testbit_mod_pow2, Z.lxor_spec by done.
  by destruct (i <? k)%Z.
Qed.

Lemma byte_xor_of_Z (x y : Z) :
  byte_xor (byte_of_Z x) (byte_of_Z y) = byte_of_Z (Z.lxor x y).
Proof.
  unfold byte_xor. rewrite !byte_unsigned_of_Z.
  change 256%Z with (2 ^ 8)%Z. rewrite <- lxor_mod_pow2 by done.
  apply byte_of_Z_mod.
Qed.

Lemma byte_xor_comm (a b : byte) : byte_xor a b = byte_xor b a.
Proof. unfold byte_xor. by rewrite Z.lxor_comm. Qed.

Lemma byte_xor_assoc (a b c : byte) :
  byte_xor (byte_xor a b) c = byte_xor a (byte_xor b c).
Proof.
  rewrite <- (byte_of_Z_unsigned a), <- (byte_of_Z_unsigned b),
    <- (byte_of_Z_unsigned c).
  by rewrite !byte_xor_of_Z, Z.lxor_assoc.
Qed.

Lemma byte_xor_nilpotent (a : byte) : byte_xor a a = x00.
Proof. unfold byte_xor. by rewrite Z.lxor_nilpotent. Qed.

Lemma byte_xor_zero_l (a : byte) : byte_xor x00 a = a.
Proof.
  unfold byte_xor. change (byte_unsigned x00) with 0%Z.
  rewrite Z.lxor_0_l. apply byte_of_Z_unsigned.
Qed.

Lemma byte_xor_zero_r (a : byte) : byte_xor a x00 = a.
Proof. rewrite byte_xor_comm. apply byte_xor_zero_l. Qed.

(** ** The little-endian integers satisfy the chunk laws *)

Lemma length_le_encode (w : nat) (v : Z) : length (le_encode w v) = w.
Proof. revert v. induction w as [|w IH]; intros v; simpl; [done|by rewrite IH]. Qed.

Lemma le_encode_decode (bs : list byte) : le_encode (length bs) (le_decode bs) = bs.
Proof.
  induction bs as [|b bs IH]; simpl; [done|].
  pose proof (byte_unsigned_range b) as Hb. f_equal.
  - rewrite <- byte_of_Z_mod.
    replace (byte_unsigned b + 256 * le_decode bs)%Z
      with (byte_unsigned b + le_decode bs * 256)%Z by lia.
    rewrite Z.mod_add, Z.mod_small by lia. apply byte_of_Z_unsigned.
  - replace (byte_unsigned b + 256 * le_decode bs)%Z
      with (byte_unsigned b + le_decode bs * 256)%Z by lia.
    rewrite Z.div_add, Z.div_small by lia. exact IH.
Qed.

Lemma le_encode_zero (w : nat) : le_encode w 0 = replicate w x00.
Proof.
  induction w as [|w IH]; cbn [le_encode replicate]; [done|].
  change (0 / 256)%Z with 0%Z. by rewrite IH.
Qed.

Lemma le_encode_lxor (w : nat) (a b : Z) :
  le_encode w (Z.lxor a b) = bytes_xor (le_encode w a) (le_encode w b).
Proof.
  revert a b. induction w as [|w IH]; intros a b; cbn [le_encode]; [done|].
  unfold bytes_xor; cbn [zip_with]. f_equal.
  - by rewrite byte_xor_of_Z.
  - change 256%Z with (2 ^ 8)%Z.
    rewrite <- !Z.shiftr_div_pow2, Z.shiftr_lxor by done. apply IH.
Qed.

#[global] Instance uint_laws (w : nat) : UIntTLaws (uint w).
Proof.
  split; simpl.
  - apply length_le_encode.
  - intros bs <-. apply le_encode_decode.
  - apply le_encode_zero.
  - apply le_encode_lxor.
Qed.

(** Values of [uint w] stay within [w] bytes. *)
Lemma le_decode_range (bs : list byte) :
  (0 ≤ le_decode bs < 2 ^ (8 * Z.of_nat (length bs)))%Z.
Proof.
  induction bs as [|b bs IH]; simpl length; simpl le_decode; [simpl; lia|].
  pose proof (byte_unsigned_range b).
  replace (8 * Z.of_nat (S (length bs)))%Z with (8 + 8 * Z.of_nat (length bs))%Z by lia.
  rewrite Z.pow_add_r by lia. change (2 ^ 8)%Z with 256%Z. nia.
Qed.


(** ** Memory *)

Lemma shape_lookup (m : memory) (b : nat) :
  shape m !! b = length <$> (m !! b).
Proof. unfold shape. apply list_lookup_fmap. Qed.

Lemma valid_range_spec (m : memory) (a : address) (len : nat) :
  valid_range (shape m) a len = true ↔
  ∃ bytes, m !! blk a = Some bytes ∧ off a + len ≤ length bytes.
Proof.
  unfold valid_range. rewrite shape_lookup.
  destruct (m !! blk a) as [bytes|]; simpl.
  - rewrite bool_decide_eq_true. split; [eauto|].
    by intros (? & [= <-] & ?).
  - split; [done|]. by intros (? & ? & _).
Qed.

Lemma valid_range_le (sh : list nat) (a : address) (len len' k : nat) :
  valid_range sh a len = true → k + len' ≤ len →
  valid_range sh (addr_add a k) len' = true.
Proof.
  unfold valid_range; simpl. destruct (sh !! blk a); [|done].
  rewrite !bool_decide_eq_true. lia.
Qed.

Lemma load_Done (m : memory) (a : address) (k : nat) (bs : list byte) :
  load m (Some a) k = Done bs ↔
  valid_range (shape m) a k = true ∧ length bs = k
  ∧ ∀ j, j < k → byte_at m (addr_add a j) = bs !! j.
Proof.
  unfold load, byte_at; simpl. rewrite valid_range_spec.
  destruct (m !! blk a) as [bytes|] eqn:Hb; simpl.
  - case_decide as Hle.
    + split.
      * intros [= <-]. split; [eauto|]. split.
        { rewrite length_take, length_drop. lia. }
        intros j Hj. by rewrite lookup_take_lt, lookup_drop.
      * intros (_ & Hlen & Hbs). f_equal. apply list_eq. intros j.
        destruct (decide (j < k)) as [Hj|Hj].
        { rewrite lookup_take_lt, lookup_drop by done. by rewrite Hbs. }
        rewrite lookup_take_ge by lia. symmetry. apply lookup_ge_None. lia.
    + split; [done|]. intros [(bytes' & [= <-] & ?) _]. lia.
  - split; [done|]. by intros [(? & ? & _) _].
Qed.

Lemma store_Done (m : memory) (a : address) (bs : list byte) :
  valid_range (shape m) a (length bs) = true →
  ∃ m', store m (Some a) bs = Done m'
    ∧ shape m' = shape m
    ∧ (∀ j, j < length bs → byte_at m' (addr_add a j) = bs !! j)
    ∧ (∀ c, ¬ in_range a (length bs) c → byte_at m' c = byte_at m c).
Proof.
  intros (bytes & Hb & Hle)%valid_range_spec.
  unfold store; simpl. rewrite Hb. rewrite decide_True by done.
  eexists; split; [done|]. split; [|split].
  - unfold shape. rewrite list_fmap_insert, length_inserts.
    apply list_insert_id. by rewrite list_lookup_fmap, Hb.
  - intros j Hj. unfold byte_at; simpl.
    rewrite list_lookup_insert_eq by (by eapply lookup_lt_Some). simpl.
    rewrite list_lookup_inserts by lia. f_equal. lia.
  - intros [b k] Hc. unfold byte_at, in_range in *; simpl in *.
    destruct (decide (b = blk a)) as [->|Hne].
    + rewrite list_lookup_insert_eq by (by eapply lookup_lt_Some).
      rewrite Hb; simpl.
      destruct (decide (k < off a)).
      * by rewrite list_lookup_inserts_lt.
      * rewrite list_lookup_inserts_ge by lia. done.
    + by rewrite list_lookup_insert_ne.
Qed.

Lemma store_Undefined (m : memory) (a : address) (bs : list byte) :
  valid_range (shape m) a (length bs) = false →
  store m (Some a) bs = Undefined OutOfBounds.
Proof.
  unfold store, valid_range; simpl. rewrite shape_lookup.
  destruct (m !! blk a) as [bytes|]; simpl; [|done].
  rewrite bool_decide_eq_false. intros. by rewrite decide_False.
Qed.


Lemma disjoint_spec (a : address) (la : nat) (b : address) (lb : nat) :
  disjoint a la b lb = true ↔ ∀ c, in_range a la c → ¬ in_range b lb c.
Proof.
  unfold disjoint, in_range. rewrite bool_decide_eq_true. split.
  - intros Hd c. lia.
  - intros Hd.
    destruct (decide (la = 0)); [lia|]. destruct (decide (lb = 0)); [lia|].
    destruct (decide (blk a = blk b)) as [Hab|]; [|lia].
    destruct (decide (off a + la ≤ off b)); [lia|].
    destruct (decide (off b + lb ≤ off a)); [lia|].
    exfalso. apply (Hd (Addr (blk a) (max (off a) (off b)))); simpl; lia.
Qed.

Lemma load_frame (m m' : memory) (a : address) (k : nat) :
  shape m' = shape m →
  (∀ j, j < k → byte_at m' (addr_add a j) = byte_at m (addr_add a j)) →
  load m' (Some a) k = load m (Some a) k.
Proof.
  intros Hsh Hb. destruct (load m (Some a) k) as [bs|f] eqn:E.
  - apply load_Done in E as (? & ? & Hbs). apply load_Done.
    rewrite Hsh. split_and!; [done..|]. intros j Hj. rewrite Hb by done. auto.
  - destruct (load m' (Some a) k) as [bs|f'] eqn:E'.
    + apply load_Done in E' as (? & ? & Hbs).
      assert (load m (Some a) k = Done bs) as E2; [|congruence].
      apply load_Done. rewrite <- Hsh. split_and!; [done..|].
      intros j Hj. rewrite <- Hb by done. auto.
    + revert E E'. unfold load; simpl.
      repeat case_match; congruence.
Qed.

Section Writes.
Context {Slot : Type} `{EqDecision Slot} (ok : Slot → Prop) (tgt : Slot → address).
Context (val : Slot → list byte) (w : nat) (m0 : memory).
Hypothesis val_length : ∀ s, ok s → length (val s) = w.
Hypothesis tgt_valid : ∀ s, ok s → valid_range (shape m0) (tgt s) w = true.
Hypothesis tgt_disjoint :
  ∀ s s', ok s → ok s' → s ≠ s' → disjoint (tgt s) w (tgt s') w = true.

Local Abbreviation written := (written ok tgt val w m0).

Lemma written_init : written (λ _, False) m0.
Proof. by split_and!. Qed.

Lemma written_weaken (done done' : Slot → Prop) (m : memory) :
  (∀ s, done' s → done s) → written done m → written done' m.
Proof. intros Hd (? & Hw & ?). split_and!; [done| |done]. eauto. Qed.

Lemma written_store (done : Slot → Prop) (m : memory) (s : Slot) :
  written done m → ok s → (∀ s', done s' → ok s') →
  ∃ m', store m (Some (tgt s)) (val s) = Done m'
        ∧ written (λ s', s' = s ∨ done s') m'.
Proof.
  intros (Hsh & Hw & Hfr) Hs Hdone.
  destruct (store_Done m (tgt s) (val s)) as (m' & Hst & Hsh' & Hnew & Hold).
  { rewrite Hsh, val_length by done. auto. }
  rewrite val_length in Hnew, Hold by done.
  exists m'. split; [done|]. split_and!.
  - congruence.
  - intros s' j [->|Hs'] Hj; [auto|].
    destruct (decide (s' = s)) as [->|Hne]; [auto|].
    rewrite Hold; [auto|].
    apply (proj1 (disjoint_spec _ _ _ _) (tgt_disjoint s' s (Hdone _ Hs') Hs Hne)).
    unfold in_range; simpl. lia.
  - intros c Hc. rewrite Hold by auto. auto.
Qed.

Lemma written_load (done : Slot → Prop) (m : memory) (s : Slot) :
  written done m → ok s → done s → load m (Some (tgt s)) w = Done (val s).
Proof.
  intros (Hsh & Hw & _) Hs Hd. apply load_Done. rewrite Hsh. auto.
Qed.

Lemma written_load_frame (done : Slot → Prop) (m : memory)
    (a : address) (k : nat) :
  written done m →
  (∀ s, ok s → disjoint a k (tgt s) w = true) →
  load m (Some a) k = load m0 (Some a) k.
Proof.
  intros (Hsh & _ & Hfr) Hdis. apply load_frame; [done|].
  intros j Hj. apply Hfr. intros s Hs Hin.
  apply (proj1 (disjoint_spec _ _ _ _) (Hdis s Hs) (addr_add a j)); [|done].
  unfold in_range; simpl. lia.
Qed.
End Writes.


(** ** Chunks of the padded input *)

Lemma length_padded (data : list byte) (total : nat) :
  length data ≤ total → length (padded data total) = total.
Proof. intros. unfold padded. rewrite length_app, length_replicate. lia. Qed.

Lemma take_padded (data : list byte) (total : nat) :
  take (length data) (padded data total) = data.
Proof. unfold padded. by rewrite take_app_length. Qed.

Lemma lookup_padded (data : list byte) (total k : nat) :
  k < total →
  padded data total !! k = Some (default x00 (data !! k)).
Proof.
  intros Hk. unfold padded. destruct (decide (k < length data)) as [Hlt|Hge].
  - rewrite lookup_app_l by done.
    destruct (lookup_lt_is_Some_2 data k Hlt) as [x Hx]. by rewrite Hx.
  - rewrite lookup_app_r by lia. rewrite (lookup_ge_None_2 data k) by lia.
    simpl. apply lookup_replicate. split; [done|lia].
Qed.

Lemma length_chunk (w : nat) (d : list byte) (k : nat) :
  k * w + w ≤ length d → length (chunk w d k) = w.
Proof. intros. unfold chunk. rewrite length_take, length_drop. lia. Qed.

Lemma lookup_chunk (w : nat) (d : list byte) (k j : nat) :
  j < w → chunk w d k !! j = d !! (k * w + j).
Proof. intros. unfold chunk. by rewrite lookup_take_lt, lookup_drop. Qed.

(** What the encoder reads for chunk [k] is chunk [k] of the padded
    input: [size] bytes of input followed by zeros. *)
Lemma padded_read (w : nat) (data : list byte) (total k : nat) :
  k * w + w ≤ total →
  let pos := (k * w) `min` length data in
  let size := (length data - pos) `min` w in
  list_inserts 0 (take size (drop pos data)) (replicate w x00)
  = chunk w (padded data total) k.
Proof.
  intros Hk pos size. apply list_eq. intros j.
  assert (Hpos : pos = (k * w) `min` length data) by done.
  assert (Hsize : size = (length data - pos) `min` w) by done.
  clearbody pos size.
  destruct (decide (j < w)) as [Hj|Hj].
  - rewrite lookup_chunk, lookup_padded by lia.
    destruct (decide (j < size)) as [Hs|Hs].
    + rewrite list_lookup_inserts
        by (rewrite ?length_take, ?length_drop, ?length_replicate; lia).
      rewrite Nat.sub_0_r, lookup_take_lt, lookup_drop by done.
      replace (pos + j) with (k * w + j) by lia.
      destruct (lookup_lt_is_Some_2 data (k * w + j)) as [x Hx]; [lia|].
      by rewrite Hx.
    + rewrite list_lookup_inserts_ge
        by (rewrite ?length_take, ?length_drop; lia).
      rewrite (lookup_ge_None_2 data) by lia. simpl.
      apply lookup_replicate. split; [done|lia].
  - rewrite (lookup_ge_None_2 (chunk _ _ _))
      by (unfold chunk; rewrite length_take; lia).
    apply lookup_ge_None. rewrite length_inserts, length_replicate. lia.
Qed.

(** ** Exclusive or of chunks *)

Lemma length_bytes_xor (a b : list byte) :
  length (bytes_xor a b) = length a `min` length b.
Proof. apply length_zip_with. Qed.

Lemma bytes_xor_comm (a b : list byte) : bytes_xor a b = bytes_xor b a.
Proof.
  unfold bytes_xor. revert b. induction a as [|x a IH]; intros [|y b]; simpl; [done..|].
  by rewrite byte_xor_comm, IH.
Qed.

Lemma bytes_xor_assoc (a b c : list byte) :
  bytes_xor (bytes_xor a b) c = bytes_xor a (bytes_xor b c).
Proof.
  unfold bytes_xor. revert b c.
  induction a as [|x a IH]; intros [|y b] [|z c]; simpl; [done..|].
  by rewrite byte_xor_assoc, IH.
Qed.

Lemma bytes_xor_nilpotent (a : list byte) :
  bytes_xor a a = replicate (length a) x00.
Proof.
  unfold bytes_xor. induction a as [|x a IH]; simpl; [done|].
  by rewrite byte_xor_nilpotent, IH.
Qed.

Lemma bytes_xor_zero_l (a : list byte) :
  bytes_xor (replicate (length a) x00) a = a.
Proof.
  unfold bytes_xor. induction a as [|x a IH]; simpl; [done|].
  by rewrite byte_xor_zero_l, IH.
Qed.

Lemma bytes_xor_zero_r (a : list byte) :
  bytes_xor a (replicate (length a) x00) = a.
Proof. rewrite bytes_xor_comm. apply bytes_xor_zero_l. Qed.

Lemma foldl_bytes_xor (acc : list byte) (cs : list (list byte)) (w : nat) :
  length acc = w → Forall (λ c, length c = w) cs →
  foldl bytes_xor acc cs = bytes_xor acc (xor_all w cs)
  ∧ length (xor_all w cs) = w.
Proof.
  unfold xor_all. intros Hacc Hcs. revert acc Hacc.
  induction Hcs as [|c cs Hc Hcs IH]; intros acc Hacc; simpl.
  - rewrite length_replicate. split; [|done].
    subst w. by rewrite bytes_xor_zero_r.
  - destruct (IH (bytes_xor acc c)) as [-> Hl].
    { rewrite length_bytes_xor. lia. }
    destruct (IH (bytes_xor (replicate w x00) c)) as [-> _].
    { rewrite length_bytes_xor, length_replicate. lia. }
    split.
    + rewrite <- Hc at 2. rewrite bytes_xor_zero_l.
      by rewrite bytes_xor_assoc.
    + rewrite length_bytes_xor, length_bytes_xor, length_replicate. lia.
Qed.

Lemma length_xor_all (w : nat) (cs : list (list byte)) :
  Forall (λ c, length c = w) cs → length (xor_all w cs) = w.
Proof.
  intros Hcs.
  by destruct (foldl_bytes_xor (replicate w x00) cs w (length_replicate _ _) Hcs).
Qed.

Lemma xor_all_snoc (w : nat) (cs : list (list byte)) (c : list byte) :
  xor_all w (cs ++ [c]) = bytes_xor (xor_all w cs) c.
Proof. unfold xor_all. by rewrite foldl_app. Qed.

(** Cancelling all chunks but one from the exclusive or of all of them
    leaves that one: the recovery identity. *)
Lemma xor_all_recover (w : nat) (before after : list (list byte))
    (c : list byte) :
  length c = w →
  Forall (λ c, length c = w) before → Forall (λ c, length c = w) after →
  foldl bytes_xor (foldl bytes_xor (xor_all w (before ++ c :: after)) before)
    after = c.
Proof.
  intros Hc Hb Ha.
  assert (Hall : Forall (λ c, length c = w) (before ++ c :: after)).
  { apply Forall_app. split; [done|]. by constructor. }
  pose proof (length_xor_all w _ Hall) as Hlen.
  pose proof (length_xor_all w _ Hb) as Hlb.
  pose proof (length_xor_all w _ Ha) as Hla.
  destruct (foldl_bytes_xor (xor_all w (before ++ c :: after)) before w Hlen Hb)
    as [-> _].
  destruct (foldl_bytes_xor
    (bytes_xor (xor_all w (before ++ c :: after)) (xor_all w before)) after w)
    as [-> _]; [rewrite length_bytes_xor; lia|done|].
  unfold xor_all at 1. rewrite foldl_app. simpl.
  fold (xor_all w before).
  destruct (foldl_bytes_xor (bytes_xor (xor_all w before) c) after w)
    as [-> _]; [rewrite length_bytes_xor; lia|done|].
  set (B := xor_all w before) in *. set (A := xor_all w after) in *.
  (* ((B ^ c) ^ A) ^ B ^ A = c *)
  rewrite (bytes_xor_assoc (bytes_xor B c) A B).
  rewrite (bytes_xor_comm A B).
  rewrite <- (bytes_xor_assoc (bytes_xor B c) B A).
  rewrite (bytes_xor_comm B c).
  rewrite (bytes_xor_assoc c B B), bytes_xor_nilpotent, Hlb, <- Hc.
  rewrite bytes_xor_zero_r.
  rewrite bytes_xor_assoc, bytes_xor_nilpotent, Hla, <- Hc.
  apply bytes_xor_zero_r.
Qed.


(** ** Loops *)

Lemma for_loop_inv {St : Type} (I : nat → St → Prop) (first count : nat)
    (body : nat → St → outcome St) (s : St) :
  I first s →
  (∀ i s, first ≤ i < first + count → I i s →
          ∃ s', body i s = Done s' ∧ I (S i) s') →
  ∃ s', for_loop first count body s = Done s' ∧ I (first + count) s'.
Proof.
  revert first s. induction count as [|count IH]; intros first s Hs Hstep.
  - exists s. by rewrite Nat.add_0_r.
  - destruct (Hstep first s) as (s' & Hb & Hs'); [lia|done|].
    destruct (IH (S first) s') as (s'' & Hl & Hs''); [done| |].
    { intros i t Hi. apply Hstep. lia. }
    exists s''. simpl. rewrite Hb. simpl. split; [done|].
    by replace (first + S count) with (S first + count) by lia.
Qed.

(** ** Arithmetic of rounds *)

Lemma chunk_end_le (R w r : nat) : r < R → r * w + w ≤ R * w.
Proof. nia. Qed.

Lemma chunk_apart (w r r' : nat) :
  r ≠ r' → r * w + w ≤ r' * w ∨ r' * w + w ≤ r * w.
Proof.
  intros Hne. destruct (decide (r < r')).
  - left. by apply chunk_end_le.
  - right. apply chunk_end_le. lia.
Qed.

Lemma flat_chunk_end_le (R n w r i : nat) :
  r < R → i < n → (r * n + i) * w + w ≤ R * n * w.
Proof.
  intros Hr Hi. assert (Hk : r * n + i + 1 ≤ R * n) by nia.
  apply (Nat.mul_le_mono_r _ _ w) in Hk. lia.
Qed.

Lemma rounds_spec (len n w : nat) :
  1 ≤ n → 1 ≤ w →
  let q := n * w in
  len = q * (len / q) + len mod q ∧ len mod q < q
  ∧ rounds len n w = len / q + (if decide (len mod q = 0) then 0 else 1).
Proof.
  intros Hn Hw q. assert (q ≠ 0) by nia. split_and!.
  - apply Nat.div_mod_eq.
  - by apply Nat.mod_upper_bound.
  - unfold rounds. fold q. destruct (Nat.eqb_spec (len mod q) 0).
    + by rewrite decide_True.
    + by rewrite decide_False.
Qed.

Lemma rounds_cover (len n w : nat) :
  1 ≤ n → 1 ≤ w → len ≤ rounds len n w * n * w.
Proof.
  intros Hn Hw. destruct (rounds_spec len n w Hn Hw) as (Hd & Hm & ->).
  case_decide; nia.
Qed.

Lemma full_round_chunk_le (len n w r i : nat) :
  1 ≤ n → 1 ≤ w → r < len / (n * w) → i < n →
  (r * n + i) * w + w ≤ len.
Proof.
  intros Hn Hw Hr Hi. destruct (rounds_spec len n w Hn Hw) as (Hd & Hm & _).
  pose proof (flat_chunk_end_le (len / (n * w)) n w r i Hr Hi). nia.
Qed.

Lemma round_vals_lookup (val : nat → list byte) (n r i : nat) :
  i < n → round_vals val n r !! i = Some (val (r * n + i)).
Proof.
  intros Hi. unfold round_vals. by rewrite list_lookup_fmap, lookup_seq_lt.
Qed.

Lemma length_round_vals (val : nat → list byte) (n r : nat) :
  length (round_vals val n r) = n.
Proof. unfold round_vals. by rewrite length_fmap, length_seq. Qed.

Lemma round_vals_Forall (val : nat → list byte) (n w R r : nat) :
  (∀ k, dec_ok n R k → length (val k) = w) → r < R →
  Forall (λ c, length c = w) (round_vals val n r).
Proof.
  intros Hval Hr. unfold round_vals. apply Forall_fmap, Forall_forall.
  intros i Hi%elem_of_seq. simpl. apply Hval. unfold dec_ok. nia.
Qed.

Lemma round_chunks_lookup (w n : nat) (d : list byte) (r i : nat) :
  i < n → round_chunks w n d r !! i = Some (chunk w d (r * n + i)).
Proof. apply round_vals_lookup. Qed.

Lemma length_round_chunks (w n : nat) (d : list byte) (r : nat) :
  length (round_chunks w n d r) = n.
Proof. apply length_round_vals. Qed.

Lemma round_chunks_Forall (w n : nat) (d : list byte) (R r : nat) :
  length d = R * n * w → r < R →
  Forall (λ c, length c = w) (round_chunks w n d r).
Proof.
  intros Hd Hr. apply (round_vals_Forall _ n w R); [|done].
  intros k Hk. apply length_chunk. rewrite Hd.
  by apply (chunk_end_le (R * n) w k).
Qed.


(** ** Layout *)

Lemma forallb_lookup {A : Type} (f : A → bool) (l : list A) (i : nat) (a : A) :
  forallb f l = true → l !! i = Some a → f a = true.
Proof.
  intros Hf Hi. rewrite forallb_forall in Hf. apply Hf.
  apply list_elem_of_In. by eapply list_elem_of_lookup_2.
Qed.

Lemma disjoint_sym (a : address) (la : nat) (b : address) (lb : nat) :
  disjoint a la b lb = disjoint b lb a la.
Proof. unfold disjoint. apply bool_decide_ext. lia. Qed.

Lemma disjoint_sub (a : address) (la : nat) (b : address) (lb : nat)
    (ka la' kb lb' : nat) :
  disjoint a la b lb = true → ka + la' ≤ la → kb + lb' ≤ lb →
  disjoint (addr_add a ka) la' (addr_add b kb) lb' = true.
Proof. unfold disjoint. rewrite !bool_decide_eq_true. simpl. lia. Qed.

Lemma disjoint_same_base (a : address) (w k k' : nat) :
  k + w ≤ k' ∨ k' + w ≤ k →
  disjoint (addr_add a k) w (addr_add a k') w = true.
Proof. unfold disjoint. rewrite bool_decide_eq_true. simpl. lia. Qed.

Lemma separated_lookup (len : nat) (addrs : list address) (i j : nat)
    (a b : address) :
  separated len addrs = true → i ≠ j →
  addrs !! i = Some a → addrs !! j = Some b →
  disjoint a len b len = true.
Proof.
  revert i j. induction addrs as [|c addrs IH]; intros i j Hsep Hij Hi Hj.
  - done.
  - simpl in Hsep. apply andb_prop in Hsep as [Hc Hsep].
    destruct i as [|i], j as [|j]; simpl in *.
    + done.
    + injection Hi as ->.
      by apply (forallb_lookup (λ b, disjoint a len b len) addrs j).
    + injection Hj as ->. rewrite disjoint_sym.
      by apply (forallb_lookup (λ a, disjoint b len a len) addrs i).
    + apply (IH i j); [done|congruence|done..].
Qed.

Lemma bind_Done {A B : Type} (k : A → outcome B) (a : A) :
  (Done a ≫= k) = k a.
Proof. done. Qed.

Lemma load_sub (m : memory) (a : address) (data : list byte) (k l : nat) :
  load m (Some a) (length data) = Done data → k + l ≤ length data →
  load m (Some (addr_add a k)) l = Done (take l (drop k data)).
Proof.
  intros (Hv & _ & Hb)%load_Done Hk. apply load_Done. split_and!.
  - eapply valid_range_le; [done|lia].
  - rewrite length_take, length_drop. lia.
  - intros j Hj. rewrite lookup_take_lt, lookup_drop by done.
    rewrite <- Hb by lia. f_equal. unfold addr_add; simpl. f_equal. lia.
Qed.

Lemma advanced_ext (slices : list pointer) (w : nat) (prog prog' : nat → nat)
    (sl : list pointer) :
  (∀ i, i < length slices → prog i = prog' i) →
  advanced slices w prog sl → advanced slices w prog' sl.
Proof.
  intros Hp [Hl Ha]. split; [done|]. intros i p Hi.
  rewrite <- Hp by (by eapply lookup_lt_Some). auto.
Qed.

Lemma advanced_init (slices : list pointer) (w : nat) :
  advanced slices w (λ _, 0) slices.
Proof.
  split; [done|]. intros i [[b o]|] Hi; simpl; [|done].
  by rewrite Nat.add_0_r.
Qed.

Lemma advanced_step (slices : list pointer) (w : nat) (prog : nat → nat)
    (sl : list pointer) (i : nat) (p : pointer) :
  advanced slices w prog sl → slices !! i = Some p →
  sl !! i = Some (ptr_add p (prog i * w))
  ∧ advanced slices w (λ i', if decide (i' = i) then prog i' + 1 else prog i')
      (<[i := ptr_add (ptr_add p (prog i * w)) w]> sl).
Proof.
  intros [Hl Ha] Hi. split; [auto|]. split; [by rewrite length_insert|].
  intros i' p' Hi'. case_decide as Hii.
  - subst i'. simplify_eq.
    rewrite list_lookup_insert_eq by (rewrite Hl; by eapply lookup_lt_Some).
    f_equal. destruct p as [[b o]|]; simpl; [|done]. do 2 f_equal. lia.
  - rewrite list_lookup_insert_ne by done. auto.
Qed.

Lemma ptr_add_addr (a : address) (x k y : nat) :
  x + k = y → ptr_add (Some (addr_add a x)) k = Some (addr_add a y).
Proof. intros <-. unfold ptr_add, addr_add; simpl. do 2 f_equal. lia. Qed.

Lemma addr_add_0 (a : address) : addr_add a 0 = a.
Proof. destruct a as [b o]. unfold addr_add; simpl. f_equal. lia. Qed.

Section Ida_properties.
Context {T : Type} {U : UIntT T}.

Lemma ida_properties_spec (a : address) (len n : nat) :
  1 ≤ n → 1 ≤ sizeof →
  (N.of_nat n * N.of_nat sizeof < 2 ^ 64)%N → (N.of_nat len < 2 ^ 64)%N →
  ida_properties (Some a) (Some (addr_add a len)) n
  = Done {| full_rounds := N.of_nat (len / (n * sizeof));
            partial_round := negb (len mod (n * sizeof) =? 0) |}.
Proof.
  intros Hn Hw Hfit Hlen. unfold ida_properties, distance; simpl.
  rewrite decide_True by done. rewrite bind_Done.
  replace (size_t_of_Z _) with (N.of_nat len).
  2:{ unfold size_t_of_Z. rewrite Z.mod_small by lia. lia. }
  unfold size_t_wrap. rewrite N.mod_small by done.
  rewrite <- Nat2N.inj_mul.
  rewrite decide_False by lia. do 2 f_equal.
  - by rewrite Nat2N.inj_div.
  - rewrite <- Nat2N.inj_mod. f_equal.
    destruct (Nat.eqb_spec (len mod (n * sizeof)) 0) as [->|Hne]; [done|].
    apply N.eqb_neq. lia.
Qed.

(** When the product n·sizeof(UIntT) wraps to zero the quotient is a
  division by zero. *)
Lemma ida_properties_round_size_zero (in_begin in_end : pointer) (n : nat)
  (d : Z) :
distance in_begin in_end = Done d →
size_t_wrap (N.of_nat n * N.of_nat sizeof) = 0%N →
ida_properties in_begin in_end n = Undefined DivisionByZero.
Proof.
intros Hd Hz. unfold ida_properties. rewrite Hd, bind_Done.
by rewrite decide_True.
Qed.
End Ida_properties.

Section Encode.
Context {T : Type} {U : UIntT T} {L : UIntTLaws T}.
Variables (n : nat) (m0 : memory) (ib : address).
Variables (data : list byte) (addrs : list address).

Local Abbreviation w := (@sizeof T U).
Local Abbreviation len := (length data).
Local Abbreviation R := (rounds (length data) n (@sizeof T U)).
Local Abbreviation D :=
  (padded data (rounds (length data) n (@sizeof T U) * n * (@sizeof T U))).
Local Abbreviation slices := (Some <$> addrs).

Hypothesis Hn : 1 ≤ n.
Hypothesis Hw : 1 ≤ w.
Hypothesis Hlayout : encode_layout (shape m0) ib len addrs n w = true.
Hypothesis Hdata : load m0 (Some ib) len = Done data.

Local Lemma layout_length : length addrs = n + 1.
Proof.
  unfold encode_layout in Hlayout. repeat (apply andb_prop in Hlayout as [Hlayout ?]).
  by apply bool_decide_eq_true in Hlayout.
Qed.

Local Lemma layout_valid (i : nat) (a : address) :
  addrs !! i = Some a → valid_range (shape m0) a (R * w) = true.
Proof.
  unfold encode_layout in Hlayout. repeat (apply andb_prop in Hlayout as [Hlayout ?]).
  intros. by eapply (forallb_lookup (λ a, valid_range _ a _)).
Qed.

Local Lemma layout_separated (i j : nat) (a b : address) :
  i ≠ j → addrs !! i = Some a → addrs !! j = Some b →
  disjoint a (R * w) b (R * w) = true.
Proof.
  unfold encode_layout in Hlayout. repeat (apply andb_prop in Hlayout as [Hlayout ?]).
  by apply separated_lookup.
Qed.

Local Lemma layout_input (i : nat) (a : address) :
  addrs !! i = Some a → disjoint ib len a (R * w) = true.
Proof.
  unfold encode_layout in Hlayout. repeat (apply andb_prop in Hlayout as [Hlayout ?]).
  intros. by eapply (forallb_lookup (λ a, disjoint _ _ a _)).
Qed.

Local Lemma addrs_total (i : nat) : i ≤ n → addrs !! i = Some (addrs !!! i).
Proof.
  intros Hi. apply list_lookup_lookup_total_lt. rewrite layout_length. lia.
Qed.

Local Lemma length_D : length D = R * n * w.
Proof. apply length_padded. by apply rounds_cover. Qed.

Local Lemma enc_val_length (s : nat * nat) :
  enc_ok n R s → length (enc_val w n D s) = w.
Proof.
  intros [Hi Hr]. unfold enc_val. case_decide.
  - apply length_chunk. rewrite length_D. by apply flat_chunk_end_le.
  - apply length_xor_all, (round_chunks_Forall w n D R); [apply length_D|done].
Qed.

Local Lemma enc_tgt_valid (s : nat * nat) :
  enc_ok n R s → valid_range (shape m0) (enc_tgt addrs w s) w = true.
Proof.
  intros [Hi Hr]. unfold enc_tgt.
  eapply valid_range_le; [by eapply layout_valid, addrs_total|].
  by apply chunk_end_le.
Qed.

Local Lemma enc_tgt_disjoint (s s' : nat * nat) :
  enc_ok n R s → enc_ok n R s' → s ≠ s' →
  disjoint (enc_tgt addrs w s) w (enc_tgt addrs w s') w = true.
Proof.
  destruct s as [i r], s' as [i' r']. intros [Hi Hr] [Hi' Hr'] Hne.
  unfold enc_tgt; simpl in *. destruct (decide (i = i')) as [->|Hii].
  - apply disjoint_same_base, chunk_apart. congruence.
  - eapply disjoint_sub.
    + eapply (layout_separated i i'); [done|by apply addrs_total..].
    + by apply chunk_end_le.
    + by apply chunk_end_le.
Qed.

Local Lemma enc_input_disjoint (s : nat * nat) (k l : nat) :
  enc_ok n R s → k + l ≤ len →
  disjoint (addr_add ib k) l (enc_tgt addrs w s) w = true.
Proof.
  intros [Hi Hr] Hk. unfold enc_tgt. eapply disjoint_sub; [|done|].
  - by eapply layout_input, addrs_total.
  - by apply chunk_end_le.
Qed.

Local Abbreviation W := (written (enc_ok n R) (enc_tgt addrs w) (enc_val w n D) w m0).

Local Lemma enc_done_ok (r i : nat) (s : nat * nat) :
  enc_done n R r i s → enc_ok n R s.
Proof. by intros [? _]. Qed.

Local Lemma enc_load_input (done : nat * nat → Prop) (m : memory) (k l : nat) :
  W done m → k + l ≤ len →
  load m (Some (addr_add ib k)) l = Done (take l (drop k data)).
Proof.
  intros Hm Hk.
  rewrite (written_load_frame (enc_ok n R) (enc_tgt addrs w) (enc_val w n D)
             w m0 done m (addr_add ib k) l Hm).
  - by apply load_sub.
  - intros s Hs. by apply enc_input_disjoint.
Qed.

Local Lemma enc_store (r i : nat) (m : memory) (sl : list pointer) (v : T) :
  r < R → i ≤ n →
  W (enc_done n R r i) m → advanced slices w (enc_prog r i) sl →
  to_bytes v = enc_val w n D (i, r) →
  ∃ m', index sl i = Done (Some (enc_tgt addrs w (i, r)))
      ∧ to_bytes_cast m v (Some (enc_tgt addrs w (i, r))) = Done m'
      ∧ W (enc_done n R r (S i)) m'
      ∧ advanced slices w (enc_prog r (S i))
          (<[i := ptr_add (Some (enc_tgt addrs w (i, r))) w]> sl).
Proof.
  intros Hr Hi Hm Hsl Hv.
  assert (Hai : slices !! i = Some (Some (addrs !!! i))).
  { by rewrite list_lookup_fmap, addrs_total. }
  destruct (advanced_step _ _ _ _ _ _ Hsl Hai) as [Hidx Hadv].
  assert (Hpi : enc_prog r i i = r).
  { unfold enc_prog. rewrite decide_False by lia. done. }
  rewrite Hpi in Hidx, Hadv.
  destruct (written_store (enc_ok n R) (enc_tgt addrs w) (enc_val w n D) w m0
              enc_val_length enc_tgt_valid enc_tgt_disjoint
              (enc_done n R r i) m (i, r)) as (m' & Hst & Hm');
    [done|by split|apply enc_done_ok|].
  exists m'. split_and!.
  - unfold index. by rewrite Hidx.
  - unfold to_bytes_cast. by rewrite Hv.
  - eapply written_weaken; [|done]. intros [i' r'] [Hok Hlt].
    unfold enc_done, enc_prog in *; simpl in *.
    destruct (decide (i' = i)) as [->|Hne].
    + rewrite decide_True in Hlt by lia. rewrite decide_False by lia.
      destruct (decide (r' = r)) as [->|]; [by left|right]. split; [done|lia].
    + right. split; [done|]. repeat case_decide; lia.
  - eapply advanced_ext; [|exact Hadv]. intros i' _. simpl.
    unfold enc_prog. repeat case_decide; lia.
Qed.

Local Lemma enc_parity_step (r i : nat) (par v : T) :
  i < n →
  to_bytes par = xor_all w (take i (round_chunks w n D r)) →
  to_bytes v = chunk w D (r * n + i) →
  to_bytes (xor par v) = xor_all w (take (S i) (round_chunks w n D r)).
Proof.
  intros Hi Hpar Hv.
  rewrite (take_S_r _ _ _ (round_chunks_lookup w n D r i Hi)), xor_all_snoc.
  by rewrite to_bytes_xor, Hpar, Hv.
Qed.

Local Lemma chunk_of_input (k : nat) :
  k * w + w ≤ len → take w (drop (k * w) data) = chunk w D k.
Proof.
  intros Hk. unfold chunk, padded.
  rewrite drop_app_le by lia. rewrite take_app_le; [done|].
  rewrite length_drop. lia.
Qed.

(** The state of the inner loop before slice [i] of round [r]. *)
Local Abbreviation enc_inner r i st :=
  (∃ m par sl, st = (m, Some (addr_add ib (((r * n + i) * w) `min` len)), par, sl)
    ∧ W (enc_done n R r i) m
    ∧ advanced slices w (enc_prog r i) sl
    ∧ to_bytes par = xor_all w (take i (round_chunks w n D r))).

Local Lemma enc_full_chunk (r i : nat) (st : encode_state) :
  r < len / (n * w) → i < n → enc_inner r i st →
  ∃ st', encode_full_chunk i st = Done st' ∧ enc_inner r (S i) st'.
Proof.
  intros Hr Hi (m & par & sl & -> & Hm & Hsl & Hpar).
  pose proof (full_round_chunk_le len n w r i Hn Hw Hr Hi) as Hk.
  assert (HrR : r < R).
  { destruct (rounds_spec len n w Hn Hw) as (_ & _ & ->). lia. }
  rewrite Nat.min_l by lia.
  unfold encode_full_chunk, from_bytes_cast.
  rewrite (enc_load_input _ _ _ _ Hm) by lia. rewrite !bind_Done.
  set (v := from_bytes (take w (drop ((r * n + i) * w) data))).
  assert (Hv : to_bytes v = chunk w D (r * n + i)).
  { unfold v. rewrite to_from_bytes; [by apply chunk_of_input|].
    rewrite length_take, length_drop. lia. }
  destruct (enc_store r i m sl v) as (m' & Hidx & Hst & Hm' & Hsl');
    [done|lia|done|done| |].
  { unfold enc_val; simpl. by rewrite decide_True. }
  rewrite Hidx, bind_Done, Hst, bind_Done.
  rewrite (ptr_add_addr ib _ w (((r * n + S i) * w) `min` len)) by lia.
  eexists. split; [done|].
  eexists _, _, _. split_and!; [done..|by apply enc_parity_step].
Qed.

Hypothesis Hlen : (N.of_nat len < 2 ^ 64)%N.

Local Lemma enc_partial_chunk (r i : nat) (st : encode_state) :
  r < R → i < n → enc_inner r i st →
  ∃ st', encode_partial_chunk (Some (addr_add ib len)) i st = Done st'
         ∧ enc_inner r (S i) st'.
Proof.
  intros Hr Hi (m & par & sl & -> & Hm & Hsl & Hpar).
  pose proof (flat_chunk_end_le R n w r i Hr Hi) as Hk.
  set (pos := ((r * n + i) * w) `min` len).
  unfold encode_partial_chunk, distance; simpl blk.
  rewrite decide_True by done. rewrite bind_Done.
  set (size := N.to_nat (N.min _ _)).
  assert (Hsize : size = (len - pos) `min` w).
  { unfold size, size_t_of_Z; simpl off.
    rewrite Z.mod_small by lia. lia. }
  clearbody size. subst size.
  unfold from_bytes_cast_padded.
  rewrite (enc_load_input _ _ _ _ Hm) by lia. rewrite bind_Done.
  rewrite decide_True by lia. rewrite bind_Done.
  set (v := from_bytes _).
  assert (Hv : to_bytes v = chunk w D (r * n + i)).
  { unfold v. rewrite to_from_bytes.
    - by apply padded_read.
    - by rewrite length_inserts, length_replicate. }
  destruct (enc_store r i m sl v) as (m' & Hidx & Hst & Hm' & Hsl');
    [done|lia|done|done| |].
  { unfold enc_val; simpl. by rewrite decide_True. }
  rewrite Hidx, bind_Done, Hst, bind_Done.
  rewrite (ptr_add_addr ib pos _ (((r * n + S i) * w) `min` len))
    by (unfold pos; lia).
  eexists. split; [done|].
  eexists _, _, _. split_and!; [done..|by apply enc_parity_step].
Qed.

(** The state of the outer loop before round [r]. *)
Local Abbreviation enc_outer r st :=
  (∃ m sl, st = (m, Some (addr_add ib ((r * n * w) `min` len)), sl)
    ∧ W (enc_done n R r 0) m
    ∧ advanced slices w (enc_prog r 0) sl).

Local Lemma enc_round
    (body : nat → encode_state → outcome encode_state) (r : nat)
    (st : memory * pointer * list pointer) :
  r < R →
  (∀ i st, i < n → enc_inner r i st →
           ∃ st', body i st = Done st' ∧ enc_inner r (S i) st') →
  enc_outer r st →
  ∃ st', encode_round body n st = Done st' ∧ enc_outer (S r) st'.
Proof.
  intros Hr Hbody (m & sl & -> & Hm & Hsl).
  destruct (for_loop_inv (λ i st, enc_inner r i st) 0 n body
              (m, Some (addr_add ib ((r * n * w) `min` len)), zero, sl))
    as (st' & Hloop & (m1 & par & sl1 & -> & Hm1 & Hsl1 & Hpar)).
  { eexists _, _, _. split_and!; [|done|done|].
    - by rewrite Nat.add_0_r.
    - simpl. apply to_bytes_zero. }
  { intros i st [_ Hi]. by apply Hbody. }
  unfold encode_round, encode_state in *. cbv beta iota zeta.
  rewrite Hloop, bind_Done. simpl in Hm1, Hsl1, Hpar.
  destruct (enc_store r n m1 sl1 par) as (m2 & Hidx & Hst & Hm2 & Hsl2);
    [done..| |].
  { unfold enc_val; simpl. rewrite decide_False by lia.
    rewrite Hpar, take_ge; [done|].
    by rewrite length_round_chunks. }
  rewrite Hidx, bind_Done, Hst, bind_Done. eexists. split; [done|].
  eexists _, _. split_and!.
  - do 4 f_equal. lia.
  - eapply written_weaken; [|done]. intros [i' r'] [Hok Hlt].
    split; [done|]. destruct Hok as [Hi' _].
    unfold enc_prog in *; simpl in *. repeat case_decide; lia.
  - eapply advanced_ext; [|done]. intros i'.
    rewrite length_fmap, layout_length. intros Hi'. unfold enc_prog.
    repeat case_decide; lia.
Qed.

Hypothesis Hfit : (N.of_nat n * N.of_nat w < 2 ^ 64)%N.

(** [encode_1] terminates without undefined behaviour; every slot
    holds its chunk, memory outside the slices is untouched and every
    slice pointer has moved past the chunks written. *)
Lemma encode_1_spec :
  ∃ m1,
    encode_1 m0 (Some ib) (Some (addr_add ib len)) slices n
    = Done ({| full_rounds := N.of_nat (len / (n * w));
               partial_round := negb (len mod (n * w) =? 0) |},
            m1, (λ a, Some (addr_add a (R * w))) <$> addrs)
    ∧ W (enc_ok n R) m1.
Proof.
  unfold encode_1. rewrite ida_properties_spec by done.
  rewrite bind_Done. cbn [full_rounds partial_round]. rewrite Nat2N.id.
  destruct (rounds_spec len n w Hn Hw) as (Hdiv & Hmod & HR).
  destruct (for_loop_inv (λ r st, enc_outer r st) 0 (len / (n * w))
              (λ _, encode_round encode_full_chunk n) (m0, Some ib, slices))
    as (st' & Hloop & Hst').
  { eexists _, _. split_and!.
    - replace ((0 * n * w) `min` len) with 0 by lia.
      by rewrite addr_add_0.
    - eapply written_weaken; [|apply written_init].
      intros s [_ Hlt]. unfold enc_prog in Hlt.
      rewrite decide_False in Hlt by lia. lia.
    - eapply advanced_ext; [|apply advanced_init]. intros i _.
      unfold enc_prog. by rewrite decide_False by lia. }
  { intros r st [_ Hr] Hst. simpl in Hr. apply enc_round; [|intros; by apply enc_full_chunk|done].
    rewrite HR. lia. }
  rewrite Hloop, bind_Done. rewrite Nat.add_0_l in Hst'.
  assert (Hfinal : ∀ st, enc_outer R st →
    ∃ m1 in_begin, st = (m1, in_begin, (λ a, Some (addr_add a (R * w))) <$> addrs)
                   ∧ W (enc_ok n R) m1).
  { intros st (m1 & sl1 & -> & Hm1 & [Hl1 Hsl1]). eexists _, _.
    split; [f_equal|].
    - apply list_eq. intros i. rewrite list_lookup_fmap.
      destruct (addrs !! i) as [a|] eqn:Ha; simpl.
      + rewrite (Hsl1 i (Some a)) by (by rewrite list_lookup_fmap, Ha).
        unfold enc_prog. by rewrite decide_False by lia.
      + apply lookup_ge_None. rewrite Hl1, length_fmap.
        by apply lookup_ge_None.
    - eapply written_weaken; [|done]. intros s Hs. split; [done|].
      unfold enc_prog. rewrite decide_False by lia. apply Hs. }
  destruct (Nat.eqb_spec (len mod (n * w)) 0) as [Hz|Hnz]; cbn [negb].
  - rewrite decide_True in HR by done. rewrite Nat.add_0_r in HR.
    rewrite <- HR in Hst'.
    destruct (Hfinal _ Hst') as (m1 & in_begin & -> & Hm1).
    exists m1. done.
  - rewrite decide_False in HR by done.
    destruct (enc_round (encode_partial_chunk (Some (addr_add ib len)))
                (len / (n * w)) st') as (st'' & Hlast & Hst'');
      [rewrite HR; lia|intros; apply enc_partial_chunk; [rewrite HR; lia|done..]|done|].
    destruct Hst' as (m' & sl' & -> & _). rewrite Hlast, bind_Done.
    replace (S (len / (n * w))) with R in Hst'' by (rewrite HR; lia).
    destruct (Hfinal _ Hst'') as (m1 & in_begin & -> & Hm1).
    exists m1. done.
Qed.

Lemma encode_slot_load (m1 : memory) (i r : nat) (a : address) :
  W (enc_ok n R) m1 → i ≤ n → r < R → addrs !! i = Some a →
  load m1 (Some (addr_add a (r * w))) w = Done (enc_val w n D (i, r)).
Proof.
  intros Hm Hi Hr Ha.
  pose proof (written_load (enc_ok n R) (enc_tgt addrs w) (enc_val w n D) w m0
                enc_val_length enc_tgt_valid (enc_ok n R) m1 (i, r) Hm) as Hl.
  unfold enc_tgt in Hl; simpl in Hl.
  rewrite (list_lookup_total_correct _ _ _ Ha) in Hl. by apply Hl.
Qed.

Lemma encode_frame (m1 : memory) (c : address) :
  W (enc_ok n R) m1 →
  (∀ i a, addrs !! i = Some a → ¬ in_range a (R * w) c) →
  byte_at m1 c = byte_at m0 c.
Proof.
  intros (_ & _ & Hfr) Hc. apply Hfr. intros [i r] [Hi Hr] Hin.
  simpl in *. apply (Hc i (addrs !!! i)); [by apply addrs_total|].
  pose proof (chunk_end_le R w r Hr).
  unfold in_range, enc_tgt in *; simpl in *. lia.
Qed.
End Encode.

Lemma num_chunks_rounds (len n w : nat) :
  1 ≤ n → 1 ≤ w → fits_size_t len →
  num_chunks {| full_rounds := N.of_nat (len / (n * w));
                partial_round := negb (len mod (n * w) =? 0) |}
  = N.of_nat (rounds len n w).
Proof.
  intros Hn Hw Hlen. unfold num_chunks, size_t_wrap, rounds, fits_size_t in *.
  cbn [full_rounds partial_round].
  destruct (rounds_spec len n w Hn Hw) as (Hd & Hm & _).
  assert (Hq : len / (n * w) ≤ len) by (apply Nat.Div0.div_le_upper_bound; nia).
  destruct (Nat.eqb_spec (len mod (n * w)) 0) as [Hz|Hnz]; cbn [negb].
  - rewrite N.mod_small by lia. lia.
  - assert (len / (n * w) < len).
    { destruct (decide (len / (n * w) = 0)) as [->|]; [lia|]. nia. }
    rewrite N.mod_small by lia. lia.
Qed.


(** ** Decoding *)

Lemma addr_add_add (a : address) (x y : nat) :
  addr_add (addr_add a x) y = addr_add a (x + y).
Proof. unfold addr_add; simpl. f_equal. lia. Qed.

Lemma find_null_present (sls : list pointer) (i count : nat) :
  (∀ j, i ≤ j < i + count → ∃ a, sls !! j = Some (Some a)) →
  find_null sls i count = Done (i + count).
Proof.
  revert i. induction count as [|count IH]; intros i Hp; simpl.
  - by rewrite Nat.add_0_r.
  - destruct (Hp i) as [a Ha]; [lia|]. unfold index. rewrite Ha, bind_Done.
    rewrite IH; [f_equal; lia|]. intros j Hj. apply Hp. lia.
Qed.

Lemma find_null_missing (sls : list pointer) (i count mi : nat) :
  i ≤ mi < i + count → sls !! mi = Some None →
  (∀ j, i ≤ j < mi → ∃ a, sls !! j = Some (Some a)) →
  find_null sls i count = Done mi.
Proof.
  revert i. induction count as [|count IH]; intros i Hmi Hnone Hp; [lia|].
  simpl. unfold index. destruct (decide (i = mi)) as [->|Hne].
  - by rewrite Hnone, bind_Done.
  - destruct (Hp i) as [a Ha]; [lia|]. rewrite Ha, bind_Done.
    apply IH; [lia|done|]. intros j Hj. apply Hp. lia.
Qed.

Lemma advanced_ext_present (slices : list pointer) (w : nat)
    (prog prog' : nat → nat) (sl : list pointer) :
  (∀ i a, slices !! i = Some (Some a) → prog i = prog' i) →
  advanced slices w prog sl → advanced slices w prog' sl.
Proof.
  intros Hp [Hl Ha]. split; [done|]. intros i [a|] Hi.
  - rewrite <- (Hp i a) by done. auto.
  - by rewrite (Ha i None Hi).
Qed.

Section Decode.
Context {T : Type} {U : UIntT T} {L : UIntTLaws T}.
Variables (n R : nat) (m1 : memory) (sls : list pointer) (out : address).
Variable val : nat → list byte.

Local Abbreviation w := (@sizeof T U).

Hypothesis Hlength : length sls = n + 1.
Hypothesis Hval : ∀ k, dec_ok n R k → length (val k) = w.
Hypothesis Hout : valid_range (shape m1) out (R * n * w) = true.
Hypothesis Hdisj : ∀ i a,
  i < n → sls !! i = Some (Some a) →
  disjoint a (R * w) out (R * n * w) = true.
Hypothesis Hread : ∀ i a r,
  i < n → sls !! i = Some (Some a) → r < R →
  load m1 (Some (addr_add a (r * w))) w = Done (val (r * n + i)).

Local Abbreviation W := (written (dec_ok n R) (dec_tgt out w) val w m1).

Local Lemma dec_ok_end (k : nat) : dec_ok n R k → k * w + w ≤ R * n * w.
Proof. unfold dec_ok. intros Hk. apply (chunk_end_le (R * n) w k Hk). Qed.

Local Lemma dec_tgt_valid (k : nat) :
  dec_ok n R k → valid_range (shape m1) (dec_tgt out w k) w = true.
Proof. intros Hk. eapply valid_range_le; [done|]. by apply dec_ok_end. Qed.

Local Lemma dec_tgt_disjoint (k k' : nat) :
  dec_ok n R k → dec_ok n R k' → k ≠ k' →
  disjoint (dec_tgt out w k) w (dec_tgt out w k') w = true.
Proof. intros _ _ Hne. by apply disjoint_same_base, chunk_apart. Qed.

Local Lemma dec_ok_flat (r i : nat) : r < R → i < n → dec_ok n R (r * n + i).
Proof. unfold dec_ok. nia. Qed.

(** Reading chunk [r] of a present slice during decoding. *)
Local Lemma dec_load (done : nat → Prop) (m : memory) (r : nat)
    (a : address) (bs : list byte) :
  W done m → disjoint a (R * w) out (R * n * w) = true → r < R →
  load m1 (Some (addr_add a (r * w))) w = Done bs →
  load m (Some (addr_add a (r * w))) w = Done bs.
Proof.
  intros Hm Ha Hr <-.
  apply (written_load_frame (dec_ok n R) (dec_tgt out w) val w m1 done).
  - done.
  - intros k Hk. unfold dec_tgt. eapply disjoint_sub; [done| |].
    + by apply chunk_end_le.
    + by apply dec_ok_end.
Qed.

(** Serving slice [i] in round [r]: the slice pointer, the chunk read
    and the effect of writing it to the output. *)
Local Lemma dec_chunk (r i : nat) (a : address) (hole : option nat)
    (prog : nat → nat) (m : memory) (sl : list pointer) :
  r < R → i < n → sls !! i = Some (Some a) → prog i = r →
  hole ≠ Some (r * n + i) →
  W (dec_done (r * n + i) hole) m → advanced sls w prog sl →
  index sl i = Done (Some (addr_add a (r * w)))
  ∧ load m (Some (addr_add a (r * w))) w = Done (val (r * n + i))
  ∧ ∃ m', store m (Some (addr_add out ((r * n + i) * w)))
            (val (r * n + i)) = Done m'
        ∧ W (dec_done (r * n + S i) hole) m'
        ∧ advanced sls w (λ i', if decide (i' = i) then prog i' + 1 else prog i')
            (<[i := ptr_add (Some (addr_add a (r * w))) w]> sl).
Proof.
  intros Hr Hi Ha Hp Hhole Hm Hsl.
  destruct (advanced_step _ _ _ _ _ _ Hsl Ha) as [Hidx Hadv].
  rewrite Hp in Hidx, Hadv. split_and!.
  - unfold index. by rewrite Hidx.
  - eapply dec_load; eauto.
  - destruct (written_store (dec_ok n R) (dec_tgt out w) val w m1
                Hval dec_tgt_valid dec_tgt_disjoint
                (dec_done (r * n + i) hole) m (r * n + i))
      as (m' & Hst & Hm'); [done|by apply dec_ok_flat| |].
    { intros k [Hk _]. pose proof (dec_ok_flat r i Hr Hi).
      unfold dec_ok in *. lia. }
    exists m'. split_and!; [done| |done].
    eapply written_weaken; [|done]. intros k [Hk Hh]. unfold dec_done.
    destruct (decide (k = r * n + i)); [by left|right]. split; [lia|done].
Qed.

(** Once every slot is written the output holds the chunks in order. *)
Local Lemma dec_output (m : memory) (d : list byte) :
  length d = R * n * w → (∀ k, dec_ok n R k → val k = chunk w d k) →
  W (dec_done (R * n) None) m → load m (Some out) (R * n * w) = Done d.
Proof.
  intros Hd Hchunk (Hsh & Hw & _).
  apply load_Done. rewrite Hsh. split_and!; [done..|].
  intros j Hj.
  destruct (decide (w = 0)) as [Hw0|Hw0]; [rewrite Hw0 in Hj; lia|].
  pose proof (Nat.div_mod_eq j w) as Hdm.
  pose proof (Nat.mod_upper_bound j w Hw0) as Hlt.
  assert (Hk : j `div` w < R * n).
  { apply Nat.Div0.div_lt_upper_bound. lia. }
  specialize (Hw (j `div` w) (j `mod` w)). unfold dec_tgt in Hw.
  rewrite Hchunk in Hw by done.
  rewrite addr_add_add, lookup_chunk in Hw by done.
  replace (j `div` w * w + j `mod` w) with j in Hw by lia.
  apply Hw; [|done]. by split.
Qed.

Local Lemma dec_frame (done : nat → Prop) (m : memory) (c : address) :
  W done m → ¬ in_range out (R * n * w) c → byte_at m c = byte_at m1 c.
Proof.
  intros (_ & _ & Hfr) Hc. apply Hfr. intros k Hk%dec_ok_end Hin.
  apply Hc. unfold in_range, dec_tgt in *. simpl in *. lia.
Qed.

Local Lemma dec_init : W (dec_done 0 None) m1.
Proof.
  eapply written_weaken; [|apply written_init]. intros k [Hk _]. lia.
Qed.

Section Copy.
Hypothesis Hpresent : ∀ i, i < n → ∃ a, sls !! i = Some (Some a).

Local Abbreviation copy_inner r i st :=
  (∃ m sl, st = (m, sl, Some (addr_add out ((r * n + i) * w)))
    ∧ W (dec_done (r * n + i) None) m
    ∧ advanced sls w (copy_prog n r i) sl).

Local Lemma dec_copy_chunk (r i : nat) (st : decode_state) :
  r < R → i < n → copy_inner r i st →
  ∃ st', decode_copy_chunk i st = Done st' ∧ copy_inner r (S i) st'.
Proof.
  intros Hr Hi (m & sl & -> & Hm & Hsl).
  destruct (Hpresent i Hi) as [a Ha].
  destruct (dec_chunk r i a None (copy_prog n r i) m sl Hr Hi Ha) as
    (Hidx & Hld & m' & Hst & Hm' & Hsl'); [|done..|].
  { unfold copy_prog, enc_prog. repeat case_decide; lia. }
  unfold decode_copy_chunk.
  rewrite Hidx, bind_Done, Hld, bind_Done, Hst, bind_Done.
  rewrite (ptr_add_addr out _ w ((r * n + S i) * w)) by lia.
  eexists. split; [done|]. eexists _, _. split_and!; [done..|].
  eapply advanced_ext; [|done]. intros i' _. simpl.
  unfold copy_prog, enc_prog. repeat case_decide; lia.
Qed.

Local Lemma dec_copy_round (r : nat) (st : decode_state) :
  r < R → copy_inner r 0 st →
  ∃ st', for_loop 0 n decode_copy_chunk st = Done st'
         ∧ copy_inner (S r) 0 st'.
Proof.
  intros Hr Hst.
  destruct (for_loop_inv (λ i st, copy_inner r i st) 0 n
              decode_copy_chunk st) as (st' & Hloop & Hst'); [done| |].
  { intros i s [_ Hi]. by apply dec_copy_chunk. }
  exists st'. split; [done|].
  destruct Hst' as (m & sl & -> & Hm & Hsl). rewrite Nat.add_0_l in *.
  eexists _, _. split_and!.
  - do 4 f_equal. lia.
  - by replace (S r * n + 0) with (r * n + n) by lia.
  - eapply advanced_ext; [|done]. intros i' _.
    unfold copy_prog, enc_prog. repeat case_decide; lia.
Qed.

Local Lemma dec_copy_rounds :
  ∃ m2 sl2,
    for_loop 0 R (λ _, for_loop 0 n decode_copy_chunk) (m1, sls, Some out)
    = Done (m2, sl2, Some (addr_add out (R * n * w)))
    ∧ W (dec_done (R * n) None) m2
    ∧ advanced sls w (λ i, if decide (i < n) then R else 0) sl2.
Proof.
  destruct (for_loop_inv (λ r st, copy_inner r 0 st) 0 R
              (λ _, for_loop 0 n decode_copy_chunk) (m1, sls, Some out))
    as (st' & Hloop & (m2 & sl2 & -> & Hm2 & Hsl2)).
  { eexists _, _. split_and!.
    - by rewrite addr_add_0.
    - apply dec_init.
    - eapply advanced_ext; [|apply advanced_init]. intros i _.
      unfold copy_prog, enc_prog. repeat case_decide; lia. }
  { intros r st [_ Hr]. by apply dec_copy_round. }
  rewrite Nat.add_0_l, Nat.add_0_r in *.
  exists m2, sl2. split_and!; [done..|].
  eapply advanced_ext; [|done]. intros i _.
  unfold copy_prog, enc_prog. repeat case_decide; lia.
Qed.

Hypothesis Hfit : (N.of_nat n + 1 < 2 ^ 64)%N.

Lemma decode_copy_spec :
  ∃ m2 sl2,
    decode m1 sls n (Some out) R
    = Done (m2, sl2, Some (addr_add out (R * n * w)))
    ∧ W (dec_done (R * n) None) m2
    ∧ advanced sls w (λ i, if decide (i < n) then R else 0) sl2.
Proof.
  unfold decode, size_t_wrap. rewrite N.mod_small by done.
  replace (N.to_nat (N.of_nat n + 1)) with (n + 1) by lia.
  assert (∃ k, find_null sls 0 (n + 1) = Done k ∧ n ≤ k) as (k & -> & Hk).
  { destruct (lookup_lt_is_Some_2 sls n) as [[an|] Hn]; [lia| |].
    - exists (0 + (n + 1)). split; [|lia]. apply find_null_present.
      intros j Hj. destruct (decide (j = n)) as [->|]; [by eauto|].
      apply Hpresent. lia.
    - exists n. split; [|done]. apply find_null_missing; [lia|done|].
      intros j Hj. apply Hpresent. lia. }
  rewrite bind_Done, decide_True by done. apply dec_copy_rounds.
Qed.
End Copy.

Section Recover.
Variable mi : nat.
Hypothesis Hmi : mi < n.
Hypothesis Hmissing : sls !! mi = Some None.
Hypothesis Hothers : ∀ i, i ≤ n → i ≠ mi → ∃ a, sls !! i = Some (Some a).
Hypothesis Hdisj_parity : ∀ a,
  sls !! n = Some (Some a) → disjoint a (R * w) out (R * n * w) = true.
Hypothesis Hparity : ∀ a r,
  sls !! n = Some (Some a) → r < R →
  load m1 (Some (addr_add a (r * w))) w
  = Done (xor_all w (round_vals val n r)).

Local Abbreviation rec_inner r hole seen i st :=
  (∃ m sl v, st = (m, sl, Some (addr_add out ((r * n + i) * w)), v)
    ∧ W (dec_done (r * n + i) hole) m
    ∧ advanced sls w (recover_prog n r i) sl
    ∧ to_bytes v
      = foldl bytes_xor (xor_all w (round_vals val n r)) seen).

Local Lemma dec_recover_chunk (r i : nat) (hole : option nat)
    (seen : list (list byte)) (st : decode_state * T) :
  r < R → i < n → i ≠ mi → hole ≠ Some (r * n + i) →
  rec_inner r hole seen i st →
  ∃ st', decode_recover_chunk i st = Done st'
         ∧ rec_inner r hole (seen ++ [val (r * n + i)]) (S i) st'.
Proof.
  intros Hr Hi Hne Hhole (m & sl & v & -> & Hm & Hsl & Hv).
  destruct (Hothers i) as [a Ha]; [lia|done|].
  destruct (dec_chunk r i a hole (recover_prog n r i) m sl Hr Hi Ha) as
    (Hidx & Hld & m' & Hst & Hm' & Hsl'); [|done..|].
  { unfold recover_prog, enc_prog. repeat case_decide; lia. }
  unfold decode_recover_chunk, from_bytes_cast, to_bytes_cast.
  rewrite Hidx, bind_Done, Hld, !bind_Done.
  rewrite to_from_bytes by (apply Hval; by apply dec_ok_flat).
  rewrite Hst, bind_Done.
  rewrite (ptr_add_addr out _ w ((r * n + S i) * w)) by lia.
  eexists. split; [done|]. eexists _, _, _. split_and!; [done..| |].
  - eapply advanced_ext; [|done]. intros i' _. simpl.
    unfold recover_prog, enc_prog. repeat case_decide; lia.
  - rewrite to_bytes_xor, Hv, foldl_app. simpl.
    rewrite to_from_bytes; [done|].
    apply Hval. by apply dec_ok_flat.
Qed.

Local Abbreviation rec_outer r st :=
  (∃ m sl, st = (m, sl, Some (addr_add out (r * n * w)))
    ∧ W (dec_done (r * n) None) m
    ∧ advanced sls w (λ _, r%nat) sl).

Local Lemma dec_recover_round (r : nat) (st : decode_state) :
  r < R → rec_outer r st →
  ∃ st', decode_recover_round n mi st = Done st' ∧ rec_outer (S r) st'.
Proof.
  intros Hr (m & sl & -> & Hm & Hsl).
  set (cs := round_vals val n r).
  pose proof (round_vals_Forall val n w R r Hval Hr) as Hcs. fold cs in Hcs.
  pose proof (length_round_vals val n r) as Hlcs. fold cs in Hlcs.
  destruct (Hothers n) as [an Han]; [lia..|].
  destruct (advanced_step _ _ _ _ _ _ Hsl Han) as [Hidx Hadv].
  change (ptr_add (Some an) (r * w)) with (Some (addr_add an (r * w))) in *.
  unfold decode_recover_round, from_bytes_cast, index.
  rewrite Hidx, bind_Done.
  rewrite (dec_load _ m r an _ Hm (Hdisj_parity an Han) Hr
             (Hparity an r Han Hr)).
  rewrite !bind_Done. fold cs.
  (* the chunks of the slices before the missing one *)
  destruct (for_loop_inv (λ i st, rec_inner r None (take i cs) i st) 0 mi
              decode_recover_chunk
              (m, <[n:=ptr_add (Some (addr_add an (r * w))) w]> sl,
               Some (addr_add out (r * n * w)), from_bytes (xor_all w cs)))
    as (st1 & Hloop1 & (m2 & sl2 & v2 & -> & Hm2 & Hsl2 & Hv2)).
  { eexists _, _, _. split_and!.
    - by rewrite Nat.add_0_r.
    - by rewrite Nat.add_0_r.
    - eapply advanced_ext; [|done]. intros i' Hi'. rewrite Hlength in Hi'.
      unfold recover_prog, enc_prog. repeat case_decide; lia.
    - simpl. rewrite to_from_bytes; [done|]. by apply length_xor_all. }
  { intros i st [_ Hi] Hst. simpl in Hi.
    destruct (dec_recover_chunk r i None (take i cs) st) as (st' & Hb & Hst');
      [done|lia|lia|done|done|].
    exists st'. split; [done|].
    by rewrite (take_S_r cs i _ (round_vals_lookup val n r i ltac:(lia))). }
  unfold decode_state in *. rewrite Hloop1, bind_Done.
  cbv beta iota zeta. rewrite Nat.add_0_l in *.
  (* the chunks of the slices after the missing one *)
  destruct (for_loop_inv
              (λ i st, rec_inner r (Some (r * n + mi))
                         (take mi cs ++ take (i - S mi) (drop (S mi) cs)) i st)
              (mi + 1) (n - (mi + 1)) decode_recover_chunk
              (m2, sl2, ptr_add (Some (addr_add out ((r * n + mi) * w))) w, v2))
    as (st2 & Hloop2 & (m3 & sl3 & v3 & -> & Hm3 & Hsl3 & Hv3)).
  { eexists _, _, _. split_and!.
    - rewrite (ptr_add_addr out _ w ((r * n + (mi + 1)) * w)) by lia. done.
    - eapply written_weaken; [|done]. intros k [Hk Hh]. split; [|done].
      assert (k ≠ r * n + mi) by congruence. lia.
    - eapply advanced_ext_present; [|done]. intros i' a' Hi'.
      assert (i' ≠ mi) by congruence.
      unfold recover_prog, enc_prog. repeat case_decide; lia.
    - replace (mi + 1 - S mi) with 0 by lia. simpl. by rewrite app_nil_r. }
  { intros i st Hi Hst.
    destruct (dec_recover_chunk r i (Some (r * n + mi))
                (take mi cs ++ take (i - S mi) (drop (S mi) cs)) st)
      as (st' & Hb & Hst'); [done|lia|lia| |done|].
    { intros [=]. lia. }
    exists st'. split; [done|].
    replace (S i - S mi) with (S (i - S mi)) by lia.
    rewrite (take_S_r (drop (S mi) cs) (i - S mi) (val (r * n + i))).
    - by rewrite app_assoc.
    - rewrite lookup_drop. replace (S mi + (i - S mi)) with i by lia.
      apply round_vals_lookup. lia. }
  rewrite Hloop2, bind_Done. cbv beta iota zeta.
  replace (mi + 1 + (n - (mi + 1))) with n in * by lia.
  (* the recovered chunk *)
  assert (Hrec : to_bytes v3 = val (r * n + mi)).
  { rewrite Hv3, foldl_app.
    rewrite (take_ge (drop (S mi) cs)) by (rewrite length_drop; lia).
    pose proof (round_vals_lookup val n r mi Hmi) as Hc. fold cs in Hc.
    pose proof (Forall_take _ mi _ Hcs) as Hbefore.
    pose proof (Forall_drop _ (S mi) _ Hcs) as Hafter.
    apply take_drop_middle in Hc. fold cs. revert Hc Hbefore Hafter.
    generalize (take mi cs) (drop (S mi) cs). intros before after <- ? ?.
    apply xor_all_recover; [|done..].
    apply Hval. by apply dec_ok_flat. }
  destruct (written_store (dec_ok n R) (dec_tgt out w) val w m1
              Hval dec_tgt_valid dec_tgt_disjoint
              (dec_done (r * n + n) (Some (r * n + mi))) m3 (r * n + mi))
    as (m4 & Hst & Hm4); [done|by apply dec_ok_flat| |].
  { intros k [Hk _]. unfold dec_ok. nia. }
  unfold to_bytes_cast. rewrite Hrec. unfold dec_tgt in Hst.
  rewrite Hst, bind_Done. eexists. split; [done|].
  eexists _, _. split_and!.
  - do 4 f_equal. lia.
  - eapply written_weaken; [|done]. intros k [Hk _].
    destruct (decide (k = r * n + mi)); [by left|right].
    split; [lia|congruence].
  - eapply advanced_ext; [|done]. intros i' Hi'. rewrite Hlength in Hi'.
    unfold recover_prog, enc_prog. repeat case_decide; lia.
Qed.

Local Lemma dec_recover_rounds :
  ∃ m2 sl2,
    for_loop 0 R (λ _, decode_recover_round n mi) (m1, sls, Some out)
    = Done (m2, sl2, Some (addr_add out (R * n * w)))
    ∧ W (dec_done (R * n) None) m2
    ∧ advanced sls w (λ _, R) sl2.
Proof.
  destruct (for_loop_inv (λ r st, rec_outer r st) 0 R
              (λ _, decode_recover_round n mi) (m1, sls, Some out))
    as (st' & Hloop & (m2 & sl2 & -> & Hm2 & Hsl2)).
  { eexists _, _. split_and!.
    - by rewrite addr_add_0.
    - apply dec_init.
    - apply advanced_init. }
  { intros r st [_ Hr]. by apply dec_recover_round. }
  rewrite Nat.add_0_l in *. by exists m2, sl2.
Qed.

Hypothesis Hfit : (N.of_nat n + 1 < 2 ^ 64)%N.

Lemma decode_recover_spec :
  ∃ m2 sl2,
    decode m1 sls n (Some out) R
    = Done (m2, sl2, Some (addr_add out (R * n * w)))
    ∧ W (dec_done (R * n) None) m2
    ∧ advanced sls w (λ _, R) sl2.
Proof.
  unfold decode, size_t_wrap. rewrite N.mod_small by done.
  replace (N.to_nat (N.of_nat n + 1)) with (n + 1) by lia.
  rewrite (find_null_missing sls 0 (n + 1) mi); [|lia|done|].
  2:{ intros j Hj. apply Hothers; lia. }
  rewrite bind_Done, decide_False by lia. apply dec_recover_rounds.
Qed.
End Recover.
End Decode.


(** ** Encoding followed by decoding *)

Lemma output_layout_valid (sh : list nat) (addrs : list address)
    (out : address) (n w chunks : nat) :
  output_layout sh addrs out n w chunks = true →
  valid_range sh out (chunks * n * w) = true.
Proof. unfold output_layout. by intros [? _]%andb_prop. Qed.

Lemma output_layout_disjoint (sh : list nat) (addrs : list address)
    (out : address) (n w chunks i : nat) (a : address) :
  output_layout sh addrs out n w chunks = true → addrs !! i = Some a →
  disjoint a (chunks * w) out (chunks * n * w) = true.
Proof.
  unfold output_layout. intros [_ Hd]%andb_prop Ha.
  by apply (forallb_lookup (λ a, disjoint a _ out _) addrs i).
Qed.

Section Roundtrip.
Context {T : Type} {U : UIntT T} {L : UIntTLaws T}.
Variables (n : nat) (m0 : memory) (ib out : address).
Variables (data : list byte) (addrs : list address).

Local Abbreviation w := (@sizeof T U).
Local Abbreviation len := (length data).
Local Abbreviation R := (rounds (length data) n (@sizeof T U)).
Local Abbreviation D :=
  (padded data (rounds (length data) n (@sizeof T U) * n * (@sizeof T U))).
Local Abbreviation slices := (Some <$> addrs).
Local Abbreviation props :=
  {| full_rounds := N.of_nat (length data / (n * @sizeof T U));
     partial_round := negb (length data mod (n * @sizeof T U) =? 0) |}.
Local Abbreviation We :=
  (written (enc_ok n R) (enc_tgt addrs w) (enc_val w n D) w m0 (enc_ok n R)).
Local Abbreviation Wd m1 :=
  (written (dec_ok n R) (dec_tgt out w) (chunk w D) w m1
     (dec_done (R * n) None)).

Hypothesis Hn : 1 ≤ n.
Hypothesis Hw : 1 ≤ w.
Hypothesis Hlen : fits_size_t len.
Hypothesis Hfit : fits_size_t (n * w).
Hypothesis Hfit1 : fits_size_t (n + 1).
Hypothesis Hdata : load m0 (Some ib) len = Done data.
Hypothesis Hlayout : encode_layout (shape m0) ib len addrs n w = true.
Hypothesis Hout : output_layout (shape m0) addrs out n w R = true.

Lemma encode_1_done :
  ∃ m1,
    encode_1 m0 (Some ib) (Some (addr_add ib len)) slices n
    = Done (props, m1, (λ a, Some (addr_add a (R * w))) <$> addrs)
    ∧ We m1.
Proof.
  apply encode_1_spec; try done.
  unfold fits_size_t in Hfit. by rewrite Nat2N.inj_mul in Hfit.
Qed.

Local Lemma length_addrs : length addrs = n + 1.
Proof.
  unfold encode_layout in Hlayout.
  repeat (apply andb_prop in Hlayout as [Hlayout ?]).
  by apply bool_decide_eq_true in Hlayout.
Qed.

Local Lemma length_padded_data : length D = R * n * w.
Proof. apply length_padded. by apply rounds_cover. Qed.

Local Lemma chunk_length (k : nat) : dec_ok n R k → length (chunk w D k) = w.
Proof.
  intros Hk. apply length_chunk. rewrite length_padded_data.
  by apply (chunk_end_le (R * n) w k).
Qed.

(** What the decoder writes is the padded input; cut to the input
    length it is the input. *)
Lemma decoded_output (m1 m2 : memory) :
  We m1 → Wd m1 m2 →
  load m2 (Some out) (R * n * w) = Done D
  ∧ load m2 (Some out) len = Done data.
Proof.
  intros (Hsh & _) Hm2.
  assert (Hall : load m2 (Some out) (R * n * w) = Done D).
  { eapply (dec_output n R m1 slices out (chunk w D)); try done.
    - by rewrite length_fmap, length_addrs.
    - rewrite Hsh. by eapply output_layout_valid.
    - apply length_padded_data. }
  split; [done|].
  assert (Hall' : load m2 (Some out) (length D) = Done D).
  { by rewrite length_padded_data. }
  pose proof (load_sub m2 out D 0 len Hall') as Hsub.
  rewrite addr_add_0, drop_0, take_padded in Hsub. apply Hsub.
  rewrite length_padded_data. by apply rounds_cover.
Qed.

(** Decoding when every data slice is handed over; the parity entry
    of the array is arbitrary. *)
Lemma encode_decode_copy (sls : list pointer) :
  length sls = n + 1 →
  (∀ i, i < n → sls !! i = slices !! i) →
  ∃ m1 m2 sl2,
    encode_1 m0 (Some ib) (Some (addr_add ib len)) slices n
    = Done (props, m1, (λ a, Some (addr_add a (R * w))) <$> addrs)
    ∧ We m1
    ∧ decode m1 sls n (Some out) R
      = Done (m2, sl2, Some (addr_add out (R * n * w)))
    ∧ Wd m1 m2
    ∧ advanced sls w (λ i, if decide (i < n) then R else 0) sl2.
Proof.
  intros Hlsls Hsls. destruct encode_1_done as (m1 & Henc & Hm1).
  assert (Hlook : ∀ i a, i < n → sls !! i = Some (Some a) → addrs !! i = Some a).
  { intros i a Hi. rewrite Hsls, list_lookup_fmap by done.
    destruct (addrs !! i); naive_solver. }
  destruct (decode_copy_spec n R m1 sls out (chunk w D))
    as (m2 & sl2 & Hdec & Hm2 & Hsl2).
  - done.
  - apply chunk_length.
  - destruct Hm1 as (-> & _). by eapply output_layout_valid.
  - intros i a Hi Ha. eapply output_layout_disjoint; eauto.
  - intros i a r Hi Ha Hr.
    rewrite (encode_slot_load n m0 ib data addrs Hn Hw Hlayout m1 i r a Hm1
               ltac:(lia) Hr (Hlook i a Hi Ha)).
    unfold enc_val; simpl. by rewrite decide_True.
  - intros i Hi. rewrite Hsls, list_lookup_fmap by done.
    destruct (lookup_lt_is_Some_2 addrs i) as [a ->]; [rewrite length_addrs; lia|].
    by exists a.
  - unfold fits_size_t in Hfit1. lia.
  - by exists m1, m2, sl2.
Qed.

(** Decoding when data slice [mi] is lost. *)
Lemma encode_decode_recover (mi : nat) :
  mi < n →
  ∃ m1 m2 sl2,
    encode_1 m0 (Some ib) (Some (addr_add ib len)) slices n
    = Done (props, m1, (λ a, Some (addr_add a (R * w))) <$> addrs)
    ∧ We m1
    ∧ decode m1 (<[mi := None]> slices) n (Some out) R
      = Done (m2, sl2, Some (addr_add out (R * n * w)))
    ∧ Wd m1 m2
    ∧ advanced (<[mi := None]> slices) w (λ _, R) sl2.
Proof.
  intros Hmi. destruct encode_1_done as (m1 & Henc & Hm1).
  assert (Hlook : ∀ i a,
    <[mi := None]> slices !! i = Some (Some a) → addrs !! i = Some a).
  { intros i a. destruct (decide (i = mi)) as [->|Hne].
    - rewrite list_lookup_insert_eq; [done|].
      rewrite length_fmap, length_addrs. lia.
    - rewrite list_lookup_insert_ne, list_lookup_fmap by done.
      destruct (addrs !! i); naive_solver. }
  destruct (decode_recover_spec n R m1 (<[mi := None]> slices) out (chunk w D))
    with (mi := mi) as (m2 & sl2 & Hdec & Hm2 & Hsl2).
  - by rewrite length_insert, length_fmap, length_addrs.
  - apply chunk_length.
  - destruct Hm1 as (-> & _). by eapply output_layout_valid.
  - intros i a Hi Ha. eapply output_layout_disjoint; eauto.
  - intros i a r Hi Ha Hr.
    rewrite (encode_slot_load n m0 ib data addrs Hn Hw Hlayout m1 i r a Hm1
               ltac:(lia) Hr (Hlook i a Ha)).
    unfold enc_val; simpl. by rewrite decide_True.
  - done.
  - apply list_lookup_insert_eq. rewrite length_fmap, length_addrs. lia.
  - intros i Hi Hne. rewrite list_lookup_insert_ne, list_lookup_fmap by done.
    destruct (lookup_lt_is_Some_2 addrs i) as [a ->]; [rewrite length_addrs; lia|].
    by exists a.
  - intros a Ha. eapply output_layout_disjoint; eauto.
  - intros a r Ha Hr.
    rewrite (encode_slot_load n m0 ib data addrs Hn Hw Hlayout m1 n r a Hm1
               ltac:(lia) Hr (Hlook n a Ha)).
    unfold enc_val; simpl. by rewrite decide_False by lia.
  - unfold fits_size_t in Hfit1. lia.
  - by exists m1, m2, sl2.
Qed.
End Roundtrip.


(** ** Integer view of the exclusive or, for [uint w] *)

Lemma le_decode_encode (w : nat) (v : Z) :
  le_decode (le_encode w v) = (v mod 2 ^ (8 * Z.of_nat w))%Z.
Proof.
  revert v. induction w as [|w IH]; intros v.
  - simpl. by rewrite Z.mod_1_r.
  - cbn [le_encode le_decode]. rewrite IH, byte_unsigned_of_Z.
    replace (8 * Z.of_nat (S w))%Z with (8 + 8 * Z.of_nat w)%Z by lia.
    rewrite Z.pow_add_r by lia. change (2 ^ 8)%Z with 256%Z.
    rewrite Z.rem_mul_r by lia. done.
Qed.

Lemma le_decode_bytes_xor (a b : list byte) :
  length a = length b →
  le_decode (bytes_xor a b) = Z.lxor (le_decode a) (le_decode b).
Proof.
  intros Hab.
  rewrite <- (le_encode_decode a) at 1. rewrite <- (le_encode_decode b) at 1.
  rewrite <- Hab, <- le_encode_lxor, le_decode_encode.
  pose proof (le_decode_range a) as Ha. pose proof (le_decode_range b) as Hb.
  rewrite <- Hab in Hb.
  rewrite lxor_mod_pow2 by lia. by rewrite !Z.mod_small by lia.
Qed.

Lemma le_decode_zero (w : nat) : le_decode (replicate w x00) = 0%Z.
Proof. induction w as [|w IH]; simpl; [done|]. rewrite IH. done. Qed.

Lemma le_decode_xor_all (w : nat) (cs : list (list byte)) :
  Forall (λ c, length c = w) cs →
  le_decode (xor_all w cs) = foldl Z.lxor 0%Z (le_decode <$> cs).
Proof.
  induction cs as [|c cs IH] using rev_ind; intros Hcs.
  - apply le_decode_zero.
  - apply Forall_app in Hcs as [Hcs Hc%Forall_inv].
    rewrite xor_all_snoc, fmap_app, foldl_app. simpl.
    rewrite le_decode_bytes_xor, IH; [done..|].
    rewrite length_xor_all by done. done.
Qed.


(** ** What a completed call implies: every access was in bounds *)

Lemma bind_Done_inv {A B : Type} (c : outcome A) (k : A → outcome B) (b : B) :
  (c ≫= k) = Done b → ∃ a, c = Done a ∧ k a = Done b.
Proof. destruct c as [a|f]; [by exists a|done]. Qed.

Lemma for_loop_Done_inv {St : Type} (I : nat → St → Prop) (first count : nat)
    (body : nat → St → outcome St) (s s' : St) :
  for_loop first count body s = Done s' →
  I first s →
  (∀ i s s', first ≤ i < first + count → I i s → body i s = Done s' →
             I (S i) s') →
  I (first + count) s'.
Proof.
  revert first s. induction count as [|count IH]; intros first s Hl Hs Hstep.
  - simpl in Hl. injection Hl as <-. by rewrite Nat.add_0_r.
  - simpl in Hl. apply bind_Done_inv in Hl as (s1 & Hb & Hl).
    replace (first + S count) with (S first + count) by lia.
    apply (IH (S first) s1 Hl).
    + apply (Hstep first s); [lia|done..].
    + intros i t t' Hi. apply Hstep. lia.
Qed.

Lemma load_Done_inv (m : memory) (p : pointer) (k : nat) (bs : list byte) :
  load m p k = Done bs →
  ∃ a, p = Some a ∧ valid_range (shape m) a k = true ∧ length bs = k.
Proof.
  destruct p as [a|]; [|done]. intros (? & ? & _)%load_Done. by exists a.
Qed.

Lemma store_Done_inv (m m' : memory) (p : pointer) (bs : list byte) :
  store m p bs = Done m' →
  ∃ a, p = Some a ∧ valid_range (shape m) a (length bs) = true
       ∧ shape m' = shape m.
Proof.
  destruct p as [a|]; [|done]. intros Hst. exists a. split; [done|].
  destruct (valid_range (shape m) a (length bs)) eqn:Hv.
  - destruct (store_Done m a bs Hv) as (m'' & Hst' & Hsh & _).
    rewrite Hst in Hst'. injection Hst' as <-. done.
  - by rewrite (store_Undefined m a bs Hv) in Hst.
Qed.

Lemma index_Done_inv (sl : list pointer) (i : nat) (p : pointer) :
  index sl i = Done p → sl !! i = Some p.
Proof. unfold index. by destruct (sl !! i) as [q|]; intros [= ->]. Qed.

Lemma slots_valid_mono (sh : list nat) (sls : list pointer) (w : nat)
    (prog prog' : nat → nat) :
  (∀ i, prog' i ≤ prog i) → slots_valid sh sls w prog → slots_valid sh sls w prog'.
Proof. intros Hp Hv i r Hr. apply Hv. specialize (Hp i). lia. Qed.

Lemma slots_valid_step (sh : list nat) (sls : list pointer) (w : nat)
    (prog : nat → nat) (sl : list pointer) (i : nat) (a' : address) :
  advanced sls w prog sl → slots_valid sh sls w prog →
  sl !! i = Some (Some a') → valid_range sh a' w = true →
  slots_valid sh sls w (λ i', if decide (i' = i) then prog i' + 1 else prog i')
  ∧ advanced sls w (λ i', if decide (i' = i) then prog i' + 1 else prog i')
      (<[i := Some (addr_add a' w)]> sl).
Proof.
  intros Hadv Hv Hi Ha'.
  destruct (lookup_lt_is_Some_2 sls i) as [p Hp].
  { destruct Hadv as [<- _]. by eapply lookup_lt_Some. }
  destruct (advanced_step sls w prog sl i p Hadv Hp) as [Hidx Hadv'].
  rewrite Hi in Hidx. injection Hidx as Hidx.
  destruct p as [a|]; [|done]. simpl in Hidx. injection Hidx as ->.
  split; [|done].
  intros i' r Hr. case_decide as Hii.
  - subst i'. destruct (decide (r = prog i)) as [->|]; [by exists a|].
    apply Hv. lia.
  - by apply Hv.
Qed.

Lemma output_valid_step (sh : list nat) (to : pointer) (w K : nat)
    (hole : option nat) (o' : address) :
  ptr_add to (K * w) = Some o' → valid_range sh o' w = true →
  output_valid sh to w K hole →
  output_valid sh to w (S K) hole ∧ Some (addr_add o' w) = ptr_add to (S K * w).
Proof.
  intros Hto Ho' Hv. destruct to as [o|]; [|done].
  simpl in Hto. injection Hto as <-. split.
  - intros k Hk Hh. destruct (decide (k = K)) as [->|]; [by exists o|].
    apply Hv; [lia|done].
  - unfold addr_add; simpl. do 2 f_equal. lia.
Qed.

Lemma output_valid_hole (sh : list nat) (to : pointer) (w K h : nat)
    (hole : option nat) :
  (∃ o, to = Some o ∧ valid_range sh (addr_add o (h * w)) w = true) →
  output_valid sh to w K (Some h) → output_valid sh to w K hole.
Proof.
  intros Hh Hv k Hk _. destruct (decide (k = h)) as [->|]; [done|].
  apply Hv; [done|congruence].
Qed.

Lemma slots_valid_ext (sh : list nat) (sls : list pointer) (w : nat)
    (prog prog' : nat → nat) :
  (∀ i, prog i = prog' i) → slots_valid sh sls w prog → slots_valid sh sls w prog'.
Proof. intros Hp. apply slots_valid_mono. intros i. by rewrite Hp. Qed.

Lemma find_null_inv (sls : list pointer) (i count k : nat) :
  find_null sls i count = Done k →
  i ≤ k ≤ i + count
  ∧ (∀ j, i ≤ j < k → ∃ a, sls !! j = Some (Some a))
  ∧ (k < i + count → sls !! k = Some None).
Proof.
  revert i. induction count as [|count IH]; intros i Hf; simpl in Hf.
  - injection Hf as <-. split_and!; [lia..| |]; intros; lia.
  - apply bind_Done_inv in Hf as (p & Hp%index_Done_inv & Hf).
    destruct p as [a|].
    + destruct (IH (S i) Hf) as (Hk & Hpres & Hnone). split_and!; [lia..| |].
      * intros j Hj. destruct (decide (j = i)) as [->|]; [by exists a|].
        apply Hpres. lia.
      * intros Hlt. apply Hnone. lia.
    + injection Hf as <-. split_and!; [lia..| |done]. intros; lia.
Qed.

Lemma ptr_add_ptr_add (p : pointer) (x y : nat) :
  ptr_add (ptr_add p x) y = ptr_add p (x + y).
Proof. destruct p as [a|]; simpl; [|done]. do 2 f_equal. lia. Qed.

Lemma ptr_add_0 (p : pointer) : ptr_add p 0 = p.
Proof. destruct p as [[b o]|]; simpl; [|done]. by rewrite Nat.add_0_r. Qed.

Section Safety.
Context {T : Type} {U : UIntT T} {L : UIntTLaws T}.
Variables (n : nat) (m0 : memory) (sls : list pointer).

Local Abbreviation w := (@sizeof T U).
Local Abbreviation sh := (shape m0).

(** *** [encode_1] *)

Local Lemma encode_chunk_tail_inv (i : nat) (m : memory) (v : T)
    (sl : list pointer) (m' : memory) (sl' : list pointer) :
  (target ← index sl i;
   m1 ← to_bytes_cast m v target;
   Done (m1, <[i := ptr_add target w]> sl)) = Done (m', sl') →
  ∃ a, sl !! i = Some (Some a) ∧ valid_range (shape m) a w = true
       ∧ shape m' = shape m ∧ sl' = <[i := Some (addr_add a w)]> sl.
Proof.
  intros (target & Hidx%index_Done_inv & Hrest)%bind_Done_inv.
  apply bind_Done_inv in Hrest as (m1 & Hst & [= <- <-]).
  apply store_Done_inv in Hst as (a & -> & Hv & Hsh).
  rewrite length_to_bytes in Hv. by exists a.
Qed.

Local Lemma encode_full_chunk_inv (i : nat) (m : memory) (ibp : pointer)
    (par : T) (sl : list pointer) (st' : encode_state) :
  encode_full_chunk i (m, ibp, par, sl) = Done st' →
  ∃ a, sl !! i = Some (Some a) ∧ valid_range (shape m) a w = true
       ∧ shape st'.1.1.1 = shape m ∧ st'.2 = <[i := Some (addr_add a w)]> sl.
Proof.
  unfold encode_full_chunk.
  intros (chunk & _ & Hrest)%bind_Done_inv.
  apply bind_Done_inv in Hrest as (target & Hidx & Hrest).
  apply bind_Done_inv in Hrest as (m1 & Hst & [= <-]). simpl.
  apply (encode_chunk_tail_inv i m chunk sl).
  by rewrite Hidx, bind_Done, Hst, bind_Done.
Qed.

Local Lemma encode_partial_chunk_inv (in_end : pointer) (i : nat) (m : memory)
    (ibp : pointer) (par : T) (sl : list pointer) (st' : encode_state) :
  encode_partial_chunk in_end i (m, ibp, par, sl) = Done st' →
  ∃ a, sl !! i = Some (Some a) ∧ valid_range (shape m) a w = true
       ∧ shape st'.1.1.1 = shape m ∧ st'.2 = <[i := Some (addr_add a w)]> sl.
Proof.
  unfold encode_partial_chunk.
  intros (size & _ & Hrest)%bind_Done_inv.
  apply bind_Done_inv in Hrest as (chunk & _ & Hrest).
  apply bind_Done_inv in Hrest as (target & Hidx & Hrest).
  apply bind_Done_inv in Hrest as (m1 & Hst & [= <-]). simpl.
  apply (encode_chunk_tail_inv i m chunk sl).
  by rewrite Hidx, bind_Done, Hst, bind_Done.
Qed.

(** Where the encoder stands: memory keeps its shape, the pointers are
    past the chunks served, and all of these were in bounds. *)
Local Abbreviation enc_safe r i m sl :=
  (shape m = sh
   ∧ advanced sls w (enc_served n r i) sl
   ∧ slots_valid sh sls w (enc_served n r i)).

Local Lemma enc_safe_step (r i : nat) (m m' : memory) (sl : list pointer)
    (a : address) :
  i ≤ n → enc_safe r i m sl →
  sl !! i = Some (Some a) → valid_range (shape m) a w = true →
  shape m' = shape m →
  enc_safe r (S i) m' (<[i := Some (addr_add a w)]> sl).
Proof.
  intros Hi (Hsh & Hadv & Hv) Ha Hva Hsh'. rewrite Hsh in Hva.
  destruct (slots_valid_step sh sls w _ sl i a Hadv Hv Ha Hva) as [Hv' Hadv'].
  assert (Hext : ∀ i', (if decide (i' = i) then enc_served n r i i' + 1
                        else enc_served n r i i') = enc_served n r (S i) i').
  { intros i'. unfold enc_served, enc_prog. repeat case_decide; lia. }
  split_and!; [congruence| |].
  - eapply advanced_ext; [|done]. intros i' _. apply Hext.
  - eapply slots_valid_ext; [|done]. apply Hext.
Qed.

Local Lemma encode_round_inv
    (body : nat → encode_state → outcome encode_state) (r : nat)
    (m : memory) (ibp : pointer) (sl : list pointer)
    (st' : memory * pointer * list pointer) :
  (∀ i m ibp par sl st',
     body i (m, ibp, par, sl) = Done st' →
     ∃ a, sl !! i = Some (Some a) ∧ valid_range (shape m) a w = true
          ∧ shape st'.1.1.1 = shape m
          ∧ st'.2 = <[i := Some (addr_add a w)]> sl) →
  encode_round body n (m, ibp, sl) = Done st' →
  enc_safe r 0 m sl → enc_safe (S r) 0 st'.1.1 st'.2.
Proof.
  intros Hbody Hround Hsafe. unfold encode_round in Hround.
  apply bind_Done_inv in Hround as ([[[m1 ib1] par1] sl1] & Hloop & Hrest).
  assert (Hinner : enc_safe r n m1 sl1).
  { apply (for_loop_Done_inv
             (λ i (st : encode_state), enc_safe r i st.1.1.1 st.2) 0 n body
             (m, ibp, zero, sl) (m1, ib1, par1, sl1) Hloop); [done|].
    intros i [[[mi ibi] pari] sli] sti' [_ Hi] Hs Hb. simpl in *.
    destruct (Hbody _ _ _ _ _ _ Hb) as (a & Ha & Hva & Hsh' & ->).
    rewrite Hsh'. apply (enc_safe_step r i mi); [lia|done..]. }
  apply bind_Done_inv in Hrest as (target & Hidx & Hrest).
  apply bind_Done_inv in Hrest as (m2 & Hst & [= <-]). simpl.
  destruct (encode_chunk_tail_inv n m1 par1 sl1 m2
              (<[n := ptr_add target w]> sl1)) as (a & Ha & Hva & Hsh' & ->).
  { by rewrite Hidx, bind_Done, Hst, bind_Done. }
  pose proof (enc_safe_step r n m1 m2 sl1 a (le_n n) Hinner Ha Hva Hsh')
    as (Hs1 & Hs2 & Hs3).
  assert (Hext : ∀ i', enc_served n r (S n) i' = enc_served n (S r) 0 i').
  { intros i'. unfold enc_served, enc_prog. repeat case_decide; lia. }
  split_and!; [done| |].
  - eapply advanced_ext; [|done]. intros i' _. apply Hext.
  - eapply slots_valid_ext; [|done]. apply Hext.
Qed.

(** A completed [encode_1] has written every chunk of every slice
    inside an allocated block. *)
Lemma encode_1_Done_valid (in_begin in_end : pointer)
    (p : ida_properties_t) (m1 : memory) (sl1 : list pointer) :
  encode_1 m0 in_begin in_end sls n = Done (p, m1, sl1) →
  ∀ i r, i ≤ n →
    r < N.to_nat (full_rounds p) + (if partial_round p then 1 else 0) →
    ∃ a, sls !! i = Some (Some a)
         ∧ valid_range sh (addr_add a (r * w)) w = true.
Proof.
  unfold encode_1.
  intros (p' & _ & Henc)%bind_Done_inv.
  apply bind_Done_inv in Henc as ([[m2 ib2] sl2] & Hloop & Hrest).
  assert (Hfull : enc_safe (N.to_nat (full_rounds p')) 0 m2 sl2).
  { apply (for_loop_Done_inv
             (λ r (st : memory * pointer * list pointer),
                enc_safe r 0 st.1.1 st.2) 0 (N.to_nat (full_rounds p'))
             (λ _, encode_round encode_full_chunk n) (m0, in_begin, sls)
             (m2, ib2, sl2) Hloop).
    - split_and!; [done| |].
      + eapply advanced_ext; [|apply advanced_init]. intros i _.
        unfold enc_served, enc_prog. repeat case_decide; lia.
      + intros i r Hr. unfold enc_served, enc_prog in Hr.
        repeat case_decide; lia.
    - intros r [[mr ibr] slr] st' _ Hs Hb. simpl in *.
      apply (encode_round_inv encode_full_chunk r mr ibr slr st'); [|done..].
      intros. by eapply encode_full_chunk_inv. }
  assert (Hall : slots_valid sh sls w
            (enc_served n (N.to_nat (full_rounds p')
                           + (if partial_round p' then 1 else 0)) 0)
          ∧ p = p').
  { destruct (partial_round p').
    - apply bind_Done_inv in Hrest as ([[m3 ib3] sl3] & Hlast & [= <- <- <-]).
      split; [|done].
      pose proof (encode_round_inv (encode_partial_chunk in_end)
                    (N.to_nat (full_rounds p')) m2 ib2 sl2 (m3, ib3, sl3))
        as Hinv.
      destruct Hinv as (_ & _ & Hv); [|done..| ].
      { intros. by eapply encode_partial_chunk_inv. }
      by replace (N.to_nat (full_rounds p') + 1)
        with (S (N.to_nat (full_rounds p'))) by lia.
    - injection Hrest as <- <- <-. split; [|done].
      rewrite Nat.add_0_r. apply Hfull. }
  destruct Hall as [Hall ->]. intros i r Hi Hr. apply Hall.
  unfold enc_served, enc_prog. repeat case_decide; lia.
Qed.

(** *** [decode] *)

Variable to : pointer.

Local Lemma decode_copy_chunk_inv (i : nat) (m : memory) (sl : list pointer)
    (to' : pointer) (st' : decode_state) :
  decode_copy_chunk i (m, sl, to') = Done st' →
  ∃ a o, sl !! i = Some (Some a) ∧ to' = Some o
         ∧ valid_range (shape m) a w = true
         ∧ valid_range (shape m) o w = true
         ∧ shape st'.1.1 = shape m
         ∧ st'.1.2 = <[i := Some (addr_add a w)]> sl
         ∧ st'.2 = Some (addr_add o w).
Proof.
  unfold decode_copy_chunk.
  intros (source & Hidx%index_Done_inv & Hrest)%bind_Done_inv.
  apply bind_Done_inv in Hrest as (bs & Hld & Hrest).
  apply bind_Done_inv in Hrest as (m1 & Hst & [= <-]). simpl.
  apply load_Done_inv in Hld as (a & -> & Hva & Hlen).
  apply store_Done_inv in Hst as (o & -> & Hvo & Hsh).
  rewrite Hlen in Hvo. by exists a, o.
Qed.

Local Lemma decode_recover_chunk_inv (i : nat) (m : memory)
    (sl : list pointer) (to' : pointer) (v : T) (st' : decode_state * T) :
  decode_recover_chunk i (m, sl, to', v) = Done st' →
  ∃ a o, sl !! i = Some (Some a) ∧ to' = Some o
         ∧ valid_range (shape m) a w = true
         ∧ valid_range (shape m) o w = true
         ∧ shape st'.1.1.1 = shape m
         ∧ st'.1.1.2 = <[i := Some (addr_add a w)]> sl
         ∧ st'.1.2 = Some (addr_add o w).
Proof.
  unfold decode_recover_chunk, from_bytes_cast, to_bytes_cast.
  intros (source & Hidx%index_Done_inv & Hrest)%bind_Done_inv.
  apply bind_Done_inv in Hrest as (chunk & Hld & Hrest).
  apply bind_Done_inv in Hld as (bs & Hld & [= <-]).
  apply bind_Done_inv in Hrest as (m1 & Hst & [= <-]). simpl.
  apply load_Done_inv in Hld as (a & -> & Hva & Hlen).
  apply store_Done_inv in Hst as (o & -> & Hvo & Hsh).
  rewrite length_to_bytes in Hvo. by exists a, o.
Qed.

(** Where the decoder stands: as for the encoder, and the output cursor
    is past [K] chunks, all in bounds except a reserved one. *)
Local Abbreviation dec_safe prog K hole m sl to' :=
  (shape m = sh
   ∧ advanced sls w prog sl
   ∧ slots_valid sh sls w prog
   ∧ to' = ptr_add to (K * w)
   ∧ output_valid sh to w K hole).

Local Lemma dec_safe_step (prog prog' : nat → nat) (K : nat)
    (hole : option nat) (m m' : memory) (sl : list pointer) (to' : pointer)
    (i : nat) (a o : address) :
  (∀ i', (if decide (i' = i) then prog i' + 1 else prog i') = prog' i') →
  dec_safe prog K hole m sl to' →
  sl !! i = Some (Some a) → to' = Some o →
  valid_range (shape m) a w = true → valid_range (shape m) o w = true →
  shape m' = shape m →
  dec_safe prog' (S K) hole m' (<[i := Some (addr_add a w)]> sl)
    (Some (addr_add o w)).
Proof.
  intros Hext (Hsh & Hadv & Hv & Hto & Hout) Ha -> Hva Hvo Hsh'.
  rewrite Hsh in Hva, Hvo.
  destruct (slots_valid_step sh sls w _ sl i a Hadv Hv Ha Hva) as [Hv' Hadv'].
  destruct (output_valid_step sh to w K hole o (eq_sym Hto) Hvo Hout)
    as [Hout' Hto'].
  split_and!; [congruence| | |done..].
  - eapply advanced_ext; [|done]. intros i' _. apply Hext.
  - eapply slots_valid_ext; [|done]. apply Hext.
Qed.

Local Lemma dec_safe_ext (prog prog' : nat → nat) (K K' : nat)
    (hole : option nat) (m : memory) (sl : list pointer) (to' : pointer) :
  (∀ i', prog i' = prog' i') → K = K' →
  dec_safe prog K hole m sl to' → dec_safe prog' K' hole m sl to'.
Proof.
  intros Hext <- (Hsh & Hadv & Hv & Hto & Hout). split_and!; [done| | |done..].
  - eapply advanced_ext; [|done]. intros i' _. apply Hext.
  - eapply slots_valid_ext; [|done]. apply Hext.
Qed.

Local Lemma decode_copy_round_inv (r : nat) (st st' : decode_state) :
  for_loop 0 n decode_copy_chunk st = Done st' →
  dec_safe (copy_prog n r 0) (r * n) None st.1.1 st.1.2 st.2 →
  dec_safe (copy_prog n (S r) 0) (S r * n) None st'.1.1 st'.1.2 st'.2.
Proof.
  intros Hloop Hs.
  pose proof (for_loop_Done_inv
    (λ i (st : decode_state),
       dec_safe (copy_prog n r i) (r * n + i) None st.1.1 st.1.2 st.2)
    0 n decode_copy_chunk st st' Hloop) as Hinv.
  eapply dec_safe_ext; [| |apply Hinv].
  - intros i'. unfold copy_prog, enc_prog. repeat case_decide; lia.
  - lia.
  - eapply dec_safe_ext; [| |exact Hs]; [done|lia].
  - intros i [[mi sli] toi] sti' [_ Hi] Hsi Hb. simpl in *.
    destruct (decode_copy_chunk_inv _ _ _ _ _ Hb)
      as (a & o & Ha & Hto & Hva & Hvo & Hsh' & -> & ->).
    rewrite Nat.add_succ_r.
    eapply (dec_safe_step (copy_prog n r i)); [|done..].
    intros i'. unfold copy_prog, enc_prog. repeat case_decide; lia.
Qed.

Local Lemma decode_recover_round_inv (mi r : nat) (st st' : decode_state) :
  mi < n →
  decode_recover_round n mi st = Done st' →
  dec_safe (rec_served n mi r 0 false) (r * n) None st.1.1 st.1.2 st.2 →
  dec_safe (rec_served n mi (S r) 0 false) (S r * n) None
    st'.1.1 st'.1.2 st'.2.
Proof.
  destruct st as [[m sl] to0]. intros Hmi Hround Hs. simpl in Hs.
  unfold decode_recover_round, from_bytes_cast in Hround.
  apply bind_Done_inv in Hround as (source & Hidx%index_Done_inv & Hround).
  apply bind_Done_inv in Hround as (recovery & Hld & Hround).
  apply bind_Done_inv in Hld as (bs & Hld & _).
  apply load_Done_inv in Hld as (an & -> & Hvan & _).
  apply bind_Done_inv in Hround as ([[[m2 sl2] to2] v2] & Hloop1 & Hround).
  apply bind_Done_inv in Hround as ([[[m3 sl3] to3] v3] & Hloop2 & Hround).
  apply bind_Done_inv in Hround as (m4 & Hst & [= <-]). simpl.
  (* the parity chunk has been read *)
  destruct Hs as (Hsh & Hadv & Hv & Hto & Hout). rewrite Hsh in Hvan.
  destruct (slots_valid_step sh sls w _ sl n an Hadv Hv Hidx Hvan)
    as [Hv0 Hadv0].
  assert (Hs0 : dec_safe (rec_served n mi r 0 true) (r * n + 0) None m
                  (<[n := Some (addr_add an w)]> sl) to0).
  { rewrite Nat.add_0_r. split_and!; [done| | |done..].
    - eapply advanced_ext; [|done]. intros i' _.
      unfold rec_served, enc_prog. repeat case_decide; lia.
    - eapply slots_valid_ext; [|done]. intros i'.
      unfold rec_served, enc_prog. repeat case_decide; lia. }
  (* the slices before the missing one *)
  pose proof (for_loop_Done_inv
    (λ i (st : decode_state * T),
       dec_safe (rec_served n mi r i true) (r * n + i) None
         st.1.1.1 st.1.1.2 st.1.2)
    0 mi decode_recover_chunk _ _ Hloop1 Hs0) as Hs1.
  simpl in Hs1.
  assert (Hstep1 : ∀ i (s s' : decode_state * T), 0 ≤ i < 0 + mi →
    dec_safe (rec_served n mi r i true) (r * n + i) None s.1.1.1 s.1.1.2 s.1.2 →
    decode_recover_chunk i s = Done s' →
    dec_safe (rec_served n mi r (S i) true) (r * n + S i) None
      s'.1.1.1 s'.1.1.2 s'.1.2).
  { intros i [[[mi' sli] toi] vi] sti' [_ Hi] Hsi Hb. simpl in *.
    destruct (decode_recover_chunk_inv _ _ _ _ _ _ Hb)
      as (a & o & Ha & Hto' & Hva & Hvo & Hsh' & -> & ->).
    rewrite Nat.add_succ_r.
    eapply (dec_safe_step (rec_served n mi r i true)); [|done..].
    intros i'. unfold rec_served, enc_prog. repeat case_decide; lia. }
  specialize (Hs1 Hstep1). clear Hstep1.
  (* the output position of the missing slice is reserved *)
  destruct Hs1 as (Hsh2 & Hadv2 & Hv2 & Hto2 & Hout2).
  assert (Hs2 : dec_safe (rec_served n mi r (mi + 1) true) (r * n + (mi + 1))
                  (Some (r * n + mi)) m2 sl2 (ptr_add to2 w)).
  { split_and!; [done| | | |].
    - eapply advanced_ext; [|done]. intros i' _.
      unfold rec_served, enc_prog. repeat case_decide; lia.
    - eapply slots_valid_ext; [|done]. intros i'.
      unfold rec_served, enc_prog. repeat case_decide; lia.
    - rewrite Hto2, ptr_add_ptr_add. f_equal. lia.
    - intros k Hk Hh. apply Hout2; [|done].
      assert (k ≠ r * n + mi) by congruence. lia. }
  (* the slices after the missing one *)
  pose proof (for_loop_Done_inv
    (λ i (st : decode_state * T),
       dec_safe (rec_served n mi r i true) (r * n + i) (Some (r * n + mi))
         st.1.1.1 st.1.1.2 st.1.2)
    (mi + 1) (n - (mi + 1)) decode_recover_chunk _ _ Hloop2 Hs2) as Hs3.
  simpl in Hs3. replace (mi + 1 + (n - (mi + 1))) with n in Hs3 by lia.
  assert (Hstep2 : ∀ i (s s' : decode_state * T),
    mi + 1 ≤ i < n →
    dec_safe (rec_served n mi r i true) (r * n + i) (Some (r * n + mi))
      s.1.1.1 s.1.1.2 s.1.2 →
    decode_recover_chunk i s = Done s' →
    dec_safe (rec_served n mi r (S i) true) (r * n + S i) (Some (r * n + mi))
      s'.1.1.1 s'.1.1.2 s'.1.2).
  { intros i [[[mi' sli] toi] vi] sti' Hi Hsi Hb. simpl in *.
    destruct (decode_recover_chunk_inv _ _ _ _ _ _ Hb)
      as (a & o & Ha & Hto' & Hva & Hvo & Hsh' & -> & ->).
    rewrite Nat.add_succ_r.
    eapply (dec_safe_step (rec_served n mi r i true)); [|done..].
    intros i'. unfold rec_served, enc_prog. repeat case_decide; lia. }
  specialize (Hs3 Hstep2). clear Hstep2.
  (* the recovered chunk goes to the reserved position *)
  destruct Hs3 as (Hsh3 & Hadv3 & Hv3 & Hto3 & Hout3).
  unfold to_bytes_cast in Hst.
  apply store_Done_inv in Hst as (o & Ho & Hvo & Hsh4).
  rewrite length_to_bytes, Hsh3 in Hvo.
  split_and!; [congruence| | | |].
  - eapply advanced_ext; [|done]. intros i' _.
    unfold rec_served, enc_prog. repeat case_decide; lia.
  - eapply slots_valid_ext; [|done]. intros i'.
    unfold rec_served, enc_prog. repeat case_decide; lia.
  - rewrite Hto3. f_equal. lia.
  - assert (Hall : output_valid sh to w (r * n + n) None).
    { apply (output_valid_hole sh to w (r * n + n) (r * n + mi)); [|exact Hout3].
      rewrite Hto2 in Ho. destruct to as [o0|]; [|done].
      simpl in Ho. injection Ho as <-. by exists o0. }
    intros k Hk Hh. apply Hall; [lia|done].
Qed.

(** A completed [decode] has read every chunk it used and written every
    output chunk inside an allocated block; when a data slice is absent
    it has read all the other slices. *)
Lemma decode_Done_valid (chunks : nat) (st : decode_state) :
  decode m0 sls n to chunks = Done st →
  ∃ k, find_null sls 0 (N.to_nat (size_t_wrap (N.of_nat n + 1))) = Done k
       ∧ output_valid sh to w (chunks * n) None
       ∧ slots_valid sh sls w
           (if decide (n ≤ k) then copy_prog n chunks 0
            else rec_served n k chunks 0 false).
Proof.
  unfold decode. intros (k & Hk & Hrun)%bind_Done_inv.
  exists k. split; [done|]. case_decide as Hnk.
  - pose proof (for_loop_Done_inv
      (λ r (st : decode_state),
         dec_safe (copy_prog n r 0) (r * n) None st.1.1 st.1.2 st.2)
      0 chunks (λ _, for_loop 0 n decode_copy_chunk) _ _ Hrun) as Hinv.
    simpl in Hinv. destruct Hinv as (_ & _ & Hv & _ & Hout); [| |done].
    + split_and!; [done| | |symmetry; apply ptr_add_0|].
      * eapply advanced_ext; [|apply advanced_init]. intros i _.
        unfold copy_prog, enc_prog. repeat case_decide; lia.
      * intros i r Hr. unfold copy_prog, enc_prog in Hr.
        repeat case_decide; lia.
      * intros j Hj. lia.
    + intros r s s' _ Hs Hb. by apply (decode_copy_round_inv r s s').
  - pose proof (for_loop_Done_inv
      (λ r (st : decode_state),
         dec_safe (rec_served n k r 0 false) (r * n) None st.1.1 st.1.2 st.2)
      0 chunks (λ _, decode_recover_round n k) _ _ Hrun) as Hinv.
    simpl in Hinv. destruct Hinv as (_ & _ & Hv & _ & Hout); [| |done].
    + split_and!; [done| | |symmetry; apply ptr_add_0|].
      * eapply advanced_ext; [|apply advanced_init]. intros i _.
        unfold rec_served, enc_prog. repeat case_decide; lia.
      * intros i r Hr. unfold rec_served, enc_prog in Hr.
        repeat case_decide; lia.
      * intros j Hj. lia.
    + intros r s s' _ Hs Hb.
      apply (decode_recover_round_inv k r s s'); [lia|done..].
Qed.
End Safety.

Lemma find_null_total (sls : list pointer) (i count : nat) :
  i + count ≤ length sls → ∃ k, find_null sls i count = Done k.
Proof.
  revert i. induction count as [|count IH]; intros i Hl; simpl.
  - by exists i.
  - destruct (lookup_lt_is_Some_2 sls i) as [p Hp]; [lia|].
    unfold index. rewrite Hp, bind_Done. destruct p as [a|].
    + apply IH. lia.
    + by exists i.
Qed.

Lemma valid_range_last (shp : list nat) (a : address) (w R : nat) :
  1 ≤ R → valid_range shp (addr_add a ((R - 1) * w)) w = true →
  valid_range shp a (R * w) = true.
Proof.
  unfold valid_range; simpl. intros HR. destruct (shp !! blk a); [|done].
  rewrite !bool_decide_eq_true. nia.
Qed.

Lemma not_Done_Undefined {A : Type} (c : outcome A) :
  (∀ a, c ≠ Done a) → ∃ f, c = Undefined f.
Proof. destruct c as [a|f]; [intros Hc; by destruct (Hc a)|by exists f]. Qed.


(** ** The concrete scenario, evaluated *)

Example encode_scenario :
  encode_1 (T := uint8_t) ex_memory (Some ex_input)
    (Some (addr_add ex_input (length ex_data))) (Some <$> ex_slices) 2
  = Done ({| full_rounds := 2; partial_round := true |}, ex_encoded,
          [Some (Addr 1 3); Some (Addr 2 3); Some (Addr 3 3)]).
Proof. reflexivity. Qed.

Example decode_scenario_all_present :
  decode (T := uint8_t) ex_encoded (Some <$> ex_slices) 2 (Some ex_output) 3
  = Done ([ex_data; [x01; x03; x05]; [x02; x04; x00]; [x03; x07; x05];
           [x01; x02; x03; x04; x05; x00]],
          [Some (Addr 1 3); Some (Addr 2 3); Some (Addr 3 0)],
          Some (Addr 4 6)).
Proof. reflexivity. Qed.

Example decode_scenario_slice1_absent :
  decode (T := uint8_t) ex_encoded
    [Some (Addr 1 0); nullptr; Some (Addr 3 0)] 2 (Some ex_output) 3
  = Done ([ex_data; [x01; x03; x05]; [x02; x04; x00]; [x03; x07; x05];
           [x01; x02; x03; x04; x05; x00]],
          [Some (Addr 1 3); nullptr; Some (Addr 3 3)],
          Some (Addr 4 6)).
Proof. reflexivity. Qed.

Example encode_scenario_uint16 :
  ∃ p sl,
    encode_1 (T := uint16_t)
      [ex_data; replicate 4 xff; replicate 4 xff; replicate 4 xff]
      (Some ex_input) (Some (addr_add ex_input (length ex_data)))
      (Some <$> ex_slices) 2
    = Done (p, [ex_data; [x01; x02; x05; x00]; [x03; x04; x00; x00];
                [x02; x06; x05; x00]], sl)
    ∧ num_chunks p = 2%N.
Proof. eexists _, _. split; reflexivity. Qed.


(** * Properties of the specification *)

(** C5 as stated fails: the round size n·sizeof(UIntT) is computed in
    [size_t].  For n = 2^63 + 1 slices and chunks of two bytes it wraps
    to 2, and for five input bytes the properties computation returns
    full_rounds = 2 where inputLength / (n·W) is 0; for n = 2^61 slices
    and chunks of eight bytes it wraps to 0 and the computation divides
    by zero. *)
Lemma properties_overflow_counterexample :
  (∃ p, ida_properties (T := uint16_t) (Some ex_input)
          (Some (addr_add ex_input 5)) (N.to_nat (2 ^ 63 + 1)) = Done p
        ∧ full_rounds p = 2%N
        ∧ N.of_nat (5 / (N.to_nat (2 ^ 63 + 1) * 2)) = 0%N)
  ∧ ida_properties (T := uint64_t) (Some ex_input)
      (Some (addr_add ex_input 5)) (N.to_nat (2 ^ 61))
    = Undefined DivisionByZero.
Proof.
  assert (Hd : distance (Some ex_input) (Some (addr_add ex_input 5))
               = Done 5%Z) by reflexivity.
  split.
  - eexists. split_and!.
    + unfold ida_properties. rewrite Hd, bind_Done. cbv zeta.
      rewrite N2Nat.id. reflexivity.
    + reflexivity.
    + rewrite Nat.div_small; [done|]. lia.
  - unfold ida_properties. rewrite Hd, bind_Done. cbv zeta.
    rewrite N2Nat.id. reflexivity.
Qed.

(** C5, amended. The properties computation forms the round size
    n·sizeof(UIntT) in [size_t], so that it is n·W modulo 2^64.  For
    n ≥ 1 and W ≥ 1 it returns full_rounds = inputLength / round_size
    and partial_round = (inputLength mod round_size ≠ 0) when the round
    size is not zero, and divides by zero when the product wraps to
    zero.  When n·W is a [size_t] value the round size is n·W: then
    full_rounds = inputLength / (n·W), partial_round =
    (inputLength mod (n·W) ≠ 0), num_chunks() is full_rounds plus one
    when partial_round is set, and [encode_1] gives every data slice
    exactly num_chunks()·W bytes: its pointer ends num_chunks()·W bytes
    further, each of its num_chunks() chunks of W bytes is written, and
    no byte outside the num_chunks()·W bytes of the slices changes. *)
Theorem properties_arithmetic (w n : nat) (m0 : memory) (ib : address)
    (data : list byte) (addrs : list address) :
  1 ≤ n → 1 ≤ w → fits_size_t (length data) →
  (size_t_wrap (N.of_nat n * N.of_nat w) = 0%N →
   ida_properties (T := uint w) (Some ib)
     (Some (addr_add ib (length data))) n = Undefined DivisionByZero)
  ∧ (size_t_wrap (N.of_nat n * N.of_nat w) ≠ 0%N →
     ida_properties (T := uint w) (Some ib)
       (Some (addr_add ib (length data))) n
     = Done {| full_rounds :=
                 N.of_nat (length data)
                 / size_t_wrap (N.of_nat n * N.of_nat w);
               partial_round :=
                 negb (N.of_nat (length data)
                       mod size_t_wrap (N.of_nat n * N.of_nat w) =? 0)%N |})
  ∧ (fits_size_t (n * w) →
     load m0 (Some ib) (length data) = Done data →
     encode_layout (shape m0) ib (length data) addrs n w = true →
     ∃ p m1 sl1,
       ida_properties (T := uint w) (Some ib)
         (Some (addr_add ib (length data))) n = Done p
       ∧ full_rounds p = N.of_nat (length data / (n * w))
       ∧ partial_round p = negb (length data mod (n * w) =? 0)
       ∧ num_chunks p = (full_rounds p + (if partial_round p then 1 else 0))%N
       ∧ encode_1 (T := uint w) m0 (Some ib)
           (Some (addr_add ib (length data))) (Some <$> addrs) n
         = Done (p, m1, sl1)
       ∧ (∀ i a, i < n → addrs !! i = Some a →
            sl1 !! i = Some (Some (addr_add a (N.to_nat (num_chunks p) * w)))
            ∧ ∀ r, r < N.to_nat (num_chunks p) →
                load m1 (Some (addr_add a (r * w))) w
                = Done (chunk w
                          (padded data (N.to_nat (num_chunks p) * n * w))
                          (r * n + i)))
       ∧ (∀ c, (∀ i a, addrs !! i = Some a →
                  ¬ in_range a (N.to_nat (num_chunks p) * w) c) →
               byte_at m1 c = byte_at m0 c)).
Proof.
  intros Hn Hw Hlen.
  assert (Hd : distance (Some ib) (Some (addr_add ib (length data)))
               = Done (Z.of_nat (length data))).
  { unfold distance; simpl. rewrite decide_True by done. f_equal. lia. }
  assert (Hs : size_t_of_Z (Z.of_nat (length data)) = N.of_nat (length data)).
  { unfold size_t_of_Z, fits_size_t in *. rewrite Z.mod_small by lia. lia. }
  split_and!.
  - intros Hz.
    by apply (ida_properties_round_size_zero (U := uint_UIntT w) _ _ n _ Hd).
  - intros Hnz. unfold ida_properties. rewrite Hd, bind_Done. cbv zeta.
    rewrite Hs. cbn [sizeof uint_UIntT]. by rewrite decide_False.
  - intros Hfit Hdata Hlayout.
    assert (Hfit' : (N.of_nat n * N.of_nat w < 2 ^ 64)%N).
    { unfold fits_size_t in Hfit. by rewrite Nat2N.inj_mul in Hfit. }
    destruct (encode_1_spec (U := uint_UIntT w) n m0 ib data addrs Hn Hw
                Hlayout Hdata Hlen Hfit') as (m1 & Henc & Hm1).
    pose proof (num_chunks_rounds (length data) n w Hn Hw Hlen) as Hnc.
    cbn [sizeof uint_UIntT] in Henc, Hm1.
    exists {| full_rounds := N.of_nat (length data / (n * w));
              partial_round := negb (length data mod (n * w) =? 0) |}, m1.
    eexists. split_and!.
    + by apply (ida_properties_spec (U := uint_UIntT w)).
    + done.
    + done.
    + rewrite Hnc. unfold rounds. cbn [full_rounds partial_round].
      destruct (length data mod (n * w) =? 0); simpl; lia.
    + exact Henc.
    + intros i a Hi Ha. rewrite Hnc, Nat2N.id. split.
      * by rewrite list_lookup_fmap, Ha.
      * intros r Hr.
        pose proof (encode_slot_load (U := uint_UIntT w) n m0 ib data addrs
                      Hn Hw Hlayout m1 i r a Hm1 ltac:(lia) Hr Ha) as Hl.
        cbn [sizeof uint_UIntT] in Hl. rewrite Hl.
        unfold enc_val; simpl. by rewrite decide_True.
    + intros c Hc. rewrite Hnc, Nat2N.id in Hc.
      by apply (encode_frame (U := uint_UIntT w) n m0 ib data addrs
                  Hn Hw Hlayout).
Qed.

Lemma properties_arithmetic_witness :
  ida_properties (T := uint 1) (Some ex_input)
    (Some (addr_add ex_input (length ex_data))) 2
  = Done {| full_rounds :=
              N.of_nat (length ex_data)
              / size_t_wrap (N.of_nat 2 * N.of_nat 1);
            partial_round :=
              negb (N.of_nat (length ex_data)
                    mod size_t_wrap (N.of_nat 2 * N.of_nat 1) =? 0)%N |}
  ∧ ∃ p m1 sl1,
      ida_properties (T := uint 1) (Some ex_input)
        (Some (addr_add ex_input (length ex_data))) 2 = Done p
      ∧ full_rounds p = N.of_nat (length ex_data / (2 * 1))
      ∧ partial_round p = negb (length ex_data mod (2 * 1) =? 0)
      ∧ num_chunks p = (full_rounds p + (if partial_round p then 1 else 0))%N
      ∧ encode_1 (T := uint 1) ex_memory (Some ex_input)
          (Some (addr_add ex_input (length ex_data)))
          (Some <$> ex_slices) 2 = Done (p, m1, sl1)
      ∧ (∀ i a, i < 2 → ex_slices !! i = Some a →
           sl1 !! i = Some (Some (addr_add a (N.to_nat (num_chunks p) * 1)))
           ∧ ∀ r, r < N.to_nat (num_chunks p) →
               load m1 (Some (addr_add a (r * 1))) 1
               = Done (chunk 1
                         (padded ex_data (N.to_nat (num_chunks p) * 2 * 1))
                         (r * 2 + i)))
      ∧ (∀ c, (∀ i a, ex_slices !! i = Some a →
                 ¬ in_range a (N.to_nat (num_chunks p) * 1) c) →
              byte_at m1 c = byte_at ex_memory c).
Proof.
  destruct (properties_arithmetic 1 2 ex_memory ex_input ex_data ex_slices)
    as (_ & Hwrap & Hfits).
  - lia.
  - lia.
  - unfold fits_size_t. simpl. lia.
  - split.
    + apply Hwrap. vm_compute. discriminate.
    + apply Hfits.
      * unfold fits_size_t. simpl. lia.
      * reflexivity.
      * reflexivity.
Defined.

(** C3. In every round r < num_chunks() of an encoding produced by
    [encode_1], the chunk written to the parity slice slices[n] is the
    bitwise exclusive or of the n chunks written to slices[0..n) in that
    round, the zero-padded chunks of a partial round included. *)
Theorem parity_is_xor_of_round (w n : nat) (m0 : memory) (ib : address)
    (data : list byte) (addrs : list address) :
  1 ≤ n → 1 ≤ w →
  fits_size_t (length data) → fits_size_t (n * w) →
  load m0 (Some ib) (length data) = Done data →
  encode_layout (shape m0) ib (length data) addrs n w = true →
  ∃ p m1 sl1,
    encode_1 (T := uint w) m0 (Some ib) (Some (addr_add ib (length data)))
      (Some <$> addrs) n = Done (p, m1, sl1)
    ∧ ∀ r, r < N.to_nat (num_chunks p) →
        ∃ vs : list Z,
          length vs = n
          ∧ (∀ i a, i < n → addrs !! i = Some a →
               ∃ v, vs !! i = Some v
                    ∧ from_bytes_cast (T := uint w) m1
                        (Some (addr_add a (r * w))) = Done v)
          ∧ (∀ a, addrs !! n = Some a →
               from_bytes_cast (T := uint w) m1 (Some (addr_add a (r * w)))
               = Done (foldl Z.lxor 0%Z vs)).
Proof.
  intros Hn Hw Hlen Hfit Hdata Hlayout.
  assert (Hfit' : (N.of_nat n * N.of_nat w < 2 ^ 64)%N).
  { unfold fits_size_t in Hfit. by rewrite Nat2N.inj_mul in Hfit. }
  destruct (encode_1_spec (U := uint_UIntT w) n m0 ib data addrs Hn Hw Hlayout
              Hdata Hlen Hfit') as (m1 & Henc & Hm1).
  pose proof (num_chunks_rounds (length data) n w Hn Hw Hlen) as Hnc.
  cbn [sizeof uint_UIntT] in Henc, Hm1.
  eexists _, m1, _. split; [exact Henc|].
  rewrite Hnc, Nat2N.id. intros r Hr.
  set (D := padded data (rounds (length data) n w * n * w)).
  exists (le_decode <$> round_chunks w n D r). split_and!.
  - by rewrite length_fmap, length_round_chunks.
  - intros i a Hi Ha. exists (le_decode (chunk w D (r * n + i))). split.
    + by rewrite list_lookup_fmap, round_chunks_lookup.
    + pose proof (encode_slot_load (U := uint_UIntT w) n m0 ib data addrs
                    Hn Hw Hlayout m1 i r a Hm1 ltac:(lia) Hr Ha) as Hl.
      cbn [sizeof uint_UIntT] in Hl. unfold from_bytes_cast.
      cbn [sizeof uint_UIntT from_bytes]. rewrite Hl, bind_Done.
      unfold enc_val; simpl. by rewrite decide_True.
  - intros a Ha.
    pose proof (encode_slot_load (U := uint_UIntT w) n m0 ib data addrs
                  Hn Hw Hlayout m1 n r a Hm1 ltac:(lia) Hr Ha) as Hl.
    cbn [sizeof uint_UIntT] in Hl. unfold from_bytes_cast.
    cbn [sizeof uint_UIntT from_bytes]. rewrite Hl, bind_Done.
    unfold enc_val; simpl. rewrite decide_False by lia.
    rewrite le_decode_xor_all; [done|].
    apply (round_chunks_Forall w n D (rounds (length data) n w)); [|done].
    apply length_padded. by apply rounds_cover.
Qed.

Lemma parity_is_xor_of_round_witness :
  ∃ p m1 sl1,
    encode_1 (T := uint 1) ex_memory (Some ex_input)
      (Some (addr_add ex_input (length ex_data))) (Some <$> ex_slices) 2
    = Done (p, m1, sl1)
    ∧ ∀ r, r < N.to_nat (num_chunks p) →
        ∃ vs : list Z,
          length vs = 2
          ∧ (∀ i a, i < 2 → ex_slices !! i = Some a →
               ∃ v, vs !! i = Some v
                    ∧ from_bytes_cast (T := uint 1) m1
                        (Some (addr_add a (r * 1))) = Done v)
          ∧ (∀ a, ex_slices !! 2 = Some a →
               from_bytes_cast (T := uint 1) m1 (Some (addr_add a (r * 1)))
               = Done (foldl Z.lxor 0%Z vs)).
Proof.
  apply (parity_is_xor_of_round 1 2 ex_memory ex_input ex_data ex_slices).
  - lia.
  - lia.
  - unfold fits_size_t. simpl. lia.
  - unfold fits_size_t. simpl. lia.
  - reflexivity.
  - reflexivity.
Defined.

(** C1. For n ≥ 1, chunk width W in {1, 2, 4, 8} and an input of any
    length, encoding with [encode_1] into n + 1 slices and decoding
    these with [decode], no slice absent, gives back the input: the
    output cut to the input length is the input. *)
Theorem roundtrip_no_slice_absent (w n : nat) (m0 : memory)
    (ib out : address) (data : list byte) (addrs : list address) :
  w = 1 ∨ w = 2 ∨ w = 4 ∨ w = 8 → 1 ≤ n →
  fits_size_t (length data) → fits_size_t (n * w) → fits_size_t (n + 1) →
  load m0 (Some ib) (length data) = Done data →
  encode_layout (shape m0) ib (length data) addrs n w = true →
  output_layout (shape m0) addrs out n w (rounds (length data) n w) = true →
  ∃ p m1 sl1 m2 sl2 to2,
    encode_1 (T := uint w) m0 (Some ib) (Some (addr_add ib (length data)))
      (Some <$> addrs) n = Done (p, m1, sl1)
    ∧ decode (T := uint w) m1 (Some <$> addrs) n (Some out)
        (N.to_nat (num_chunks p)) = Done (m2, sl2, to2)
    ∧ load m2 (Some out) (length data) = Done data.
Proof.
  intros Hw8 Hn Hlen Hfit Hfit1 Hdata Hlayout Hout.
  assert (Hw : 1 ≤ w) by lia.
  destruct (encode_decode_copy (U := uint_UIntT w) n m0 ib out data addrs
              Hn Hw Hlen Hfit Hfit1 Hdata Hlayout Hout (Some <$> addrs))
    as (m1 & m2 & sl2 & Henc & Hm1 & Hdec & Hm2 & Hsl2).
  { rewrite length_fmap.
    unfold encode_layout in Hlayout.
    repeat (apply andb_prop in Hlayout as [Hlayout ?]).
    by apply bool_decide_eq_true in Hlayout. }
  { done. }
  pose proof (num_chunks_rounds (length data) n w Hn Hw Hlen) as Hnc.
  cbn [sizeof uint_UIntT] in *.
  eexists _, m1, _, m2, sl2, _. split_and!.
  - exact Henc.
  - rewrite Hnc, Nat2N.id. exact Hdec.
  - by destruct (decoded_output (U := uint_UIntT w) n m0 ib out data addrs
                   Hn Hw Hlayout Hout m1 m2 Hm1 Hm2).
Qed.

Lemma roundtrip_no_slice_absent_witness :
  ∃ p m1 sl1 m2 sl2 to2,
    encode_1 (T := uint 1) ex_memory (Some ex_input)
      (Some (addr_add ex_input (length ex_data))) (Some <$> ex_slices) 2
    = Done (p, m1, sl1)
    ∧ decode (T := uint 1) m1 (Some <$> ex_slices) 2 (Some ex_output)
        (N.to_nat (num_chunks p)) = Done (m2, sl2, to2)
    ∧ load m2 (Some ex_output) (length ex_data) = Done ex_data.
Proof.
  apply (roundtrip_no_slice_absent 1 2 ex_memory ex_input ex_output ex_data
           ex_slices).
  - by left.
  - lia.
  - unfold fits_size_t. simpl. lia.
  - unfold fits_size_t. simpl. lia.
  - unfold fits_size_t. simpl. lia.
  - reflexivity.
  - reflexivity.
  - reflexivity.
Defined.

(** C2. For n ≥ 1, chunk width W ≥ 1, any input and any data-slice
    index i < n: when slices[i] is nullptr and the other n slices are
    handed over after [encode_1], [decode] reconstructs the input.  The
    chunk recovered in round r is written to the output position
    reserved for slot i of that round, so the output is the padded
    input, and cut to the input length it is the input. *)
Theorem roundtrip_data_slice_absent (w n i : nat) (m0 : memory)
    (ib out : address) (data : list byte) (addrs : list address) :
  1 ≤ n → 1 ≤ w → i < n →
  fits_size_t (length data) → fits_size_t (n * w) → fits_size_t (n + 1) →
  load m0 (Some ib) (length data) = Done data →
  encode_layout (shape m0) ib (length data) addrs n w = true →
  output_layout (shape m0) addrs out n w (rounds (length data) n w) = true →
  ∃ p m1 sl1 m2 sl2 to2,
    encode_1 (T := uint w) m0 (Some ib) (Some (addr_add ib (length data)))
      (Some <$> addrs) n = Done (p, m1, sl1)
    ∧ decode (T := uint w) m1 (<[i := nullptr]> (Some <$> addrs)) n (Some out)
        (N.to_nat (num_chunks p)) = Done (m2, sl2, to2)
    ∧ (∀ r, r < N.to_nat (num_chunks p) →
         load m2 (Some (addr_add out ((r * n + i) * w))) w
         = Done (chunk w (padded data (N.to_nat (num_chunks p) * n * w))
                   (r * n + i)))
    ∧ load m2 (Some out) (N.to_nat (num_chunks p) * n * w)
      = Done (padded data (N.to_nat (num_chunks p) * n * w))
    ∧ load m2 (Some out) (length data) = Done data.
Proof.
  intros Hn Hw Hi Hlen Hfit Hfit1 Hdata Hlayout Hout.
  destruct (encode_decode_recover (U := uint_UIntT w) n m0 ib out data addrs
              Hn Hw Hlen Hfit Hfit1 Hdata Hlayout Hout i Hi)
    as (m1 & m2 & sl2 & Henc & Hm1 & Hdec & Hm2 & Hsl2).
  pose proof (num_chunks_rounds (length data) n w Hn Hw Hlen) as Hnc.
  destruct (decoded_output (U := uint_UIntT w) n m0 ib out data addrs
              Hn Hw Hlayout Hout m1 m2 Hm1 Hm2) as [Hall Hcut].
  cbn [sizeof uint_UIntT] in *.
  eexists _, m1, _, m2, sl2, _. rewrite Hnc, Nat2N.id.
  split_and!; [exact Henc|exact Hdec| |exact Hall|exact Hcut].
  intros r Hr.
  pose proof (length_padded data (rounds (length data) n w * n * w)
                (rounds_cover _ n w Hn Hw)) as HlD.
  rewrite <- HlD in Hall at 1.
  pose proof (flat_chunk_end_le _ n w r i Hr Hi).
  apply (load_sub m2 out _ ((r * n + i) * w) w) in Hall; [done|].
  rewrite HlD. lia.
Qed.

Lemma roundtrip_data_slice_absent_witness :
  ∃ p m1 sl1 m2 sl2 to2,
    encode_1 (T := uint 1) ex_memory (Some ex_input)
      (Some (addr_add ex_input (length ex_data))) (Some <$> ex_slices) 2
    = Done (p, m1, sl1)
    ∧ decode (T := uint 1) m1 (<[1 := nullptr]> (Some <$> ex_slices)) 2
        (Some ex_output) (N.to_nat (num_chunks p)) = Done (m2, sl2, to2)
    ∧ (∀ r, r < N.to_nat (num_chunks p) →
         load m2 (Some (addr_add ex_output ((r * 2 + 1) * 1))) 1
         = Done (chunk 1 (padded ex_data (N.to_nat (num_chunks p) * 2 * 1))
                   (r * 2 + 1)))
    ∧ load m2 (Some ex_output) (N.to_nat (num_chunks p) * 2 * 1)
      = Done (padded ex_data (N.to_nat (num_chunks p) * 2 * 1))
    ∧ load m2 (Some ex_output) (length ex_data) = Done ex_data.
Proof.
  apply (roundtrip_data_slice_absent 1 2 1 ex_memory ex_input ex_output
           ex_data ex_slices).
  - lia.
  - lia.
  - lia.
  - unfold fits_size_t. simpl. lia.
  - unfold fits_size_t. simpl. lia.
  - unfold fits_size_t. simpl. lia.
  - reflexivity.
  - reflexivity.
  - reflexivity.
Defined.

(** C4. When no slice is absent or the absent one is the parity slice
    (whatever the entry slices[n] is), [decode] copies in each round the
    n data chunks in order from slices[0..n) to the output and leaves
    slices[n] alone; the output is the encoded data. *)
Theorem decode_pass_through (w n : nat) (m0 : memory) (ib out : address)
    (data : list byte) (addrs : list address) (parity : pointer) :
  1 ≤ n → 1 ≤ w →
  fits_size_t (length data) → fits_size_t (n * w) → fits_size_t (n + 1) →
  load m0 (Some ib) (length data) = Done data →
  encode_layout (shape m0) ib (length data) addrs n w = true →
  output_layout (shape m0) addrs out n w (rounds (length data) n w) = true →
  ∃ p m1 sl1 m2 sl2 to2,
    encode_1 (T := uint w) m0 (Some ib) (Some (addr_add ib (length data)))
      (Some <$> addrs) n = Done (p, m1, sl1)
    ∧ decode (T := uint w) m1 (<[n := parity]> (Some <$> addrs)) n (Some out)
        (N.to_nat (num_chunks p)) = Done (m2, sl2, to2)
    ∧ (∀ r i a, r < N.to_nat (num_chunks p) → i < n → addrs !! i = Some a →
         load m2 (Some (addr_add out ((r * n + i) * w))) w
         = load m1 (Some (addr_add a (r * w))) w)
    ∧ sl2 !! n = Some parity
    ∧ (∀ c, ¬ in_range out (N.to_nat (num_chunks p) * n * w) c →
            byte_at m2 c = byte_at m1 c)
    ∧ load m2 (Some out) (length data) = Done data.
Proof.
  intros Hn Hw Hlen Hfit Hfit1 Hdata Hlayout Hout.
  assert (Hla : length addrs = n + 1).
  { unfold encode_layout in Hlayout.
    repeat (apply andb_prop in Hlayout as [Hlayout ?]).
    by apply bool_decide_eq_true in Hlayout. }
  destruct (encode_decode_copy (U := uint_UIntT w) n m0 ib out data addrs
              Hn Hw Hlen Hfit Hfit1 Hdata Hlayout Hout
              (<[n := parity]> (Some <$> addrs)))
    as (m1 & m2 & sl2 & Henc & Hm1 & Hdec & Hm2 & Hsl2).
  { by rewrite length_insert, length_fmap. }
  { intros i Hi. apply list_lookup_insert_ne. lia. }
  pose proof (num_chunks_rounds (length data) n w Hn Hw Hlen) as Hnc.
  destruct (decoded_output (U := uint_UIntT w) n m0 ib out data addrs
              Hn Hw Hlayout Hout m1 m2 Hm1 Hm2) as [Hall Hcut].
  cbn [sizeof uint_UIntT] in *.
  eexists _, m1, _, m2, sl2, _. rewrite Hnc, Nat2N.id.
  split_and!; [exact Henc|exact Hdec| | | |exact Hcut].
  - intros r i a Hr Hi Ha.
    pose proof (encode_slot_load (U := uint_UIntT w) n m0 ib data addrs
                  Hn Hw Hlayout m1 i r a Hm1 ltac:(lia) Hr Ha) as Hl.
    cbn [sizeof uint_UIntT] in Hl. rewrite Hl.
    unfold enc_val; simpl. rewrite decide_True by done.
    pose proof (length_padded data (rounds (length data) n w * n * w)
                  (rounds_cover _ n w Hn Hw)) as HlD.
    rewrite <- HlD in Hall at 1.
    pose proof (flat_chunk_end_le _ n w r i Hr Hi).
    apply (load_sub m2 out _ ((r * n + i) * w) w) in Hall; [done|].
    rewrite HlD. lia.
  - destruct Hsl2 as [_ Hsl2]. rewrite (Hsl2 n parity).
    + rewrite decide_False by lia. destruct parity as [[b o]|]; simpl; [|done].
      by rewrite Nat.add_0_r.
    + apply list_lookup_insert_eq. rewrite length_fmap. lia.
  - intros c Hc.
    eapply (dec_frame (U := uint_UIntT w) n (rounds (length data) n w) m1
              (<[n := parity]> (Some <$> addrs)) out); [|exact Hm2|exact Hc].
    by rewrite length_insert, length_fmap.
Qed.

Lemma decode_pass_through_witness :
  ∃ p m1 sl1 m2 sl2 to2,
    encode_1 (T := uint 1) ex_memory (Some ex_input)
      (Some (addr_add ex_input (length ex_data))) (Some <$> ex_slices) 2
    = Done (p, m1, sl1)
    ∧ decode (T := uint 1) m1 (<[2 := nullptr]> (Some <$> ex_slices)) 2
        (Some ex_output) (N.to_nat (num_chunks p)) = Done (m2, sl2, to2)
    ∧ (∀ r i a, r < N.to_nat (num_chunks p) → i < 2 →
         ex_slices !! i = Some a →
         load m2 (Some (addr_add ex_output ((r * 2 + i) * 1))) 1
         = load m1 (Some (addr_add a (r * 1))) 1)
    ∧ sl2 !! 2 = Some nullptr
    ∧ (∀ c, ¬ in_range ex_output (N.to_nat (num_chunks p) * 2 * 1) c →
            byte_at m2 c = byte_at m1 c)
    ∧ load m2 (Some ex_output) (length ex_data) = Done ex_data.
Proof.
  apply (decode_pass_through 1 2 ex_memory ex_input ex_output ex_data
           ex_slices nullptr).
  - lia.
  - lia.
  - unfold fits_size_t. simpl. lia.
  - unfold fits_size_t. simpl. lia.
  - unfold fits_size_t. simpl. lia.
  - reflexivity.
  - reflexivity.
  - reflexivity.
Defined.

(** C6. In the partial round a data chunk is read from
    min(remaining input bytes, W) available bytes: these bytes followed
    by zero bytes up to W bytes are the chunk, the W bytes are written to
    the slice as they are, the slice pointer moves by W and the input
    cursor by the available byte count only. *)
Theorem partial_chunk_zero_padded (w i : nat) (m : memory) (ib a : address)
    (pos len : nat) (parity : Z) (slices : list pointer) (bs : list byte) :
  pos ≤ len → fits_size_t len →
  load m (Some (addr_add ib pos)) ((len - pos) `min` w) = Done bs →
  slices !! i = Some (Some a) →
  valid_range (shape m) a w = true →
  ∃ m',
    encode_partial_chunk (T := uint w) (Some (addr_add ib len)) i
      (m, Some (addr_add ib pos), parity, slices)
    = Done (m', Some (addr_add ib (pos + (len - pos) `min` w)),
            Z.lxor parity
              (le_decode (bs ++ replicate (w - (len - pos) `min` w) x00)),
            <[i := Some (addr_add a w)]> slices)
    ∧ load m' (Some a) w
      = Done (bs ++ replicate (w - (len - pos) `min` w) x00).
Proof.
  intros Hpos Hlen Hbs Hi Ha.
  set (avail := (len - pos) `min` w) in *.
  assert (Hlbs : length bs = avail) by (by apply load_Done in Hbs as (_ & ? & _)).
  set (padded_chunk := bs ++ replicate (w - avail) x00).
  assert (Hlp : length padded_chunk = w).
  { unfold padded_chunk. rewrite length_app, length_replicate. lia. }
  destruct (store_Done m a padded_chunk) as (m' & Hst & Hsh & Hnew & _).
  { by rewrite Hlp. }
  exists m'. split.
  - unfold encode_partial_chunk, distance; simpl blk.
    rewrite decide_True by done. rewrite bind_Done.
    cbn [sizeof uint_UIntT xor].
    replace (N.to_nat (N.min _ _)) with avail.
    2:{ unfold size_t_of_Z, fits_size_t in *; simpl off.
        rewrite Z.mod_small by lia. lia. }
    unfold from_bytes_cast_padded. cbn [sizeof uint_UIntT from_bytes].
    rewrite Hbs, bind_Done. rewrite decide_True by lia. rewrite bind_Done.
    replace (list_inserts 0 bs (replicate w x00)) with padded_chunk.
    2:{ assert (replicate w x00
                = replicate avail x00 ++ replicate (w - avail) x00) as ->.
        { rewrite <- replicate_add. f_equal. lia. }
        symmetry. apply list_inserts_0_r. by rewrite length_replicate. }
    unfold index. rewrite Hi, bind_Done.
    unfold to_bytes_cast. cbn [to_bytes uint_UIntT].
    assert (le_encode w (le_decode padded_chunk) = padded_chunk) as ->.
    { rewrite <- Hlp. apply le_encode_decode. }
    rewrite Hst, bind_Done.
    by rewrite (ptr_add_addr ib pos avail (pos + avail)).
  - apply load_Done. rewrite Hsh. split_and!; [done..|].
    intros j Hj. apply Hnew. lia.
Qed.

Lemma partial_chunk_zero_padded_witness :
  ∃ m',
    encode_partial_chunk (T := uint 2) (Some (addr_add ex_input 5)) 0
      (ex_memory, Some (addr_add ex_input 4), 0%Z, Some <$> ex_slices)
    = Done (m', Some (addr_add ex_input (4 + (5 - 4) `min` 2)),
            Z.lxor 0
              (le_decode ([x05] ++ replicate (2 - (5 - 4) `min` 2) x00)),
            <[0 := Some (addr_add (Addr 1 0) 2)]> (Some <$> ex_slices))
    ∧ load m' (Some (Addr 1 0)) 2
      = Done ([x05] ++ replicate (2 - (5 - 4) `min` 2) x00).
Proof.
  apply (partial_chunk_zero_padded 2 0 ex_memory ex_input (Addr 1 0) 4 5 0%Z
           (Some <$> ex_slices) [x05]).
  - lia.
  - unfold fits_size_t. lia.
  - reflexivity.
  - reflexivity.
  - reflexivity.
Defined.



(** C7 as stated fails: [decode] with two absent slices reports nothing.
    With no chunk to decode it returns normally, and with three chunks it
    reads through the null pointer of the second absent slice. *)
Lemma multiple_absent_counterexample :
  decode (T := uint 1) ex_encoded ex_two_absent 2 (Some ex_output) 0
  = Done (ex_encoded, ex_two_absent, Some ex_output)
  ∧ decode (T := uint 1) ex_encoded ex_two_absent 2 (Some ex_output) 3
    = Undefined NullPointer.
Proof. split; reflexivity. Qed.

(** C7, amended. [decode] only looks for the first nullptr among
    slices[0..n] and has no check for a second one.  When more than one
    entry is nullptr no error is reported: with chunks = 0 the call
    returns normally and leaves memory, pointers and output cursor as
    they were, and with chunks ≥ 1 its behaviour is undefined. *)
Theorem multiple_absent_unchecked (w n chunks i j : nat) (m : memory)
    (slices : list pointer) (to : pointer) :
  length slices = n + 1 → fits_size_t (n + 1) →
  i < j → j ≤ n → slices !! i = Some nullptr → slices !! j = Some nullptr →
  (chunks = 0 →
   decode (T := uint w) m slices n to chunks = Done (m, slices, to))
  ∧ (1 ≤ chunks →
     ∃ f, decode (T := uint w) m slices n to chunks = Undefined f).
Proof.
  intros Hl Hfit Hij Hj Hi0 Hj0. unfold fits_size_t in Hfit.
  assert (Hcount : N.to_nat (size_t_wrap (N.of_nat n + 1)) = n + 1).
  { unfold size_t_wrap. rewrite N.mod_small by lia. lia. }
  split.
  - intros ->. unfold decode. rewrite Hcount.
    destruct (find_null_total slices 0 (n + 1)) as [k ->]; [lia|].
    rewrite bind_Done. by case_decide.
  - intros Hc. apply not_Done_Undefined. intros st Hst.
    destruct (decode_Done_valid (U := uint_UIntT w) n m slices to chunks st Hst)
      as (k & Hk & _ & Hv).
    rewrite Hcount in Hk.
    apply find_null_inv in Hk as (_ & Hpres & _).
    assert (Hki : k ≤ i).
    { destruct (decide (k ≤ i)); [done|].
      destruct (Hpres i) as [a Ha]; [lia|congruence]. }
    rewrite decide_False in Hv by lia.
    set (x := if decide (k = i) then j else i).
    assert (Hx : x ≤ n ∧ x ≠ k ∧ slices !! x = Some nullptr).
    { unfold x. case_decide; split_and!; try done; lia. }
    destruct Hx as (Hxn & Hxk & Hx0).
    destruct (Hv x 0) as (a & Ha & _); [|congruence].
    unfold rec_served, enc_prog. repeat case_decide; lia.
Qed.

Lemma multiple_absent_unchecked_witness :
  decode (T := uint 1) ex_encoded ex_two_absent 2 (Some ex_output) 0
  = Done (ex_encoded, ex_two_absent, Some ex_output)
  ∧ ∃ f, decode (T := uint 1) ex_encoded ex_two_absent 2 (Some ex_output) 3
         = Undefined f.
Proof.
  split.
  - apply (multiple_absent_unchecked 1 2 0 0 1 ex_encoded ex_two_absent
             (Some ex_output)).
    + reflexivity.
    + unfold fits_size_t. simpl. lia.
    + lia.
    + lia.
    + reflexivity.
    + reflexivity.
    + reflexivity.
  - apply (multiple_absent_unchecked 1 2 3 0 1 ex_encoded ex_two_absent
             (Some ex_output)).
    + reflexivity.
    + unfold fits_size_t. simpl. lia.
    + lia.
    + lia.
    + reflexivity.
    + reflexivity.
    + lia.
Defined.

(** C8 as stated fails: with n = 0 both the properties computation and
    [encode_1] divide by zero. *)
Lemma zero_slices_counterexample :
  ida_properties (T := uint 1) (Some ex_input)
    (Some (addr_add ex_input (length ex_data))) 0
  = Undefined DivisionByZero
  ∧ encode_1 (T := uint 1) ex_memory (Some ex_input)
      (Some (addr_add ex_input (length ex_data))) (Some <$> ex_slices) 0
    = Undefined DivisionByZero.
Proof. split; reflexivity. Qed.

(** C8, amended. For n = 0 or W = 0 neither the properties computation
    nor [encode_1] checks its parameters: the round size n·W is zero and
    full_rounds is computed by a division by zero, which is undefined
    behaviour; in [encode_1] this comes before any access to a buffer,
    whatever the memory and the slice pointers are. *)
Theorem zero_round_size_divides_by_zero (w n : nat) (m : memory)
    (in_begin in_end : pointer) (slices : list pointer) (d : Z) :
  n = 0 ∨ w = 0 →
  distance in_begin in_end = Done d →
  ida_properties (T := uint w) in_begin in_end n = Undefined DivisionByZero
  ∧ encode_1 (T := uint w) m in_begin in_end slices n
    = Undefined DivisionByZero.
Proof.
  intros Hz Hd.
  assert (Hp : ida_properties (T := uint w) in_begin in_end n
               = Undefined DivisionByZero).
  { unfold ida_properties. rewrite Hd, bind_Done. cbn [sizeof uint_UIntT].
    rewrite decide_True; [done|].
    assert (N.of_nat n * N.of_nat w = 0)%N as -> by (destruct Hz; subst; lia).
    done. }
  split; [done|]. unfold encode_1. by rewrite Hp.
Qed.

Lemma zero_round_size_divides_by_zero_witness :
  ida_properties (T := uint 0) (Some ex_input)
    (Some (addr_add ex_input (length ex_data))) 2
  = Undefined DivisionByZero
  ∧ encode_1 (T := uint 0) ex_memory (Some ex_input)
      (Some (addr_add ex_input (length ex_data))) (Some <$> ex_slices) 2
    = Undefined DivisionByZero.
Proof.
  apply (zero_round_size_divides_by_zero 0 2 ex_memory (Some ex_input)
           (Some (addr_add ex_input (length ex_data))) (Some <$> ex_slices) 5).
  - by right.
  - reflexivity.
Defined.

(** C9 as stated fails: no length is checked.  With a first slice one
    byte short [encode_1] writes past its end, and with an output one
    byte short [decode] writes past its end. *)
Lemma short_buffer_counterexample :
  encode_1 (T := uint 1) ex_short_memory (Some ex_input)
    (Some (addr_add ex_input (length ex_data))) (Some <$> ex_slices) 2
  = Undefined OutOfBounds
  ∧ decode (T := uint 1) ex_short_output (Some <$> ex_slices) 2
      (Some ex_output) 3
    = Undefined OutOfBounds.
Proof. split; reflexivity. Qed.

(** C9, amended. [encode_1] and [decode] check no buffer length.  A call
    of [encode_1] on a non-empty input in which a slice is shorter than
    the num_chunks()·W bytes written to it, and a call of [decode] with
    chunks ≥ 1 in which the output is shorter than chunks·n·W bytes or a
    data slice is shorter than the chunks·W bytes read from it, is not
    rejected as a LengthMismatch: it accesses the buffer out of bounds,
    which is undefined behaviour. *)
Theorem short_buffer_unchecked (w n : nat) :
  1 ≤ n → 1 ≤ w →
  (∀ (m : memory) (ib : address) (len : nat) (addrs : list address)
     (i : nat) (a : address),
     fits_size_t len → fits_size_t (n * w) → 0 < len →
     i ≤ n → addrs !! i = Some a →
     valid_range (shape m) a (rounds len n w * w) = false →
     ∃ f, encode_1 (T := uint w) m (Some ib) (Some (addr_add ib len))
            (Some <$> addrs) n = Undefined f)
  ∧ (∀ (m : memory) (slices : list pointer) (out : address) (chunks : nat),
       fits_size_t (n + 1) → 1 ≤ chunks →
       valid_range (shape m) out (chunks * n * w) = false
       ∨ (∃ i a, i < n ∧ slices !! i = Some (Some a)
                 ∧ valid_range (shape m) a (chunks * w) = false) →
       ∃ f, decode (T := uint w) m slices n (Some out) chunks = Undefined f).
Proof.
  intros Hn Hw. split.
  - intros m ib len addrs i a Hlen Hfit Hpos Hi Ha Hshort.
    apply not_Done_Undefined. intros [[p m1] sl1] Henc.
    pose proof (encode_1_Done_valid (U := uint_UIntT w) n m (Some <$> addrs)
                  _ _ p m1 sl1 Henc) as Hv.
    assert (Hp : p = {| full_rounds := N.of_nat (len / (n * w));
                        partial_round := negb (len mod (n * w) =? 0) |}).
    { unfold encode_1 in Henc.
      rewrite (ida_properties_spec (U := uint_UIntT w) ib len n Hn Hw) in Henc.
      - rewrite bind_Done in Henc.
        apply bind_Done_inv in Henc as ([[m2 ib2] sl2] & _ & Hrest).
        cbn [partial_round] in Hrest. destruct (negb _).
        + by apply bind_Done_inv in Hrest as ([[m3 ib3] sl3] & _ & [= <- _ _]).
        + by injection Hrest as <- _ _.
      - unfold fits_size_t in Hfit. by rewrite Nat2N.inj_mul in Hfit.
      - done. }
    assert (HR : N.to_nat (full_rounds p) + (if partial_round p then 1 else 0)
                 = rounds len n w).
    { subst p. cbn [full_rounds partial_round]. unfold rounds.
      rewrite Nat2N.id. by destruct (len mod (n * w) =? 0). }
    assert (HR1 : 1 ≤ rounds len n w).
    { pose proof (rounds_cover len n w Hn Hw).
      destruct (rounds len n w); lia. }
    destruct (Hv i (rounds len n w - 1)) as (a' & Ha' & Hva); [done|lia|].
    rewrite list_lookup_fmap, Ha in Ha'. injection Ha' as <-.
    cbn [sizeof uint_UIntT] in Hva.
    apply valid_range_last in Hva; [congruence|done].
  - intros m slices out chunks Hfit Hc Hshort.
    apply not_Done_Undefined. intros st Hst.
    destruct (decode_Done_valid (U := uint_UIntT w) n m slices (Some out)
                chunks st Hst) as (k & Hk & Hout & Hv).
    cbn [sizeof uint_UIntT] in Hout, Hv.
    destruct Hshort as [Hshort|(i & a & Hi & Ha & Hshort)].
    + destruct (Hout (chunks * n - 1)) as (o & [= <-] & Hvo); [nia|done|].
      apply valid_range_last in Hvo; [congruence|nia].
    + unfold fits_size_t in Hfit.
      assert (Hcount : N.to_nat (size_t_wrap (N.of_nat n + 1)) = n + 1).
      { unfold size_t_wrap. rewrite N.mod_small by lia. lia. }
      rewrite Hcount in Hk. apply find_null_inv in Hk as (_ & _ & Hnone).
      assert (Hik : n ≤ k ∨ i ≠ k).
      { destruct (decide (n ≤ k)); [by left|right].
        intros ->. rewrite Hnone in Ha by lia. done. }
      destruct (Hv i (chunks - 1)) as (a' & Ha' & Hva).
      { unfold copy_prog, rec_served, enc_prog. repeat case_decide; lia. }
      rewrite Ha in Ha'. injection Ha' as <-.
      apply valid_range_last in Hva; [congruence|done].
Qed.

Lemma short_buffer_unchecked_witness :
  (∃ f, encode_1 (T := uint 1) ex_short_memory (Some ex_input)
          (Some (addr_add ex_input 5)) (Some <$> ex_slices) 2 = Undefined f)
  ∧ (∃ f, decode (T := uint 1) ex_short_output (Some <$> ex_slices) 2
            (Some ex_output) 3 = Undefined f).
Proof.
  split.
  - apply (proj1 (short_buffer_unchecked 1 2 ltac:(lia) ltac:(lia))
             ex_short_memory ex_input 5 ex_slices 0 (Addr 1 0)).
    + unfold fits_size_t. simpl. lia.
    + unfold fits_size_t. simpl. lia.
    + lia.
    + lia.
    + reflexivity.
    + reflexivity.
  - apply (proj2 (short_buffer_unchecked 1 2 ltac:(lia) ltac:(lia))
             ex_short_output (Some <$> ex_slices) ex_output 3).
    + unfold fits_size_t. simpl. lia.
    + lia.
    + left. reflexivity.
Defined.

(** * Further properties of the code *)

(** ** The benchmark helpers of test_1.cpp *)

Lemma generate_data_loop_spec (fuel size : nat) (data : list byte) :
  length data + fuel = size →
  generate_data_loop fuel size data
  = Some (data ++ ((λ i, byte_of_Z (Z.of_nat (i mod 256)))
                     <$> seq (length data) fuel)).
Proof.
  revert data. induction fuel as [|fuel IH]; intros data Hl; simpl.
  - rewrite decide_True by lia. by rewrite app_nil_r.
  - rewrite decide_False by lia. rewrite IH.
    + rewrite length_app; simpl. rewrite <- app_assoc; simpl.
      by rewrite Nat.add_1_r.
    + rewrite length_app; simpl. lia.
Qed.

Lemma generate_data_spec (size : nat) :
  generate_data size
  = Some ((λ i, byte_of_Z (Z.of_nat (i mod 256))) <$> seq 0 size).
Proof. unfold generate_data. by rewrite generate_data_loop_spec. Qed.

(** X1. [generate_data] returns, for every size, a vector of exactly
    that many bytes whose byte at index i is i modulo 256. *)
Theorem generate_data_bytes (size : nat) :
  ∃ data, generate_data size = Some data
    ∧ length data = size
    ∧ ∀ i, i < size → data !! i = Some (byte_of_Z (Z.of_nat (i mod 256))).
Proof.
  rewrite generate_data_spec. eexists. split; [done|]. split.
  - by rewrite length_fmap, length_seq.
  - intros i Hi. by rewrite list_lookup_fmap, lookup_seq_lt by done.
Qed.

(** X2. [mbs] never divides by zero for a 64-bit millisecond count: it
    is 0 when the count is zero or negative, and otherwise, when
    1000·size fits a [size_t], the number of bytes per second divided
    by 2^20, rounded down at each division. *)
Theorem mbs_throughput (size : N) (ms : Z) :
  (- 2 ^ 63 ≤ ms < 2 ^ 63)%Z →
  ∃ v, mbs size ms = Done v
    ∧ ((ms ≤ 0)%Z → v = 0%N)
    ∧ ((0 < ms)%Z → (1000 * size < 2 ^ 64)%N →
       v = (1000 * size / Z.to_N ms / 2 ^ 20)%N).
Proof.
  intros Hms. unfold mbs. case_decide as Hz.
  - exists 0%N. split; [done|]. split; [done|lia].
  - assert (Hd : size_t_of_Z ms
                 = if decide (0 < ms)%Z then Z.to_N ms
                   else Z.to_N (2 ^ 64 + ms)).
    { unfold size_t_of_Z. case_decide.
      - by rewrite Z.mod_small by lia.
      - f_equal. rewrite <- (Z.mod_add ms 1) by lia.
        rewrite Z.mod_small by lia. lia. }
    rewrite decide_False by (rewrite Hd; case_decide; lia).
    eexists. split; [done|]. split.
    + intros Hle. rewrite Hd, decide_False by lia.
      assert (Hp : (size_t_wrap (1000 * size) < 2 ^ 64)%N).
      { unfold size_t_wrap. by apply N.mod_lt. }
      assert (Hq : (size_t_wrap (1000 * size) / Z.to_N (2 ^ 64 + ms) < 2)%N).
      { apply N.Div0.div_lt_upper_bound. lia. }
      apply N.div_small. change (1024 * 1024)%N with 1048576%N. lia.
    + intros Hpos Hfit. rewrite Hd, decide_True by done.
      unfold size_t_wrap. by rewrite N.mod_small by done.
Qed.

Lemma mbs_throughput_witness :
  ∃ v, mbs 5242880 5 = Done v
    ∧ ((5 ≤ 0)%Z → v = 0%N)
    ∧ ((0 < 5)%Z → (1000 * 5242880 < 2 ^ 64)%N →
       v = (1000 * 5242880 / Z.to_N 5 / 2 ^ 20)%N).
Proof. apply (mbs_throughput 5242880 5). lia. Defined.


(** ** [ida_properties] and [encode_1] at the edges *)

Lemma layout_length_addrs (sh : list nat) (ib : address) (len : nat)
    (addrs : list address) (n w : nat) :
  encode_layout sh ib len addrs n w = true → length addrs = n + 1.
Proof.
  unfold encode_layout. intros Hlayout.
  repeat (apply andb_prop in Hlayout as [Hlayout ?]).
  by apply bool_decide_eq_true in Hlayout.
Qed.

Lemma layout_input_disjoint (sh : list nat) (ib : address) (len : nat)
    (addrs : list address) (n w i : nat) (a : address) :
  encode_layout sh ib len addrs n w = true → addrs !! i = Some a →
  disjoint ib len a (rounds len n w * w) = true.
Proof.
  unfold encode_layout. intros Hlayout Ha.
  repeat (apply andb_prop in Hlayout as [Hlayout ?]).
  by eapply (forallb_lookup (λ a, disjoint _ _ a _)).
Qed.

Lemma encode_1_empty {T : Type} {U : UIntT T} (n : nat) (m : memory)
    (p : pointer) (slices : list pointer) :
  size_t_wrap (N.of_nat n * N.of_nat sizeof) ≠ 0%N →
  encode_1 m p p slices n
  = Done ({| full_rounds := 0; partial_round := false |}, m, slices).
Proof.
  intros Hrs. unfold encode_1, ida_properties.
  assert (distance p p = Done 0%Z) as ->.
  { destruct p as [a|]; simpl; [|done].
    rewrite decide_True by done. f_equal. lia. }
  rewrite bind_Done. cbv zeta.
  change (size_t_of_Z 0) with 0%N.
  rewrite decide_False by done.
  rewrite bind_Done. cbn [full_rounds partial_round].
  rewrite N.Div0.div_0_l, N.Div0.mod_0_l. done.
Qed.





(** X5. [encode_1] does not change its input, nor the size of any
    array: after the call the input range still holds the input. *)
Theorem encode_1_keeps_input (w n : nat) (m0 : memory) (ib : address)
    (data : list byte) (addrs : list address) :
  1 ≤ n → 1 ≤ w → fits_size_t (length data) → fits_size_t (n * w) →
  load m0 (Some ib) (length data) = Done data →
  encode_layout (shape m0) ib (length data) addrs n w = true →
  ∃ p m1 sl1,
    encode_1 (T := uint w) m0 (Some ib) (Some (addr_add ib (length data)))
      (Some <$> addrs) n = Done (p, m1, sl1)
    ∧ shape m1 = shape m0
    ∧ load m1 (Some ib) (length data) = Done data.
Proof.
  intros Hn Hw Hlen Hfit Hdata Hlayout. unfold fits_size_t in *.
  assert (Hfit' : (N.of_nat n * N.of_nat w < 2 ^ 64)%N).
  { by rewrite <- Nat2N.inj_mul. }
  destruct (encode_1_spec (U := uint_UIntT w) n m0 ib data addrs
              Hn Hw Hlayout Hdata Hlen Hfit') as (m1 & Henc & Hm1).
  cbn [sizeof uint_UIntT] in *.
  eexists _, m1, _. split; [exact Henc|].
  assert (Hsh : shape m1 = shape m0) by apply Hm1.
  split; [done|]. rewrite <- Hdata. apply load_frame; [done|].
  intros j Hj.
  apply (encode_frame (U := uint_UIntT w) n m0 ib data addrs
           Hn Hw Hlayout Hlen Hfit' m1 _ Hm1).
  intros i a Ha Hin.
  pose proof (layout_input_disjoint _ _ _ _ _ _ i a Hlayout Ha) as Hd.
  apply (proj1 (disjoint_spec _ _ _ _) Hd (addr_add ib j)); [|done].
  unfold in_range, addr_add; simpl. lia.
Qed.

Lemma encode_1_keeps_input_witness :
  ∃ p m1 sl1,
    encode_1 (T := uint 1) ex_memory (Some ex_input)
      (Some (addr_add ex_input (length ex_data))) (Some <$> ex_slices) 2
    = Done (p, m1, sl1)
    ∧ shape m1 = shape ex_memory
    ∧ load m1 (Some ex_input) (length ex_data) = Done ex_data.
Proof.
  apply (encode_1_keeps_input 1 2 ex_memory ex_input ex_data ex_slices).
  - lia.
  - lia.
  - unfold fits_size_t. simpl. lia.
  - unfold fits_size_t. simpl. lia.
  - reflexivity.
  - reflexivity.
Defined.

(** X6. With a single data slice (n = 1) the parity slice is a copy of
    the data slice: after [encode_1] both hold the same chunk in every
    round, the zero-padded input. *)
Theorem single_slice_is_mirrored (w : nat) (m0 : memory) (ib a0 a1 : address)
    (data : list byte) :
  1 ≤ w → fits_size_t (length data) → fits_size_t w →
  load m0 (Some ib) (length data) = Done data →
  encode_layout (shape m0) ib (length data) [a0; a1] 1 w = true →
  ∃ p m1 sl1,
    encode_1 (T := uint w) m0 (Some ib) (Some (addr_add ib (length data)))
      [Some a0; Some a1] 1 = Done (p, m1, sl1)
    ∧ ∀ r, r < N.to_nat (num_chunks p) →
        load m1 (Some (addr_add a1 (r * w))) w
        = load m1 (Some (addr_add a0 (r * w))) w
        ∧ load m1 (Some (addr_add a0 (r * w))) w
          = Done (chunk w (padded data (N.to_nat (num_chunks p) * w)) r).
Proof.
  intros Hw Hlen Hfit Hdata Hlayout. unfold fits_size_t in *.
  assert (Hn : 1 ≤ 1) by lia.
  assert (Hfit' : (N.of_nat 1 * N.of_nat w < 2 ^ 64)%N) by lia.
  destruct (encode_1_spec (U := uint_UIntT w) 1 m0 ib data [a0; a1]
              Hn Hw Hlayout Hdata Hlen Hfit') as (m1 & Henc & Hm1).
  cbn [sizeof uint_UIntT] in *.
  eexists _, m1, _. split; [exact Henc|].
  rewrite num_chunks_rounds, Nat2N.id by done.
  intros r Hr.
  pose proof (encode_slot_load (U := uint_UIntT w) 1 m0 ib data [a0; a1]
                Hn Hw Hlayout m1 0 r a0 Hm1 ltac:(lia) Hr eq_refl) as H0.
  pose proof (encode_slot_load (U := uint_UIntT w) 1 m0 ib data [a0; a1]
                Hn Hw Hlayout m1 1 r a1 Hm1 ltac:(lia) Hr eq_refl) as H1.
  cbn [sizeof uint_UIntT] in H0, H1. rewrite H0, H1.
  unfold enc_val; simpl. unfold round_chunks, round_vals, xor_all; simpl.
  rewrite !Nat.mul_1_r, Nat.add_0_r.
  pose proof (length_chunk w (padded data (rounds (length data) 1 w * w)) r)
    as Hlc.
  assert (Hl : length (chunk w (padded data (rounds (length data) 1 w * w)) r)
               = w).
  { pose proof (rounds_cover (length data) 1 w Hn Hw) as Hc.
    unfold chunk. rewrite length_take, length_drop, length_padded by lia.
    pose proof (chunk_end_le _ w r Hr). lia. }
  rewrite <- Hl at 1. by rewrite bytes_xor_zero_l.
Qed.

Lemma single_slice_is_mirrored_witness :
  ∃ p m1 sl1,
    encode_1 (T := uint 1) ex_memory (Some ex_input)
      (Some (addr_add ex_input (length [x01; x02; x03])))
      [Some (Addr 1 0); Some (Addr 2 0)] 1 = Done (p, m1, sl1)
    ∧ ∀ r, r < N.to_nat (num_chunks p) →
        load m1 (Some (addr_add (Addr 2 0) (r * 1))) 1
        = load m1 (Some (addr_add (Addr 1 0) (r * 1))) 1
        ∧ load m1 (Some (addr_add (Addr 1 0) (r * 1))) 1
          = Done (chunk 1 (padded [x01; x02; x03]
                             (N.to_nat (num_chunks p) * 1)) r).
Proof.
  apply (single_slice_is_mirrored 1 ex_memory ex_input (Addr 1 0) (Addr 2 0)
           [x01; x02; x03]).
  - lia.
  - unfold fits_size_t. simpl. lia.
  - unfold fits_size_t. simpl. lia.
  - reflexivity.
  - reflexivity.
Defined.


(** ** [decode] on slices of any content *)

Lemma load_valid (m : memory) (a : address) (k : nat) :
  valid_range (shape m) a k = true →
  ∃ bs, load m (Some a) k = Done bs ∧ length bs = k.
Proof.
  intros (bytes & Hb & Hle)%valid_range_spec. unfold load; simpl.
  rewrite Hb, decide_True by done. eexists. split; [done|].
  rewrite length_take, length_drop. lia.
Qed.

Lemma slice_chunk_load (m : memory) (sls : list pointer) (w R i r : nat)
    (a : address) :
  sls !! i = Some (Some a) → valid_range (shape m) a (R * w) = true → r < R →
  load m (Some (addr_add a (r * w))) w = Done (slice_chunk m sls w i r)
  ∧ length (slice_chunk m sls w i r) = w.
Proof.
  intros Hi Hv Hr. unfold slice_chunk. rewrite Hi.
  change (ptr_add (Some a) (r * w)) with (Some (addr_add a (r * w))).
  destruct (load_valid m (addr_add a (r * w)) w) as (bs & -> & Hl); [|done].
  eapply valid_range_le; [done|]. by apply chunk_end_le.
Qed.

Lemma readable_slices_lookup (sh : list nat) (addrs : list address)
    (out : address) (n w R i : nat) (a : address) :
  readable_slices sh addrs out n w R = true → addrs !! i = Some a →
  valid_range sh a (R * w) = true
  ∧ disjoint a (R * w) out (R * n * w) = true.
Proof.
  intros Hr Ha. unfold readable_slices in Hr.
  pose proof (forallb_lookup _ _ i a Hr Ha) as Hb. simpl in Hb.
  by apply andb_prop in Hb.
Qed.

Lemma flat_index (n r i : nat) :
  i < n → (r * n + i) mod n = i ∧ (r * n + i) / n = r.
Proof.
  intros Hi. rewrite (Nat.add_comm (r * n) i).
  rewrite Nat.Div0.mod_add, Nat.div_add by lia.
  rewrite Nat.mod_small, Nat.div_small by done. done.
Qed.

(** The chunks the decoder has written can be read back. *)
Lemma decoded_chunk_load (n R w : nat) (m1 m2 : memory) (out : address)
    (val : nat → list byte) (k : nat) :
  written (dec_ok n R) (dec_tgt out w) val w m1 (dec_done (R * n) None) m2 →
  valid_range (shape m1) out (R * n * w) = true →
  k < R * n → length (val k) = w →
  load m2 (Some (addr_add out (k * w))) w = Done (val k).
Proof.
  intros (Hsh & Hw & _) Hout Hk Hl. apply load_Done. rewrite Hsh.
  split_and!; [|done|].
  - eapply valid_range_le; [done|]. by apply chunk_end_le.
  - intros j Hj. apply (Hw k j); [|done]. split; [done|]. by intros [=].
Qed.

Lemma decoded_frame (n R w : nat) (m1 m2 : memory) (out : address)
    (val : nat → list byte) (done : nat → Prop) (c : address) :
  written (dec_ok n R) (dec_tgt out w) val w m1 done m2 →
  ¬ in_range out (R * n * w) c → byte_at m2 c = byte_at m1 c.
Proof.
  intros (_ & _ & Hfr) Hc. apply Hfr. intros k Hk Hin. apply Hc.
  pose proof (chunk_end_le (R * n) w k Hk).
  unfold in_range, dec_tgt in *; simpl in *. lia.
Qed.

Lemma interleaved_flat (m : memory) (sls : list pointer) (w n r i : nat) :
  i < n → interleaved m sls w n (r * n + i) = slice_chunk m sls w i r.
Proof.
  intros Hi. unfold interleaved. by destruct (flat_index n r i Hi) as [-> ->].
Qed.

(** Pass-through decoding of slices of any content, for any chunk
    type: the output is the interleaving of the data slices. *)
Lemma decode_copy_any {T : Type} {U : UIntT T} (n R : nat) (m1 : memory)
    (addrs : list address) (parity : pointer) (out : address) :
  fits_size_t (n + 1) → length addrs = n →
  valid_range (shape m1) out (R * n * sizeof) = true →
  readable_slices (shape m1) addrs out n sizeof R = true →
  (∀ k, k < R * n →
     length (interleaved m1 (Some <$> addrs) sizeof n k) = sizeof)
  ∧ ∃ m2 sl2,
      decode m1 ((Some <$> addrs) ++ [parity]) n (Some out) R
      = Done (m2, sl2, Some (addr_add out (R * n * sizeof)))
      ∧ written (dec_ok n R) (dec_tgt out sizeof)
          (interleaved m1 (Some <$> addrs) sizeof n) sizeof m1
          (dec_done (R * n) None) m2
      ∧ sl2 !! n = Some parity.
Proof.
  intros Hfit Hla Hout Hread. unfold fits_size_t in Hfit.
  set (w := sizeof) in *.
  set (sls := (Some <$> addrs) ++ [parity]).
  set (val := interleaved m1 (Some <$> addrs) w n).
  assert (Hlook : ∀ i, i < n → ∃ a, addrs !! i = Some a
                          ∧ sls !! i = Some (Some a)).
  { intros i Hi. destruct (lookup_lt_is_Some_2 addrs i) as [a Ha]; [lia|].
    exists a. split; [done|]. unfold sls.
    rewrite lookup_app_l by (rewrite length_fmap; lia).
    by rewrite list_lookup_fmap, Ha. }
  assert (Hchunk : ∀ i a r, i < n → sls !! i = Some (Some a) → r < R →
            load m1 (Some (addr_add a (r * w))) w = Done (val (r * n + i))
            ∧ length (val (r * n + i)) = w).
  { intros i a r Hi Ha Hr. destruct (Hlook i Hi) as (a' & Ha' & Hs).
    rewrite Ha in Hs. injection Hs as <-.
    destruct (readable_slices_lookup _ _ _ _ _ _ i a Hread Ha') as [Hv Hd].
    unfold val. rewrite interleaved_flat by done.
    apply (slice_chunk_load m1 (Some <$> addrs) w R i r a);
      [by rewrite list_lookup_fmap, Ha'|done..]. }
  assert (Hdisj : ∀ i a, i < n → sls !! i = Some (Some a) →
            disjoint a (R * w) out (R * n * w) = true).
  { intros i a Hi Ha. destruct (Hlook i Hi) as (a' & Ha' & Hs).
    rewrite Ha in Hs. injection Hs as <-.
    by destruct (readable_slices_lookup _ _ _ _ _ _ i a Hread Ha'). }
  assert (Hval : ∀ k, k < R * n → length (val k) = w).
  { intros k Hk.
    assert (Hn : n ≠ 0) by (intros ->; lia).
    pose proof (Nat.div_mod_eq k n) as Hdm.
    pose proof (Nat.mod_upper_bound k n Hn) as Hlt.
    assert (Hr : k / n < R).
    { apply Nat.Div0.div_lt_upper_bound. lia. }
    destruct (Hlook (k mod n) Hlt) as (a & _ & Ha).
    destruct (Hchunk (k mod n) a (k / n) Hlt Ha Hr) as (_ & Hl).
    replace (k / n * n + k mod n) with k in Hl by lia. exact Hl. }
  split; [exact Hval|].
  destruct (decode_copy_spec n R m1 sls out val)
    as (m2 & sl2 & Hdec & Hm2 & [_ Hsl2]).
  - unfold sls. rewrite length_app, length_fmap. simpl. lia.
  - exact Hval.
  - exact Hout.
  - exact Hdisj.
  - intros i a r Hi Ha Hr. by destruct (Hchunk i a r Hi Ha Hr).
  - intros i Hi. destruct (Hlook i Hi) as (a & _ & Ha). by exists a.
  - lia.
  - exists m2, sl2. split_and!; [exact Hdec|exact Hm2|].
    rewrite (Hsl2 n parity).
    + rewrite decide_False by lia. by rewrite Nat.mul_0_l, ptr_add_0.
    + unfold sls. rewrite lookup_app_r by (rewrite length_fmap; lia).
      rewrite length_fmap, Hla, Nat.sub_diag. done.
Qed.

(** X7. Whatever the slices hold, [decode] with all n data slices
    present interleaves them: chunk r of slice i becomes chunk r·n + i
    of the output.  The entry slices[n] may be anything (absent,
    dangling or valid): it is neither read nor changed, nothing but the
    output range is written and every array keeps its size. *)
Theorem decode_interleaves (w n R : nat) (m1 : memory)
    (addrs : list address) (parity : pointer) (out : address) :
  fits_size_t (n + 1) → length addrs = n →
  valid_range (shape m1) out (R * n * w) = true →
  readable_slices (shape m1) addrs out n w R = true →
  ∃ m2 sl2,
    decode (T := uint w) m1 ((Some <$> addrs) ++ [parity]) n (Some out) R
    = Done (m2, sl2, Some (addr_add out (R * n * w)))
    ∧ (∀ r i, r < R → i < n →
         load m2 (Some (addr_add out ((r * n + i) * w))) w
         = Done (slice_chunk m1 (Some <$> addrs) w i r))
    ∧ (∀ c, ¬ in_range out (R * n * w) c → byte_at m2 c = byte_at m1 c)
    ∧ shape m2 = shape m1
    ∧ sl2 !! n = Some parity.
Proof.
  intros Hfit Hla Hout Hread.
  destruct (decode_copy_any (U := uint_UIntT w) n R m1 addrs parity out
              Hfit Hla Hout Hread) as (Hval & m2 & sl2 & Hdec & Hm2 & Hsl2).
  cbn [sizeof uint_UIntT] in *.
  exists m2, sl2. split_and!; [exact Hdec| | |apply Hm2|exact Hsl2].
  - intros r i Hr Hi.
    assert (Hk : r * n + i < R * n) by nia.
    rewrite (decoded_chunk_load n R w m1 m2 out _ (r * n + i) Hm2 Hout Hk)
      by (by apply Hval).
    by rewrite interleaved_flat.
  - intros c Hc. by eapply decoded_frame.
Qed.


Lemma decode_interleaves_witness :
  ∃ m2 sl2,
    decode (T := uint 1) ex_memory
      ((Some <$> [Addr 1 0; Addr 2 0]) ++ [Some (Addr 9 9)]) 2
      (Some ex_output) 3
    = Done (m2, sl2, Some (addr_add ex_output (3 * 2 * 1)))
    ∧ (∀ r i, r < 3 → i < 2 →
         load m2 (Some (addr_add ex_output ((r * 2 + i) * 1))) 1
         = Done (slice_chunk ex_memory (Some <$> [Addr 1 0; Addr 2 0]) 1 i r))
    ∧ (∀ c, ¬ in_range ex_output (3 * 2 * 1) c →
            byte_at m2 c = byte_at ex_memory c)
    ∧ shape m2 = shape ex_memory
    ∧ sl2 !! 2 = Some (Some (Addr 9 9)).
Proof.
  apply (decode_interleaves 1 2 3 ex_memory [Addr 1 0; Addr 2 0]
           (Some (Addr 9 9)) ex_output).
  - unfold fits_size_t. simpl. lia.
  - reflexivity.
  - reflexivity.
  - reflexivity.
Defined.

(** Filling the gap of a round with the exclusive or of the parity
    chunk and the other chunks makes the parity chunk the exclusive or
    of the whole round. *)
Lemma xor_all_fill (w : nat) (before after : list (list byte))
    (par : list byte) :
  length par = w →
  Forall (λ c, length c = w) before → Forall (λ c, length c = w) after →
  xor_all w (before ++ foldl bytes_xor par (before ++ after) :: after) = par.
Proof.
  intros Hp Hb Ha.
  assert (Hba : Forall (λ c, length c = w) (before ++ after)).
  { by apply Forall_app. }
  destruct (foldl_bytes_xor par (before ++ after) w Hp Hba) as [-> HlK].
  set (K := xor_all w (before ++ after)) in *.
  pose proof (length_xor_all w _ Hb) as Hlb.
  pose proof (length_xor_all w _ Ha) as Hla.
  assert (HK : K = bytes_xor (xor_all w before) (xor_all w after)).
  { unfold K, xor_all at 1. rewrite foldl_app. fold (xor_all w before).
    by destruct (foldl_bytes_xor (xor_all w before) after w Hlb Ha) as [-> _]. }
  unfold xor_all at 1. rewrite foldl_app. simpl. fold (xor_all w before).
  destruct (foldl_bytes_xor (bytes_xor (xor_all w before) (bytes_xor par K))
              after w) as [-> _];
    [rewrite !length_bytes_xor; lia|done|].
  set (B := xor_all w before) in *. set (A := xor_all w after) in *.
  (* (B ^ (par ^ K)) ^ A = par, where K = B ^ A *)
  rewrite (bytes_xor_comm B (bytes_xor par K)).
  rewrite (bytes_xor_assoc (bytes_xor par K) B A), <- HK.
  rewrite (bytes_xor_assoc par K K), bytes_xor_nilpotent, HlK, <- Hp.
  apply bytes_xor_zero_r.
Qed.

Lemma length_foldl_bytes_xor (w : nat) (acc : list byte)
    (cs : list (list byte)) :
  length acc = w → Forall (λ c, length c = w) cs →
  length (foldl bytes_xor acc cs) = w.
Proof.
  intros Ha Hcs. destruct (foldl_bytes_xor acc cs w Ha Hcs) as [-> Hl].
  rewrite length_bytes_xor. lia.
Qed.

Lemma other_slices_spec (n mi i : nat) :
  mi < n → i ∈ other_slices n mi ↔ i < n ∧ i ≠ mi.
Proof.
  intros Hmi. unfold other_slices.
  rewrite elem_of_app, !elem_of_seq. lia.
Qed.

Lemma round_vals_split (val : nat → list byte) (n r mi : nat) :
  mi < n →
  round_vals val n r
  = ((λ i, val (r * n + i)) <$> seq 0 mi)
    ++ val (r * n + mi)
    :: ((λ i, val (r * n + i)) <$> seq (mi + 1) (n - (mi + 1))).
Proof.
  intros Hmi. unfold round_vals.
  replace n with (mi + (1 + (n - (mi + 1)))) at 1 by lia.
  rewrite seq_app, fmap_app. f_equal.
  rewrite seq_app, fmap_app. simpl. by rewrite Nat.add_1_r.
Qed.

(** X8. Whatever the slices hold, [decode] with data slice mi absent
    copies the chunks of the present data slices to their places in the
    output and fills the place of slice mi, in every round, with the
    exclusive or of the parity chunk and the other n - 1 data chunks of
    that round.  Nothing but the output range is written and the absent
    entry stays nullptr. *)
Theorem decode_recovers_by_xor (w n R mi : nat) (m1 : memory)
    (addrs : list address) (out : address) :
  mi < n → fits_size_t (n + 1) → length addrs = n + 1 →
  valid_range (shape m1) out (R * n * w) = true →
  readable_slices (shape m1) (delete mi addrs) out n w R = true →
  ∃ m2 sl2,
    decode (T := uint w) m1 (<[mi := nullptr]> (Some <$> addrs)) n (Some out) R
    = Done (m2, sl2, Some (addr_add out (R * n * w)))
    ∧ (∀ r i, r < R → i < n → i ≠ mi →
         load m2 (Some (addr_add out ((r * n + i) * w))) w
         = Done (slice_chunk m1 (Some <$> addrs) w i r))
    ∧ (∀ r, r < R →
         load m2 (Some (addr_add out ((r * n + mi) * w))) w
         = Done (foldl bytes_xor (slice_chunk m1 (Some <$> addrs) w n r)
                   ((λ i, slice_chunk m1 (Some <$> addrs) w i r)
                      <$> other_slices n mi)))
    ∧ (∀ c, ¬ in_range out (R * n * w) c → byte_at m2 c = byte_at m1 c)
    ∧ sl2 !! mi = Some nullptr.
Proof.
  intros Hmi Hfit Hla Hout Hread. unfold fits_size_t in Hfit.
  set (sls := <[mi := nullptr]> (Some <$> addrs)).
  set (C := λ i r, slice_chunk m1 (Some <$> addrs) w i r).
  set (rec := λ r, foldl bytes_xor (C n r) ((λ i, C i r) <$> other_slices n mi)).
  set (val := λ k, if decide (k mod n = mi) then rec (k / n)
                   else C (k mod n) (k / n)).
  assert (Hlook : ∀ i, i ≤ n → i ≠ mi →
            ∃ a, addrs !! i = Some a ∧ sls !! i = Some (Some a)
                 ∧ valid_range (shape m1) a (R * w) = true
                 ∧ disjoint a (R * w) out (R * n * w) = true).
  { intros i Hi Hne. destruct (lookup_lt_is_Some_2 addrs i) as [a Ha]; [lia|].
    exists a. split; [done|]. split.
    - unfold sls. rewrite list_lookup_insert_ne by done.
      by rewrite list_lookup_fmap, Ha.
    - destruct (decide (i < mi)).
      + apply (readable_slices_lookup _ _ _ _ _ _ i a Hread).
        by rewrite list_lookup_delete_lt.
      + apply (readable_slices_lookup _ _ _ _ _ _ (i - 1) a Hread).
        rewrite list_lookup_delete_ge by lia.
        by replace (S (i - 1)) with i by lia. }
  assert (Hsome : ∀ i a, i ≠ mi → sls !! i = Some (Some a) →
            addrs !! i = Some a).
  { unfold sls. intros i a Hne. rewrite list_lookup_insert_ne by done.
    rewrite list_lookup_fmap. destruct (addrs !! i); by intros [= ->]. }
  assert (Hnone : sls !! mi = Some nullptr).
  { unfold sls. apply list_lookup_insert_eq. rewrite length_fmap. lia. }
  assert (HC : ∀ i a r, i ≤ n → i ≠ mi → sls !! i = Some (Some a) → r < R →
            load m1 (Some (addr_add a (r * w))) w = Done (C i r)
            ∧ length (C i r) = w).
  { intros i a r Hi Hne Ha Hr.
    destruct (Hlook i Hi Hne) as (a' & Ha' & Hs & Hv & _).
    rewrite Ha in Hs. injection Hs as <-.
    apply (slice_chunk_load m1 (Some <$> addrs) w R i r a);
      [by rewrite list_lookup_fmap, Ha'|done..]. }
  assert (HlC : ∀ i r, i ≤ n → i ≠ mi → r < R → length (C i r) = w).
  { intros i r Hi Hne Hr. destruct (Hlook i Hi Hne) as (a & _ & Hs & _).
    by destruct (HC i a r Hi Hne Hs Hr). }
  assert (Hothers : ∀ r, r < R →
            Forall (λ c, length c = w) ((λ i, C i r) <$> other_slices n mi)).
  { intros r Hr. apply Forall_fmap, Forall_forall. intros i Hi.
    apply other_slices_spec in Hi; [|done]. simpl. apply HlC; lia. }
  assert (Hlrec : ∀ r, r < R → length (rec r) = w).
  { intros r Hr. unfold rec. apply length_foldl_bytes_xor; [|by apply Hothers].
    apply HlC; [lia|lia|done]. }
  assert (Hvalmi : ∀ r, val (r * n + mi) = rec r).
  { intros r. unfold val. destruct (flat_index n r mi Hmi) as [-> ->].
    by rewrite decide_True. }
  assert (Hvalne : ∀ r i, i < n → i ≠ mi → val (r * n + i) = C i r).
  { intros r i Hi Hne. unfold val. destruct (flat_index n r i Hi) as [-> ->].
    by rewrite decide_False. }
  destruct (decode_recover_spec (U := uint_UIntT w) n R m1 sls out val)
    with (mi := mi) as (m2 & sl2 & Hdec & Hm2 & [_ Hsl2]).
  - unfold sls. rewrite length_insert, length_fmap. lia.
  - intros k Hk. unfold dec_ok in Hk.
    assert (Hn : n ≠ 0) by lia.
    pose proof (Nat.div_mod_eq k n) as Hdm.
    pose proof (Nat.mod_upper_bound k n Hn) as Hlt.
    assert (Hr : k / n < R).
    { apply Nat.Div0.div_lt_upper_bound. lia. }
    unfold val. case_decide; [by apply Hlrec|].
    apply HlC; [lia|done..].
  - exact Hout.
  - intros i a Hi Ha.
    destruct (decide (i = mi)) as [->|Hne]; [by rewrite Hnone in Ha|].
    destruct (Hlook i ltac:(lia) Hne) as (a' & _ & Hs & _ & Hd).
    rewrite Ha in Hs. by injection Hs as <-.
  - intros i a r Hi Ha Hr.
    destruct (decide (i = mi)) as [->|Hne]; [by rewrite Hnone in Ha|].
    rewrite Hvalne by done. by apply HC; [lia|..].
  - done.
  - done.
  - intros i Hi Hne. destruct (Hlook i Hi Hne) as (a & _ & Hs & _).
    by exists a.
  - intros a Ha.
    destruct (Hlook n ltac:(lia) ltac:(lia)) as (a' & _ & Hs & _ & Hd).
    rewrite Ha in Hs. by injection Hs as <-.
  - intros a r Ha Hr. cbn [sizeof uint_UIntT].
    destruct (HC n a r ltac:(lia) ltac:(lia) Ha Hr) as [-> Hl].
    f_equal. rewrite (round_vals_split val n r mi Hmi), Hvalmi.
    unfold rec, other_slices. rewrite fmap_app.
    assert (Hmap : ∀ l, Forall (λ i, i < n ∧ i ≠ mi) l →
              (λ i, val (r * n + i)) <$> l = (λ i, C i r) <$> l).
    { intros l Hl'. apply list_fmap_ext. intros j i Hj.
      rewrite Forall_forall in Hl'.
      destruct (Hl' i) as [? ?]; [by eapply list_elem_of_lookup_2|].
      by apply Hvalne. }
    rewrite !Hmap.
    2:{ apply Forall_forall. intros i Hi%elem_of_seq. lia. }
    2:{ apply Forall_forall. intros i Hi%elem_of_seq. lia. }
    symmetry. apply xor_all_fill; [done| |].
    + apply Forall_fmap, Forall_forall. intros i Hi%elem_of_seq. simpl.
      apply HlC; [lia|lia|done].
    + apply Forall_fmap, Forall_forall. intros i Hi%elem_of_seq. simpl.
      apply HlC; [lia|lia|done].
  - lia.
  - cbn [sizeof uint_UIntT] in *.
    exists m2, sl2. split_and!; [exact Hdec| | | |].
    + intros r i Hr Hi Hne.
      rewrite (decoded_chunk_load n R w m1 m2 out val (r * n + i) Hm2 Hout);
        [|nia|].
      * by rewrite Hvalne.
      * rewrite Hvalne by done. apply HlC; [lia|done..].
    + intros r Hr.
      rewrite (decoded_chunk_load n R w m1 m2 out val (r * n + mi) Hm2 Hout);
        [|nia|].
      * by rewrite Hvalmi.
      * rewrite Hvalmi. by apply Hlrec.
    + intros c Hc. by eapply decoded_frame.
    + by rewrite (Hsl2 mi nullptr Hnone).
Qed.

Lemma decode_recovers_by_xor_witness :
  ∃ m2 sl2,
    decode (T := uint 1) ex_memory
      (<[0 := nullptr]> (Some <$> [Addr 9 9; Addr 2 0; Addr 3 0])) 2
      (Some ex_output) 3
    = Done (m2, sl2, Some (addr_add ex_output (3 * 2 * 1)))
    ∧ (∀ r i, r < 3 → i < 2 → i ≠ 0 →
         load m2 (Some (addr_add ex_output ((r * 2 + i) * 1))) 1
         = Done (slice_chunk ex_memory
                   (Some <$> [Addr 9 9; Addr 2 0; Addr 3 0]) 1 i r))
    ∧ (∀ r, r < 3 →
         load m2 (Some (addr_add ex_output ((r * 2 + 0) * 1))) 1
         = Done (foldl bytes_xor
                   (slice_chunk ex_memory
                      (Some <$> [Addr 9 9; Addr 2 0; Addr 3 0]) 1 2 r)
                   ((λ i, slice_chunk ex_memory
                            (Some <$> [Addr 9 9; Addr 2 0; Addr 3 0]) 1 i r)
                      <$> other_slices 2 0)))
    ∧ (∀ c, ¬ in_range ex_output (3 * 2 * 1) c →
            byte_at m2 c = byte_at ex_memory c)
    ∧ sl2 !! 0 = Some nullptr.
Proof.
  apply (decode_recovers_by_xor 1 2 3 0 ex_memory
           [Addr 9 9; Addr 2 0; Addr 3 0] ex_output).
  - lia.
  - unfold fits_size_t. simpl. lia.
  - reflexivity.
  - reflexivity.
  - reflexivity.
Defined.


(** ** Calls that have nothing to do, and calls through nullptr *)

Lemma for_loop_skip {St : Type} (first count : nat) (s : St) :
  for_loop first count (λ _ s, Done s) s = Done s.
Proof.
  revert first. induction count as [|count IH]; intros first; [done|].
  simpl. apply IH.
Qed.

Lemma decode_zero_chunks {T : Type} {U : UIntT T} (n : nat) (m : memory)
    (slices : list pointer) (to : pointer) :
  n < length slices → fits_size_t (n + 1) →
  decode m slices n to 0 = Done (m, slices, to).
Proof.
  intros Hl Hfit. unfold fits_size_t in Hfit. unfold decode.
  replace (N.to_nat (size_t_wrap (N.of_nat n + 1))) with (n + 1).
  2:{ unfold size_t_wrap. rewrite N.mod_small by lia. lia. }
  destruct (find_null_total slices 0 (n + 1)) as [k ->]; [lia|].
  rewrite bind_Done. by case_decide.
Qed.

(** X9. [decode] called for zero chunks, or for zero data slices,
    returns without touching memory, the slice pointers or the output
    cursor, whatever the pointers are. *)
Theorem decode_nothing_to_do (w n chunks : nat) (m : memory)
    (slices : list pointer) (to : pointer) :
  n < length slices → fits_size_t (n + 1) → chunks = 0 ∨ n = 0 →
  decode (T := uint w) m slices n to chunks = Done (m, slices, to).
Proof.
  intros Hl Hfit [->| ->]; [by apply decode_zero_chunks|].
  unfold decode. change (N.to_nat (size_t_wrap (N.of_nat 0 + 1))) with 1.
  destruct (find_null_total slices 0 1) as [k ->]; [lia|].
  rewrite bind_Done, decide_True by lia.
  change (for_loop 0 0 decode_copy_chunk) with (λ s : decode_state, Done s).
  apply (for_loop_skip (St := decode_state)).
Qed.

Lemma decode_nothing_to_do_witness :
  decode (T := uint 1) ex_memory [nullptr; nullptr; nullptr] 2 nullptr 0
  = Done (ex_memory, [nullptr; nullptr; nullptr], nullptr).
Proof.
  apply (decode_nothing_to_do 1 2 0 ex_memory [nullptr; nullptr; nullptr]
           nullptr).
  - simpl. lia.
  - unfold fits_size_t. simpl. lia.
  - by left.
Defined.

(** X10. Neither [encode_1] nor [decode] checks a pointer for nullptr
    before writing through it.  [encode_1] on a non-empty input with an
    entry of slices[0..n] that is nullptr, or missing from the array, and
    [decode] for at least one chunk of at least one data slice with the
    output pointer nullptr, have undefined behaviour. *)
Theorem null_pointers_unchecked (w n : nat) :
  1 ≤ n → 1 ≤ w →
  (∀ (m : memory) (ib : address) (len : nat) (slices : list pointer) (i : nat),
     fits_size_t len → fits_size_t (n * w) → 0 < len → i ≤ n →
     slices !! i = Some nullptr ∨ slices !! i = None →
     ∃ f, encode_1 (T := uint w) m (Some ib) (Some (addr_add ib len))
            slices n = Undefined f)
  ∧ (∀ (m : memory) (slices : list pointer) (chunks : nat),
       1 ≤ chunks →
       ∃ f, decode (T := uint w) m slices n nullptr chunks = Undefined f).
Proof.
  intros Hn Hw. split.
  - intros m ib len slices i Hlen Hfit Hpos Hi Hnull.
    apply not_Done_Undefined. intros [[p m1] sl1] Henc.
    pose proof (encode_1_Done_valid (U := uint_UIntT w) n m slices
                  _ _ p m1 sl1 Henc) as Hv.
    assert (Hp : p = {| full_rounds := N.of_nat (len / (n * w));
                        partial_round := negb (len mod (n * w) =? 0) |}).
    { unfold encode_1 in Henc.
      rewrite (ida_properties_spec (U := uint_UIntT w) ib len n Hn Hw) in Henc.
      - rewrite bind_Done in Henc.
        apply bind_Done_inv in Henc as ([[m2 ib2] sl2] & _ & Hrest).
        cbn [partial_round] in Hrest. destruct (negb _).
        + by apply bind_Done_inv in Hrest as ([[m3 ib3] sl3] & _ & [= <- _ _]).
        + by injection Hrest as <- _ _.
      - unfold fits_size_t in Hfit. by rewrite Nat2N.inj_mul in Hfit.
      - done. }
    assert (HR : N.to_nat (full_rounds p) + (if partial_round p then 1 else 0)
                 = rounds len n w).
    { subst p. cbn [full_rounds partial_round]. unfold rounds.
      rewrite Nat2N.id. by destruct (len mod (n * w) =? 0). }
    assert (HR1 : 1 ≤ rounds len n w).
    { pose proof (rounds_cover len n w Hn Hw).
      destruct (rounds len n w); lia. }
    destruct (Hv i 0) as (a & Ha & _); [done|lia|].
    destruct Hnull; congruence.
  - intros m slices chunks Hc.
    apply not_Done_Undefined. intros st Hst.
    destruct (decode_Done_valid (U := uint_UIntT w) n m slices nullptr
                chunks st Hst) as (k & _ & Hout & _).
    destruct (Hout 0) as (o & Ho & _); [nia|done|done].
Qed.

Lemma null_pointers_unchecked_witness :
  (∃ f, encode_1 (T := uint 1) ex_memory (Some ex_input)
          (Some (addr_add ex_input 5))
          [Some (Addr 1 0); nullptr; Some (Addr 3 0)] 2 = Undefined f)
  ∧ (∃ f, decode (T := uint 1) ex_encoded (Some <$> ex_slices) 2 nullptr 3
          = Undefined f).
Proof.
  destruct (null_pointers_unchecked 1 2) as [Hencode Hdecode]; [lia|lia|].
  split.
  - apply (Hencode ex_memory ex_input 5
             [Some (Addr 1 0); nullptr; Some (Addr 3 0)] 1).
    + unfold fits_size_t. simpl. lia.
    + unfold fits_size_t. simpl. lia.
    + lia.
    + lia.
    + by left.
  - apply (Hdecode ex_encoded (Some <$> ex_slices) 3). lia.
Defined.

(** ** The byte casts of utility.hpp *)

Lemma list_inserts_take_drop {A : Type} (l : list A) (i k : nat) :
  i + k ≤ length l → list_inserts i (take k (drop i l)) l = l.
Proof.
  intros Hle.
  assert (Hl : length (take k (drop i l)) = k).
  { rewrite length_take, length_drop. lia. }
  apply list_eq. intros j.
  destruct (decide (j < i)); [by rewrite list_lookup_inserts_lt|].
  destruct (decide (j < i + k)).
  - rewrite list_lookup_inserts by lia.
    rewrite lookup_take_lt, lookup_drop by lia. f_equal. lia.
  - by rewrite list_lookup_inserts_ge by lia.
Qed.

(** X11. A value of [w] bytes written with [to_bytes_cast] is the value
    [from_bytes_cast] reads back from the same place. *)
Theorem cast_write_then_read (w : nat) (m m' : memory) (v : Z) (p : pointer) :
  (0 ≤ v < 2 ^ (8 * Z.of_nat w))%Z →
  to_bytes_cast (T := uint w) m v p = Done m' →
  from_bytes_cast (T := uint w) m' p = Done v.
Proof.
  intros Hv Hst. unfold to_bytes_cast, from_bytes_cast in *.
  cbn [sizeof to_bytes from_bytes uint_UIntT] in *.
  destruct (store_Done_inv _ _ _ _ Hst) as (a & -> & Hva & Hsh).
  destruct (store_Done m a (le_encode w v) Hva) as (m'' & Hst' & _ & Hb & _).
  rewrite Hst in Hst'. injection Hst' as <-.
  rewrite length_le_encode in Hva, Hb.
  assert (load m' (Some a) w = Done (le_encode w v)) as ->.
  { apply load_Done. rewrite Hsh. by rewrite length_le_encode. }
  rewrite bind_Done, le_decode_encode. f_equal. by apply Z.mod_small.
Qed.

Lemma cast_write_then_read_witness :
  from_bytes_cast (T := uint 2) (<[1 := [x34; x12; xff]]> ex_memory)
    (Some (Addr 1 0)) = Done 4660%Z.
Proof.
  apply (cast_write_then_read 2 ex_memory _ 4660 (Some (Addr 1 0))).
  - simpl. lia.
  - reflexivity.
Defined.

(** X12. Writing back with [to_bytes_cast] the value that
    [from_bytes_cast] has read from a place leaves the memory as it
    is. *)
Theorem cast_read_then_write (w : nat) (m : memory) (v : Z) (p : pointer) :
  from_bytes_cast (T := uint w) m p = Done v →
  to_bytes_cast (T := uint w) m v p = Done m.
Proof.
  unfold from_bytes_cast, to_bytes_cast.
  cbn [sizeof to_bytes from_bytes uint_UIntT].
  intros (bs & Hld & [= <-])%bind_Done_inv.
  destruct (load_Done_inv _ _ _ _ Hld) as (a & -> & Hva & Hl).
  rewrite <- Hl at 1. rewrite le_encode_decode.
  apply valid_range_spec in Hva as (bytes & Hb & Hle).
  unfold load in Hld; simpl in Hld. rewrite Hb, decide_True in Hld by done.
  injection Hld as <-.
  unfold store; simpl. rewrite Hb.
  rewrite decide_True by (rewrite length_take, length_drop; lia).
  rewrite list_inserts_take_drop by done. by rewrite list_insert_id.
Qed.

Lemma cast_read_then_write_witness :
  to_bytes_cast (T := uint 2) ex_memory 513%Z (Some ex_input) = Done ex_memory.
Proof.
  apply (cast_read_then_write 2 ex_memory 513 (Some ex_input)). reflexivity.
Defined.

(** X13. [from_bytes_cast_padded] asked for exactly sizeof(T) bytes is
    [from_bytes_cast]; asked for more than sizeof(T) bytes it overruns
    its local array, which is undefined behaviour. *)
Theorem from_bytes_cast_padded_sizes (w size : nat) (m : memory) (p : pointer) :
  from_bytes_cast_padded (T := uint w) m p w = from_bytes_cast (T := uint w) m p
  ∧ (w < size →
     ∃ f, from_bytes_cast_padded (T := uint w) m p size = Undefined f).
Proof.
  unfold from_bytes_cast_padded, from_bytes_cast.
  cbn [sizeof from_bytes uint_UIntT]. split.
  - destruct (load m p w) as [bs|f] eqn:Hld; [|done].
    rewrite !bind_Done, decide_True by done.
    destruct (load_Done_inv _ _ _ _ Hld) as (a & _ & _ & Hl).
    do 2 f_equal. rewrite <- (app_nil_r bs) at 1.
    apply list_inserts_0_l. by rewrite length_replicate.
  - intros Hlt. destruct (load m p size) as [bs|f]; [|by exists f].
    rewrite bind_Done, decide_False by lia. by eexists.
Qed.


(** ** Decoding more than once *)

Section Reuse.
Context {T : Type} {U : UIntT T} {L : UIntTLaws T}.
Variables (n : nat) (m0 : memory) (ib out : address).
Variables (data : list byte) (addrs : list address).

Local Abbreviation w := (@sizeof T U).
Local Abbreviation len := (length data).
Local Abbreviation R := (rounds (length data) n (@sizeof T U)).
Local Abbreviation D :=
  (padded data (rounds (length data) n (@sizeof T U) * n * (@sizeof T U))).
Local Abbreviation slices := (Some <$> addrs).
Local Abbreviation props :=
  {| full_rounds := N.of_nat (length data / (n * @sizeof T U));
     partial_round := negb (length data mod (n * @sizeof T U) =? 0) |}.
Local Abbreviation We :=
  (written (enc_ok n R) (enc_tgt addrs w) (enc_val w n D) w m0 (enc_ok n R)).

Hypothesis Hn : 1 ≤ n.
Hypothesis Hw : 1 ≤ w.
Hypothesis Hlen : fits_size_t len.
Hypothesis Hfit : fits_size_t (n * w).
Hypothesis Hfit1 : fits_size_t (n + 1).
Hypothesis Hdata : load m0 (Some ib) len = Done data.
Hypothesis Hlayout : encode_layout (shape m0) ib len addrs n w = true.
Hypothesis Hout : output_layout (shape m0) addrs out n w R = true.

(** Decoding the encoded slices from a memory that differs from the
    memory after [encode_1] in the output range only; [i = n] stands
    for the parity slice being the absent one. *)
Lemma decode_from (m1 m' : memory) (i : nat) :
  We m1 → shape m' = shape m1 →
  (∀ c, ¬ in_range out (R * n * w) c → byte_at m' c = byte_at m1 c) →
  i ≤ n →
  ∃ m3 sl3,
    decode m' (<[i := nullptr]> slices) n (Some out) R
    = Done (m3, sl3, Some (addr_add out (R * n * w)))
    ∧ load m3 (Some out) len = Done data
    ∧ shape m3 = shape m1
    ∧ (∀ c, ¬ in_range out (R * n * w) c → byte_at m3 c = byte_at m1 c).
Proof.
  intros Hm1 Hshape Hframe Hi.
  pose proof (layout_length_addrs _ _ _ _ _ _ Hlayout) as Hla.
  assert (Hsh1 : shape m1 = shape m0) by apply Hm1.
  assert (Hvout : valid_range (shape m') out (R * n * w) = true).
  { rewrite Hshape, Hsh1. by eapply output_layout_valid. }
  assert (Hlsls : length (<[i := nullptr]> slices) = n + 1).
  { by rewrite length_insert, length_fmap. }
  assert (Hlook : ∀ k a,
    <[i := nullptr]> slices !! k = Some (Some a) → addrs !! k = Some a).
  { intros k a. destruct (decide (k = i)) as [->|Hne].
    - rewrite list_lookup_insert_eq; [done|]. rewrite length_fmap. lia.
    - rewrite list_lookup_insert_ne, list_lookup_fmap by done.
      destruct (addrs !! k); naive_solver. }
  assert (Hpresent : ∀ k, k ≤ n → k ≠ i →
    ∃ a, <[i := nullptr]> slices !! k = Some (Some a)).
  { intros k Hk Hne. rewrite list_lookup_insert_ne, list_lookup_fmap by done.
    destruct (lookup_lt_is_Some_2 addrs k) as [a ->]; [lia|]. by exists a. }
  assert (Hslot : ∀ k r a, k ≤ n → r < R → addrs !! k = Some a →
    load m' (Some (addr_add a (r * w))) w = Done (enc_val w n D (k, r))).
  { intros k r a Hk Hr Ha.
    rewrite <- (encode_slot_load n m0 ib data addrs Hn Hw Hlayout m1 k r a
                  Hm1 Hk Hr Ha).
    apply load_frame; [done|]. intros j Hj. apply Hframe. intros Hin.
    pose proof (output_layout_disjoint _ _ _ _ _ _ k a Hout Ha) as Hd.
    apply (proj1 (disjoint_spec _ _ _ _) Hd
             (addr_add (addr_add a (r * w)) j)); [|done].
    pose proof (chunk_end_le R w r Hr).
    unfold in_range, addr_add; simpl. lia. }
  assert (Hfinish : ∀ m3,
    written (dec_ok n R) (dec_tgt out w) (chunk w D) w m'
      (dec_done (R * n) None) m3 →
    load m3 (Some out) len = Done data
    ∧ shape m3 = shape m1
    ∧ (∀ c, ¬ in_range out (R * n * w) c → byte_at m3 c = byte_at m1 c)).
  { intros m3 Hm3. split_and!.
    - assert (Hall : load m3 (Some out) (R * n * w) = Done D).
      { eapply (dec_output n R m' (<[i := nullptr]> slices) out (chunk w D));
          try done.
        by apply length_padded_data. }
      assert (Hall' : load m3 (Some out) (length D) = Done D).
      { by rewrite length_padded_data. }
      pose proof (load_sub m3 out D 0 len Hall') as Hsub.
      rewrite addr_add_0, drop_0, take_padded in Hsub. apply Hsub.
      rewrite length_padded_data by done. by apply rounds_cover.
    - destruct Hm3 as (-> & _). done.
    - intros c Hc. rewrite <- Hframe by done.
      by eapply (dec_frame n R m' (<[i := nullptr]> slices) out). }
  destruct (decide (i = n)) as [->|Hne].
  - destruct (decode_copy_spec n R m' (<[n := nullptr]> slices) out
                (chunk w D)) as (m3 & sl3 & Hdec & Hm3 & _).
    + done.
    + by apply chunk_length.
    + done.
    + intros k a Hk Ha. eapply output_layout_disjoint; eauto.
    + intros k a r Hk Ha Hr.
      rewrite (Hslot k r a) by (try apply Hlook; done || lia).
      unfold enc_val; simpl. by rewrite decide_True.
    + intros k Hk. apply Hpresent; lia.
    + unfold fits_size_t in Hfit1. lia.
    + exists m3, sl3. split; [done|]. by apply Hfinish.
  - destruct (decode_recover_spec n R m' (<[i := nullptr]> slices) out
                (chunk w D)) with (mi := i) as (m3 & sl3 & Hdec & Hm3 & _).
    + done.
    + by apply chunk_length.
    + done.
    + intros k a Hk Ha. eapply output_layout_disjoint; eauto.
    + intros k a r Hk Ha Hr.
      rewrite (Hslot k r a) by (try apply Hlook; done || lia).
      unfold enc_val; simpl. by rewrite decide_True.
    + lia.
    + apply list_lookup_insert_eq. rewrite length_fmap. lia.
    + done.
    + intros a Ha. eapply output_layout_disjoint; eauto.
    + intros a r Ha Hr.
      rewrite (Hslot n r a) by (try apply Hlook; done || lia).
      unfold enc_val; simpl. by rewrite decide_False by lia.
    + unfold fits_size_t in Hfit1. lia.
    + exists m3, sl3. split; [done|]. by apply Hfinish.
Qed.

(** Encoding, then decoding twice into the same output. *)
Lemma decode_twice (i j : nat) :
  i ≤ n → j ≤ n →
  ∃ m1 m2 sl2 m3 sl3,
    encode_1 m0 (Some ib) (Some (addr_add ib len)) slices n
    = Done (props, m1, (λ a, Some (addr_add a (R * w))) <$> addrs)
    ∧ decode m1 (<[i := nullptr]> slices) n (Some out) R
      = Done (m2, sl2, Some (addr_add out (R * n * w)))
    ∧ load m2 (Some out) len = Done data
    ∧ decode m2 (<[j := nullptr]> slices) n (Some out) R
      = Done (m3, sl3, Some (addr_add out (R * n * w)))
    ∧ load m3 (Some out) len = Done data
    ∧ shape m3 = shape m0.
Proof.
  intros Hi Hj.
  destruct (encode_1_done n m0 ib data addrs Hn Hw Hlen Hfit Hdata Hlayout)
    as (m1 & Henc & Hm1).
  destruct (decode_from m1 m1 i Hm1 eq_refl ltac:(done) Hi)
    as (m2 & sl2 & Hdec2 & Hld2 & Hsh2 & Hfr2).
  destruct (decode_from m1 m2 j Hm1 Hsh2 Hfr2 Hj)
    as (m3 & sl3 & Hdec3 & Hld3 & Hsh3 & _).
  exists m1, m2, sl2, m3, sl3. split_and!; try done.
  rewrite Hsh3. apply Hm1.
Qed.
End Reuse.


(** X14. A chunk type need not be one of the four integer types: for
    every chunk type whose object representation obeys the laws of
    [UIntTLaws] (the 128-bit register wrapper [my_int128] is one),
    encoding and then decoding with any single slice absent, a data
    slice or the parity slice (i = n), gives back the input. *)
Theorem roundtrip_any_chunk_type {T : Type} {U : UIntT T} {L : UIntTLaws T}
    (n i : nat) (m0 : memory) (ib out : address) (data : list byte)
    (addrs : list address) :
  1 ≤ n → 1 ≤ sizeof → i ≤ n →
  fits_size_t (length data) → fits_size_t (n * sizeof) →
  fits_size_t (n + 1) →
  load m0 (Some ib) (length data) = Done data →
  encode_layout (shape m0) ib (length data) addrs n sizeof = true →
  output_layout (shape m0) addrs out n sizeof (rounds (length data) n sizeof)
  = true →
  ∃ p m1 sl1 m2 sl2 to2,
    encode_1 m0 (Some ib) (Some (addr_add ib (length data)))
      (Some <$> addrs) n = Done (p, m1, sl1)
    ∧ decode m1 (<[i := nullptr]> (Some <$> addrs)) n (Some out)
        (N.to_nat (num_chunks p)) = Done (m2, sl2, to2)
    ∧ load m2 (Some out) (length data) = Done data.
Proof.
  intros Hn Hw Hi Hlen Hfit Hfit1 Hdata Hlayout Hout.
  destruct (decode_twice n m0 ib out data addrs Hn Hw Hlen Hfit Hfit1 Hdata
              Hlayout Hout i i Hi Hi)
    as (m1 & m2 & sl2 & _ & _ & Henc & Hdec & Hld & _).
  eexists _, m1, _, m2, sl2, _. split; [exact Henc|].
  rewrite num_chunks_rounds, Nat2N.id by done. by split.
Qed.

Lemma roundtrip_any_chunk_type_witness :
  ∃ p m1 sl1 m2 sl2 to2,
    encode_1 (T := my_int128) ex_wide_memory (Some ex_input)
      (Some (addr_add ex_input (length ex_data))) (Some <$> ex_slices) 2
    = Done (p, m1, sl1)
    ∧ decode (T := my_int128) m1 (<[1 := nullptr]> (Some <$> ex_slices)) 2
        (Some ex_output) (N.to_nat (num_chunks p)) = Done (m2, sl2, to2)
    ∧ load m2 (Some ex_output) (length ex_data) = Done ex_data.
Proof.
  apply (roundtrip_any_chunk_type (T := my_int128) (U := uint_UIntT 16)
           (L := uint_laws 16) 2 1 ex_wide_memory ex_input ex_output ex_data
           ex_slices).
  - lia.
  - simpl. lia.
  - lia.
  - unfold fits_size_t. simpl. lia.
  - unfold fits_size_t. simpl. lia.
  - unfold fits_size_t. simpl. lia.
  - reflexivity.
  - reflexivity.
  - reflexivity.
Defined.

(** X15. [decode] does not change the slices it reads, so the encoded
    slices can be decoded again into the same output buffer: after
    [encode_1], a first [decode] with any single slice absent and a
    second [decode] with any single slice absent (pointer arrays taken
    afresh, i = n or j = n standing for the parity slice) both leave
    the input in the output. *)
Theorem decode_is_repeatable (w n i j : nat) (m0 : memory)
    (ib out : address) (data : list byte) (addrs : list address) :
  1 ≤ n → 1 ≤ w → i ≤ n → j ≤ n →
  fits_size_t (length data) → fits_size_t (n * w) → fits_size_t (n + 1) →
  load m0 (Some ib) (length data) = Done data →
  encode_layout (shape m0) ib (length data) addrs n w = true →
  output_layout (shape m0) addrs out n w (rounds (length data) n w) = true →
  ∃ p m1 sl1 m2 sl2 to2 m3 sl3 to3,
    encode_1 (T := uint w) m0 (Some ib) (Some (addr_add ib (length data)))
      (Some <$> addrs) n = Done (p, m1, sl1)
    ∧ decode (T := uint w) m1 (<[i := nullptr]> (Some <$> addrs)) n (Some out)
        (N.to_nat (num_chunks p)) = Done (m2, sl2, to2)
    ∧ load m2 (Some out) (length data) = Done data
    ∧ decode (T := uint w) m2 (<[j := nullptr]> (Some <$> addrs)) n (Some out)
        (N.to_nat (num_chunks p)) = Done (m3, sl3, to3)
    ∧ load m3 (Some out) (length data) = Done data.
Proof.
  intros Hn Hw Hi Hj Hlen Hfit Hfit1 Hdata Hlayout Hout.
  destruct (decode_twice (U := uint_UIntT w) n m0 ib out data addrs
              Hn Hw Hlen Hfit Hfit1 Hdata Hlayout Hout i j Hi Hj)
    as (m1 & m2 & sl2 & m3 & sl3 & Henc & Hdec2 & Hld2 & Hdec3 & Hld3 & _).
  cbn [sizeof uint_UIntT] in *.
  eexists _, m1, _, m2, sl2, _, m3, sl3, _. split; [exact Henc|].
  rewrite num_chunks_rounds, Nat2N.id by done. by split_and!.
Qed.

Lemma decode_is_repeatable_witness :
  ∃ p m1 sl1 m2 sl2 to2 m3 sl3 to3,
    encode_1 (T := uint 1) ex_memory (Some ex_input)
      (Some (addr_add ex_input (length ex_data))) (Some <$> ex_slices) 2
    = Done (p, m1, sl1)
    ∧ decode (T := uint 1) m1 (<[2 := nullptr]> (Some <$> ex_slices)) 2
        (Some ex_output) (N.to_nat (num_chunks p)) = Done (m2, sl2, to2)
    ∧ load m2 (Some ex_output) (length ex_data) = Done ex_data
    ∧ decode (T := uint 1) m2 (<[0 := nullptr]> (Some <$> ex_slices)) 2
        (Some ex_output) (N.to_nat (num_chunks p)) = Done (m3, sl3, to3)
    ∧ load m3 (Some ex_output) (length ex_data) = Done ex_data.
Proof.
  apply (decode_is_repeatable 1 2 2 0 ex_memory ex_input ex_output ex_data
           ex_slices).
  - lia.
  - lia.
  - lia.
  - lia.
  - unfold fits_size_t. simpl. lia.
  - unfold fits_size_t. simpl. lia.
  - unfold fits_size_t. simpl. lia.
  - reflexivity.
  - reflexivity.
  - reflexivity.
Defined.


(** ** The experiment of test_1.cpp *)

Lemma rounds_exact (n w S : nat) :
  1 ≤ n → 1 ≤ w → S mod w = 0 → rounds (S * n) n w * w = S.
Proof.
  intros Hn Hw Hmod.
  assert (Hq : S = S / w * w).
  { rewrite Nat.mul_comm. by apply Nat.Div0.div_exact. }
  assert (Hsn : S * n = S / w * (n * w)) by (rewrite Hq at 1; lia).
  unfold rounds. rewrite Hsn, Nat.div_mul, Nat.Div0.mod_mul by nia.
  simpl. lia.
Qed.

Lemma slice_pointer_small (slice_size k : N) :
  (k * slice_size < 2 ^ 64)%N →
  slice_pointer slice_size k
  = Some (Addr 0 (0 + N.to_nat k * N.to_nat slice_size)).
Proof.
  intros Hk. unfold slice_pointer, size_t_wrap.
  rewrite (N.mod_small (k * slice_size)) by done.
  rewrite N.mod_small by lia. do 2 f_equal. lia.
Qed.

Lemma shape_three (m : memory) (a b c : nat) :
  shape m = [a; b; c] →
  ∃ x y z, m = [x; y; z] ∧ length x = a ∧ length y = b ∧ length z = c.
Proof.
  destruct m as [|x [|y [|z [|? ?]]]]; try done.
  intros [= <- <- <-]. by exists x, y, z.
Qed.

(** A round, with the two buffers at its end. *)
Lemma run_experiment_round_spec (w : nat) (slice_size : N)
    (encode_buffer decode_buffer : list byte) :
  1 ≤ w → N.to_nat slice_size mod w = 0 →
  (6 * slice_size < 2 ^ 64)%N → fits_size_t (5 * w) →
  6 * N.to_nat slice_size ≤ length encode_buffer →
  5 * N.to_nat slice_size ≤ length decode_buffer →
  ∃ enc dec,
    run_experiment_round (T := uint w) slice_size
      [encode_buffer; decode_buffer]
    = Some (Done (true, true, [enc; dec]))
    ∧ length enc = length encode_buffer
    ∧ length dec = length decode_buffer.
Proof.
  intros Hw Hmod Hsmall Hfit Henc Hdec.
  assert (Hn : 1 ≤ 5) by lia.
  assert (Hfit1 : fits_size_t (5 + 1)) by (unfold fits_size_t; simpl; lia).
  unfold run_experiment_round.
  set (S := N.to_nat slice_size) in *.
  assert (N.to_nat (size_t_wrap (slice_size * N.of_nat 5)) = S * 5) as ->.
  { unfold size_t_wrap. rewrite N.mod_small by lia. unfold S. lia. }
  rewrite generate_data_spec.
  set (data := (λ i, byte_of_Z (Z.of_nat (i mod 256))) <$> seq 0 (S * 5)).
  assert (Hld : length data = S * 5).
  { unfold data. by rewrite length_fmap, length_seq. }
  clearbody data.
  cbn [mbind option_bind]. cbv zeta.
  rewrite !slice_pointer_small by lia. fold S.
  change (N.to_nat 0) with 0. change (N.to_nat 1) with 1.
  change (N.to_nat 2) with 2. change (N.to_nat 3) with 3.
  change (N.to_nat 4) with 4. change (N.to_nat 5) with 5.
  cbn [length app].
  destruct (decide (S = 0)) as [HS|HS].
  - rewrite HS in *. apply nil_length_inv in Hld as ->.
    cbn [vector_data ptr_add length].
    rewrite encode_1_empty.
    2:{ cbn [sizeof uint_UIntT]. unfold fits_size_t, size_t_wrap in *.
        rewrite N.mod_small by lia. lia. }
    cbn [mbind outcome_bind].
    change (N.to_nat (num_chunks _)) with 0.
    rewrite decode_zero_chunks; [|simpl; lia|done].
    cbn [mbind outcome_bind].
    assert (Heq : std_equal [encode_buffer; decode_buffer; []] []
                    (Some (Addr 1 0)) = Done true).
    { unfold std_equal, load; simpl. done. }
    rewrite Heq. cbn [mbind outcome_bind].
    rewrite decode_zero_chunks; [|simpl; lia|done].
    cbn [mbind outcome_bind]. rewrite Heq. cbn [mbind outcome_bind].
    by exists encode_buffer, decode_buffer.
  - set (m0 := [encode_buffer; decode_buffer; data]).
    set (addrs := [Addr 0 (0 + 0 * S); Addr 0 (0 + 1 * S);
                   Addr 0 (0 + 2 * S); Addr 0 (0 + 3 * S);
                   Addr 0 (0 + 4 * S); Addr 0 (0 + 5 * S)]).
    assert (Hvd : vector_data 2 data = Some (Addr 2 0)).
    { destruct data; [simpl in Hld; lia|done]. }
    assert (Hdata : load m0 (Some (Addr 2 0)) (length data) = Done data).
    { unfold load, m0; simpl. rewrite decide_True by lia.
      by rewrite drop_0, take_ge. }
    pose proof (rounds_exact 5 w S Hn Hw Hmod) as HR.
    assert (Hfl : fits_size_t (length data)).
    { unfold fits_size_t. rewrite Hld. unfold S. lia. }
    rewrite <- Hld in HR.
    assert (Hlayout : encode_layout (shape m0) (Addr 2 0) (length data)
                        addrs 5 w = true).
    { unfold encode_layout. rewrite HR. unfold addrs, m0, disjoint. simpl.
      repeat (apply andb_true_intro; split);
        try (apply bool_decide_eq_true; simpl; lia); done. }
    assert (Hout : output_layout (shape m0) addrs (Addr 1 0) 5 w
                     (rounds (length data) 5 w) = true).
    { unfold output_layout.
      replace (rounds (length data) 5 w * 5 * w)
        with (5 * (rounds (length data) 5 w * w)) by lia.
      rewrite HR. unfold addrs, m0, disjoint. simpl.
      repeat (apply andb_true_intro; split);
        try (apply bool_decide_eq_true; simpl; lia); done. }
    destruct (decode_twice (U := uint_UIntT w) 5 m0 (Addr 2 0) (Addr 1 0) data
                addrs Hn Hw Hfl Hfit Hfit1 Hdata Hlayout Hout 5 4
                ltac:(lia) ltac:(lia))
      as (m1 & m2 & sl2 & m3 & sl3 & He & Hd2 & Hl2 & Hd3 & Hl3 & Hsh3).
    cbn [sizeof uint_UIntT] in *.
    rewrite Hvd.
    change (ptr_add (Some (Addr 2 0)) (length data))
      with (Some (addr_add (Addr 2 0) (length data))).
    fold m0. unfold addrs in He, Hd2, Hd3.
    cbn [fmap list_fmap insert list_insert] in He, Hd2, Hd3.
    rewrite He. cbn [mbind outcome_bind]. cbv beta iota zeta.
    rewrite num_chunks_rounds, Nat2N.id by done.
    rewrite Hd2. cbn [mbind outcome_bind].
    unfold std_equal. rewrite Hl2. cbn [mbind outcome_bind].
    rewrite Hd3. cbn [mbind outcome_bind].
    rewrite Hl3. cbn [mbind outcome_bind].
    rewrite bool_decide_eq_true_2 by done.
    destruct (shape_three m3 _ _ _ Hsh3) as (x & y & z & -> & Hx & Hy & _).
    by exists x, y.
Qed.


(** X16. A round of [run_experiment] prints 1 for both correctness
    flags whenever the slice size is a multiple of sizeof(UIntT) and
    both buffers hold the n + 1 = 6 slices: the decode without the
    parity slice and the decode without slice 4 both reproduce the
    generated data, and the arrays keep their sizes. *)
Theorem run_experiment_round_correct (w : nat) (slice_size : N)
    (encode_buffer decode_buffer : list byte) :
  1 ≤ w → N.to_nat slice_size mod w = 0 →
  (6 * slice_size < 2 ^ 64)%N → fits_size_t (5 * w) →
  6 * N.to_nat slice_size ≤ length encode_buffer →
  5 * N.to_nat slice_size ≤ length decode_buffer →
  ∃ m,
    run_experiment_round (T := uint w) slice_size
      [encode_buffer; decode_buffer]
    = Some (Done (true, true, m))
    ∧ shape m = shape [encode_buffer; decode_buffer].
Proof.
  intros Hw Hmod Hsmall Hfit Henc Hdec.
  destruct (run_experiment_round_spec w slice_size encode_buffer
              decode_buffer Hw Hmod Hsmall Hfit Henc Hdec)
    as (enc & dec & -> & Hlenc & Hldec).
  eexists. split; [done|]. unfold shape; simpl. by rewrite Hlenc, Hldec.
Qed.

Lemma run_experiment_round_correct_witness :
  ∃ m,
    run_experiment_round (T := uint 2) 2 [replicate 12 x00; replicate 12 x00]
    = Some (Done (true, true, m))
    ∧ shape m = shape [replicate 12 x00; replicate 12 x00].
Proof.
  apply (run_experiment_round_correct 2 2 (replicate 12 x00)
           (replicate 12 x00)).
  - lia.
  - reflexivity.
  - reflexivity.
  - unfold fits_size_t. simpl. lia.
  - simpl. lia.
  - simpl. lia.
Defined.


Lemma step_size_value : step_size = 4194304%N.
Proof. reflexivity. Qed.

Lemma max_size_value : max_size = 67108864%N.
Proof. reflexivity. Qed.

Lemma to_nat_multiple (x q : N) (w : nat) :
  x = (q * N.of_nat w)%N → N.to_nat x mod w = 0.
Proof.
  intros ->. rewrite N2Nat.inj_mul, Nat2N.id. apply Nat.Div0.mod_mul.
Qed.

Lemma step_multiple (w k : nat) :
  1 ≤ w → (step_size mod N.of_nat w = 0)%N →
  N.to_nat (N.of_nat k * step_size) mod w = 0 ∧ w ≤ N.to_nat step_size.
Proof.
  intros Hw Hmod.
  pose proof (N.div_mod step_size (N.of_nat w) ltac:(lia)) as Hq.
  rewrite Hmod, N.add_0_r in Hq. split.
  - apply (to_nat_multiple _ (N.of_nat k * (step_size / N.of_nat w))).
    rewrite Hq at 1. lia.
  - rewrite step_size_value in *.
    destruct (4194304 / N.of_nat w)%N eqn:Hz; [lia|nia].
Qed.

Lemma run_experiment_loop_correct (w : nat) :
  1 ≤ w → (step_size mod N.of_nat w = 0)%N →
  ∀ (j k fuel : nat) (encode_buffer decode_buffer : list byte),
    k + j = 16 → j ≤ fuel →
    length encode_buffer = N.to_nat (max_size * 6) →
    length decode_buffer = N.to_nat (max_size * 6) →
    run_experiment_loop (T := uint w) fuel (N.of_nat k * step_size)
      [encode_buffer; decode_buffer]
    = Some (Done ((λ i, ((N.of_nat i * step_size)%N, w, true, true))
                    <$> seq k j)).
Proof.
  intros Hw Hmod j. induction j as [|j IH];
    intros k fuel encode_buffer decode_buffer Hk Hfuel Henc Hdec.
  - assert (Hge : ¬ (N.of_nat k * step_size < max_size)%N).
    { rewrite step_size_value, max_size_value. lia. }
    destruct fuel; cbn [run_experiment_loop]; by rewrite decide_False.
  - destruct fuel as [|fuel]; [lia|]. cbn [run_experiment_loop].
    rewrite decide_True by (rewrite step_size_value, max_size_value; lia).
    destruct (run_experiment_round_spec w (N.of_nat k * step_size)
                encode_buffer decode_buffer)
      as (enc & dec & -> & Hlenc & Hldec).
    + done.
    + by apply step_multiple.
    + rewrite step_size_value. lia.
    + destruct (step_multiple w k Hw Hmod) as [_ Hle].
      rewrite step_size_value in Hle. unfold fits_size_t. lia.
    + rewrite Henc, step_size_value, max_size_value. lia.
    + rewrite Hdec, step_size_value, max_size_value. lia.
    + cbn [mbind option_bind].
      assert (size_t_wrap (N.of_nat k * step_size + step_size)
              = (N.of_nat (S k) * step_size)%N) as ->.
      { unfold size_t_wrap. rewrite step_size_value.
        rewrite N.mod_small by lia. lia. }
      rewrite (IH (S k) fuel enc dec) by (lia || congruence).
      cbn [mbind option_bind outcome_bind sizeof uint_UIntT]. done.
Qed.

(** X17. [run_experiment] for a chunk type whose size divides
    step_size = 2^22 (the sizes 1, 2, 4 and 8 that [main] runs, and the
    16, 32 and 64 of the register wrappers) prints 16 lines, one for
    each slice size k·step_size with k = 0, ..., 15, and both
    correctness flags are 1 in every line; no round has undefined
    behaviour. *)
Theorem run_experiment_all_correct (w fuel : nat) :
  1 ≤ w → (step_size mod N.of_nat w = 0)%N → 16 ≤ fuel →
  run_experiment (T := uint w) fuel
  = Some (Done ((λ i, ((N.of_nat i * step_size)%N, w, true, true))
                  <$> seq 0 16)).
Proof.
  intros Hw Hmod Hfuel. unfold run_experiment. cbv zeta.
  assert (size_t_wrap (max_size * (5 + 1)) = (max_size * 6)%N) as ->.
  { by rewrite max_size_value. }
  apply (run_experiment_loop_correct w Hw Hmod 16 0 fuel);
    [lia|lia|apply length_replicate..].
Qed.

Lemma run_experiment_all_correct_witness :
  run_experiment (T := uint 8) 16
  = Some (Done ((λ i, ((N.of_nat i * step_size)%N, 8, true, true))
                  <$> seq 0 16)).
Proof. apply (run_experiment_all_correct 8 16); [lia|reflexivity|lia]. Defined.


(** ** The parity invariant and partial decoding *)

Lemma slice_chunk_encoded (w n : nat) (m0 m1 : memory) (ib : address)
    (data : list byte) (addrs : list address) (i r : nat) :
  1 ≤ n → 1 ≤ w →
  encode_layout (shape m0) ib (length data) addrs n w = true →
  written (enc_ok n (rounds (length data) n w)) (enc_tgt addrs w)
    (enc_val w n (padded data (rounds (length data) n w * n * w))) w m0
    (enc_ok n (rounds (length data) n w)) m1 →
  i ≤ n → r < rounds (length data) n w →
  slice_chunk m1 (Some <$> addrs) w i r
  = enc_val w n (padded data (rounds (length data) n w * n * w)) (i, r).
Proof.
  intros Hn Hw Hlayout Hm1 Hi Hr.
  pose proof (layout_length_addrs _ _ _ _ _ _ Hlayout) as Hla.
  destruct (lookup_lt_is_Some_2 addrs i) as [a Ha]; [lia|].
  unfold slice_chunk. rewrite list_lookup_fmap, Ha. simpl.
  change (Some (Addr (blk a) (off a + r * w)))
    with (Some (addr_add a (r * w))).
  pose proof (encode_slot_load (U := uint_UIntT w) n m0 ib data addrs
                Hn Hw Hlayout m1 i r a Hm1 Hi Hr Ha) as Hl.
  cbn [sizeof uint_UIntT] in Hl. by rewrite Hl.
Qed.

(** X18. After [encode_1] the n + 1 chunks of every round, the n data
    chunks and the parity chunk, have exclusive or zero. *)
Theorem round_xors_to_zero (w n : nat) (m0 : memory) (ib : address)
    (data : list byte) (addrs : list address) :
  1 ≤ n → 1 ≤ w → fits_size_t (length data) → fits_size_t (n * w) →
  load m0 (Some ib) (length data) = Done data →
  encode_layout (shape m0) ib (length data) addrs n w = true →
  ∃ p m1 sl1,
    encode_1 (T := uint w) m0 (Some ib) (Some (addr_add ib (length data)))
      (Some <$> addrs) n = Done (p, m1, sl1)
    ∧ ∀ r, r < N.to_nat (num_chunks p) →
        xor_all w ((λ i, slice_chunk m1 (Some <$> addrs) w i r)
                     <$> seq 0 (n + 1))
        = replicate w x00.
Proof.
  intros Hn Hw Hlen Hfit Hdata Hlayout. unfold fits_size_t in *.
  assert (Hfit' : (N.of_nat n * N.of_nat w < 2 ^ 64)%N).
  { by rewrite <- Nat2N.inj_mul. }
  destruct (encode_1_spec (U := uint_UIntT w) n m0 ib data addrs
              Hn Hw Hlayout Hdata Hlen Hfit') as (m1 & Henc & Hm1).
  cbn [sizeof uint_UIntT] in *.
  eexists _, m1, _. split; [exact Henc|].
  rewrite num_chunks_rounds, Nat2N.id by done. intros r Hr.
  set (D := padded data (rounds (length data) n w * n * w)) in *.
  assert (HlD : length D = rounds (length data) n w * n * w).
  { apply length_padded. by apply rounds_cover. }
  assert ((λ i, slice_chunk m1 (Some <$> addrs) w i r) <$> seq 0 (n + 1)
          = round_chunks w n D r ++ [xor_all w (round_chunks w n D r)]) as ->.
  { rewrite seq_app, fmap_app. simpl. f_equal.
    - unfold round_chunks, round_vals. apply list_fmap_ext.
      intros j i Hj. apply lookup_seq in Hj as [-> Hj].
      rewrite (slice_chunk_encoded w n m0 m1 ib data addrs) by (done || lia).
      unfold enc_val; simpl. by rewrite decide_True by lia.
    - rewrite (slice_chunk_encoded w n m0 m1 ib data addrs) by (done || lia).
      unfold enc_val; simpl. by rewrite decide_False by lia. }
  rewrite xor_all_snoc, bytes_xor_nilpotent, length_xor_all; [done|].
  by apply (round_chunks_Forall w n D (rounds (length data) n w)).
Qed.

Lemma round_xors_to_zero_witness :
  ∃ p m1 sl1,
    encode_1 (T := uint 1) ex_memory (Some ex_input)
      (Some (addr_add ex_input (length ex_data))) (Some <$> ex_slices) 2
    = Done (p, m1, sl1)
    ∧ ∀ r, r < N.to_nat (num_chunks p) →
        xor_all 1 ((λ i, slice_chunk m1 (Some <$> ex_slices) 1 i r)
                     <$> seq 0 (2 + 1))
        = replicate 1 x00.
Proof.
  apply (round_xors_to_zero 1 2 ex_memory ex_input ex_data ex_slices).
  - lia.
  - lia.
  - unfold fits_size_t. simpl. lia.
  - unfold fits_size_t. simpl. lia.
  - reflexivity.
  - reflexivity.
Defined.

Lemma chunk_take (w : nat) (d : list byte) (total k : nat) :
  k * w + w ≤ total → chunk w (take total d) k = chunk w d k.
Proof.
  intros Hk. apply list_eq. intros j.
  destruct (decide (j < w)) as [Hj|Hj].
  - rewrite !lookup_chunk by done. apply lookup_take_lt. lia.
  - unfold chunk. by rewrite !lookup_take_ge by lia.
Qed.

Section Prefix.
Context {T : Type} {U : UIntT T} {L : UIntTLaws T}.
Variables (n K : nat) (m0 : memory) (ib out : address).
Variables (data : list byte) (addrs : list address).

Local Abbreviation w := (@sizeof T U).
Local Abbreviation len := (length data).
Local Abbreviation R := (rounds (length data) n (@sizeof T U)).
Local Abbreviation D :=
  (padded data (rounds (length data) n (@sizeof T U) * n * (@sizeof T U))).
Local Abbreviation slices := (Some <$> addrs).
Local Abbreviation We :=
  (written (enc_ok n R) (enc_tgt addrs w) (enc_val w n D) w m0 (enc_ok n R)).

Hypothesis Hn : 1 ≤ n.
Hypothesis Hw : 1 ≤ w.
Hypothesis HK : K ≤ R.
Hypothesis Hfit1 : fits_size_t (n + 1).
Hypothesis Hlayout : encode_layout (shape m0) ib len addrs n w = true.
Hypothesis Hout : output_layout (shape m0) addrs out n w K = true.

(** Decoding the first [K] rounds of the encoded slices; [i = n]
    stands for the parity slice being the absent one. *)
Lemma decode_rounds (m1 : memory) (i : nat) :
  We m1 → i ≤ n →
  ∃ m2 sl2,
    decode m1 (<[i := nullptr]> slices) n (Some out) K
    = Done (m2, sl2, Some (addr_add out (K * n * w)))
    ∧ load m2 (Some out) (K * n * w) = Done (take (K * n * w) D).
Proof.
  intros Hm1 Hi.
  pose proof (layout_length_addrs _ _ _ _ _ _ Hlayout) as Hla.
  assert (Hsh1 : shape m1 = shape m0) by apply Hm1.
  assert (HlD : length D = R * n * w).
  { apply length_padded. by apply rounds_cover. }
  assert (HKR : K * n * w ≤ R * n * w).
  { apply Nat.mul_le_mono_r, Nat.mul_le_mono_r, HK. }
  assert (Hvout : valid_range (shape m1) out (K * n * w) = true).
  { rewrite Hsh1. by eapply output_layout_valid. }
  assert (Hlsls : length (<[i := nullptr]> slices) = n + 1).
  { by rewrite length_insert, length_fmap. }
  assert (Hlook : ∀ k a,
    <[i := nullptr]> slices !! k = Some (Some a) → addrs !! k = Some a).
  { intros k a. destruct (decide (k = i)) as [->|Hne].
    - rewrite list_lookup_insert_eq; [done|]. rewrite length_fmap. lia.
    - rewrite list_lookup_insert_ne, list_lookup_fmap by done.
      destruct (addrs !! k); naive_solver. }
  assert (Hpresent : ∀ k, k ≤ n → k ≠ i →
    ∃ a, <[i := nullptr]> slices !! k = Some (Some a)).
  { intros k Hk Hne. rewrite list_lookup_insert_ne, list_lookup_fmap by done.
    destruct (lookup_lt_is_Some_2 addrs k) as [a ->]; [lia|]. by exists a. }
  assert (Hslot : ∀ k r a, k ≤ n → r < K → addrs !! k = Some a →
    load m1 (Some (addr_add a (r * w))) w = Done (enc_val w n D (k, r))).
  { intros k r a Hk Hr Ha.
    apply (encode_slot_load n m0 ib data addrs Hn Hw Hlayout m1 k r a);
      [done|done|lia|done]. }
  assert (Hval : ∀ k, dec_ok n K k → length (chunk w D k) = w).
  { intros k Hk. apply length_chunk. rewrite HlD.
    pose proof (chunk_end_le (K * n) w k Hk). lia. }
  assert (Hfinish : ∀ m2,
    written (dec_ok n K) (dec_tgt out w) (chunk w D) w m1
      (dec_done (K * n) None) m2 →
    load m2 (Some out) (K * n * w) = Done (take (K * n * w) D)).
  { intros m2 Hm2.
    eapply (dec_output n K m1 (<[i := nullptr]> slices) out (chunk w D));
      try done.
    - rewrite length_take. lia.
    - intros k Hk. symmetry. apply chunk_take.
      by apply (chunk_end_le (K * n) w k). }
  destruct (decide (i = n)) as [->|Hne].
  - destruct (decode_copy_spec n K m1 (<[n := nullptr]> slices) out
                (chunk w D)) as (m2 & sl2 & Hdec & Hm2 & _).
    + done.
    + done.
    + done.
    + intros k a Hk Ha. eapply output_layout_disjoint; eauto.
    + intros k a r Hk Ha Hr.
      rewrite (Hslot k r a) by (try apply Hlook; done || lia).
      unfold enc_val; simpl. by rewrite decide_True.
    + intros k Hk. apply Hpresent; lia.
    + unfold fits_size_t in Hfit1. lia.
    + exists m2, sl2. split; [done|]. by apply Hfinish.
  - destruct (decode_recover_spec n K m1 (<[i := nullptr]> slices) out
                (chunk w D)) with (mi := i) as (m2 & sl2 & Hdec & Hm2 & _).
    + done.
    + done.
    + done.
    + intros k a Hk Ha. eapply output_layout_disjoint; eauto.
    + intros k a r Hk Ha Hr.
      rewrite (Hslot k r a) by (try apply Hlook; done || lia).
      unfold enc_val; simpl. by rewrite decide_True.
    + lia.
    + apply list_lookup_insert_eq. rewrite length_fmap. lia.
    + done.
    + intros a Ha. eapply output_layout_disjoint; eauto.
    + intros a r Ha Hr.
      rewrite (Hslot n r a) by (try apply Hlook; done || lia).
      unfold enc_val; simpl. by rewrite decide_False by lia.
    + unfold fits_size_t in Hfit1. lia.
    + exists m2, sl2. split; [done|]. by apply Hfinish.
Qed.
End Prefix.

(** X19. [decode] may be asked for fewer chunks than [encode_1] has
    written: for K ≤ num_chunks() and any single slice absent (i = n
    standing for the parity slice) it writes the first K·n·sizeof(UIntT)
    bytes of the zero-padded input, and needs room in the output for
    these bytes only. *)
Theorem decode_fewer_chunks (w n i K : nat) (m0 : memory)
    (ib out : address) (data : list byte) (addrs : list address) :
  1 ≤ n → 1 ≤ w → i ≤ n → K ≤ rounds (length data) n w →
  fits_size_t (length data) → fits_size_t (n * w) → fits_size_t (n + 1) →
  load m0 (Some ib) (length data) = Done data →
  encode_layout (shape m0) ib (length data) addrs n w = true →
  output_layout (shape m0) addrs out n w K = true →
  ∃ p m1 sl1 m2 sl2 to2,
    encode_1 (T := uint w) m0 (Some ib) (Some (addr_add ib (length data)))
      (Some <$> addrs) n = Done (p, m1, sl1)
    ∧ decode (T := uint w) m1 (<[i := nullptr]> (Some <$> addrs)) n (Some out)
        K = Done (m2, sl2, to2)
    ∧ load m2 (Some out) (K * n * w)
      = Done (take (K * n * w)
                (padded data (N.to_nat (num_chunks p) * n * w))).
Proof.
  intros Hn Hw Hi HK Hlen Hfit Hfit1 Hdata Hlayout Hout.
  destruct (encode_1_done (U := uint_UIntT w) n m0 ib data addrs
              Hn Hw Hlen Hfit Hdata Hlayout) as (m1 & Henc & Hm1).
  destruct (decode_rounds (U := uint_UIntT w) n K m0 ib out data addrs
              Hn Hw HK Hfit1 Hlayout Hout m1 i Hm1 Hi)
    as (m2 & sl2 & Hdec & Hld).
  cbn [sizeof uint_UIntT] in *.
  eexists _, m1, _, m2, sl2, _. split; [exact Henc|].
  rewrite num_chunks_rounds, Nat2N.id by done. by split.
Qed.

Lemma decode_fewer_chunks_witness :
  ∃ p m1 sl1 m2 sl2 to2,
    encode_1 (T := uint 1) ex_memory (Some ex_input)
      (Some (addr_add ex_input (length ex_data))) (Some <$> ex_slices) 2
    = Done (p, m1, sl1)
    ∧ decode (T := uint 1) m1 (<[0 := nullptr]> (Some <$> ex_slices)) 2
        (Some ex_output) 2 = Done (m2, sl2, to2)
    ∧ load m2 (Some ex_output) (2 * 2 * 1)
      = Done (take (2 * 2 * 1)
                (padded ex_data (N.to_nat (num_chunks p) * 2 * 1))).
Proof.
  apply (decode_fewer_chunks 1 2 0 2 ex_memory ex_input ex_output ex_data
           ex_slices).
  - lia.
  - lia.
  - lia.
  - vm_compute. lia.
  - unfold fits_size_t. simpl. lia.
  - unfold fits_size_t. simpl. lia.
  - unfold fits_size_t. simpl. lia.
  - reflexivity.
  - reflexivity.
  - reflexivity.
Defined.


(** ** Encoding what was decoded *)

Lemma rounds_full (n w R : nat) :
  1 ≤ n → 1 ≤ w → rounds (R * n * w) n w = R.
Proof.
  intros Hn Hw. unfold rounds.
  replace (R * n * w) with (R * (n * w)) by lia.
  rewrite Nat.div_mul, Nat.Div0.mod_mul by nia. simpl. lia.
Qed.

(** X20. [encode_1] undoes [decode]: when n data slices of any content
    are decoded with no data slice absent and the output, up to the
    cursor that [decode] returns, is encoded again, [encode_1] reports
    the same number of chunks and every data slice it writes holds what
    the decoded slice held. *)
Theorem reencode_restores_slices (w n R : nat) (m1 : memory)
    (addrs fresh : list address) (parity : pointer) (out : address) :
  1 ≤ n → 1 ≤ w →
  fits_size_t (n + 1) → fits_size_t (n * w) → fits_size_t (R * n * w) →
  length addrs = n →
  valid_range (shape m1) out (R * n * w) = true →
  readable_slices (shape m1) addrs out n w R = true →
  encode_layout (shape m1) out (R * n * w) fresh n w = true →
  ∃ m2 sl2 to2 p m3 sl3,
    decode (T := uint w) m1 ((Some <$> addrs) ++ [parity]) n (Some out) R
    = Done (m2, sl2, to2)
    ∧ encode_1 (T := uint w) m2 (Some out) to2 (Some <$> fresh) n
      = Done (p, m3, sl3)
    ∧ num_chunks p = N.of_nat R
    ∧ ∀ r i, r < R → i < n →
        slice_chunk m3 (Some <$> fresh) w i r
        = slice_chunk m1 (Some <$> addrs) w i r.
Proof.
  intros Hn Hw Hfit1 Hfit Hlen Hla Hout Hread Hlayout.
  destruct (decode_copy_any (U := uint_UIntT w) n R m1 addrs parity out
              Hfit1 Hla Hout Hread) as (Hval & m2 & sl2 & Hdec & Hm2 & _).
  cbn [sizeof uint_UIntT] in *.
  assert (Hsh : shape m2 = shape m1) by apply Hm2.
  destruct (load_valid m2 out (R * n * w)) as (d & Hd & Hld);
    [by rewrite Hsh|].
  pose proof (rounds_full n w R Hn Hw) as HR.
  rewrite <- Hld in HR, Hlayout, Hlen, Hd. rewrite <- Hsh in Hlayout.
  unfold fits_size_t in Hfit, Hlen.
  assert (Hfit' : (N.of_nat n * N.of_nat w < 2 ^ 64)%N).
  { by rewrite <- Nat2N.inj_mul. }
  destruct (encode_1_spec (U := uint_UIntT w) n m2 out d fresh
              Hn Hw Hlayout Hd Hlen Hfit') as (m3 & Henc & Hm3).
  cbn [sizeof uint_UIntT] in *.
  eexists m2, sl2, _, _, m3, _. split; [exact Hdec|].
  rewrite <- Hld. split; [exact Henc|].
  split; [by rewrite num_chunks_rounds, HR|].
  intros r i Hr Hi.
  rewrite (slice_chunk_encoded w n m2 m3 out d fresh i r)
    by (done || lia).
  unfold enc_val; simpl. rewrite decide_True by done.
  rewrite HR. unfold padded.
  replace (R * n * w - length d) with 0 by lia. simpl. rewrite app_nil_r.
  pose proof (flat_chunk_end_le R n w r i Hr Hi) as Hend.
  pose proof (load_sub m2 out d ((r * n + i) * w) w Hd ltac:(lia)) as Hsub.
  assert (Hk : r * n + i < R * n) by nia.
  rewrite (decoded_chunk_load n R w m1 m2 out _ (r * n + i) Hm2 Hout Hk)
    in Hsub by (by apply Hval).
  rewrite interleaved_flat in Hsub by done. by injection Hsub as ->.
Qed.

Lemma reencode_restores_slices_witness :
  ∃ m2 sl2 to2 p m3 sl3,
    decode (T := uint 1) ex_memory
      ((Some <$> [Addr 1 0; Addr 2 0]) ++ [nullptr]) 2 (Some ex_output) 3
    = Done (m2, sl2, to2)
    ∧ encode_1 (T := uint 1) m2 (Some ex_output) to2 (Some <$> ex_slices) 2
      = Done (p, m3, sl3)
    ∧ num_chunks p = N.of_nat 3
    ∧ ∀ r i, r < 3 → i < 2 →
        slice_chunk m3 (Some <$> ex_slices) 1 i r
        = slice_chunk ex_memory (Some <$> [Addr 1 0; Addr 2 0]) 1 i r.
Proof.
  apply (reencode_restores_slices 1 2 3 ex_memory [Addr 1 0; Addr 2 0]
           ex_slices nullptr ex_output).
  - lia.
  - lia.
  - unfold fits_size_t. simpl. lia.
  - unfold fits_size_t. simpl. lia.
  - unfold fits_size_t. simpl. lia.
  - reflexivity.
  - reflexivity.
  - reflexivity.
  - reflexivity.
Defined.
